(** * IDA Pro SigMaker: signature builders, operand policy and mask parser

    A shallow embedding of [Main.cpp].  Addresses, lengths and bytes are
    integers with their wrap-around written out; the IDA database and the
    user interface are a record of collaborators; output (messages, prompts,
    clipboard) is an event trace threaded through the builders. *)

From Stdlib Require Import ZArith List String Ascii Bool Lia.
From Stdlib Require Import Sorting.Sorted Sorting.Permutation.
Import ListNotations.

Local Open Scope string_scope.
Local Open Scope list_scope.
Local Open Scope Z_scope.

Set Implicit Arguments.

(** ** Machine integers *)

Definition ea_t := Z.

(** [ea_t] is a 64-bit unsigned address; [BADADDR] is its all-ones value. *)
Definition BADADDR : ea_t := 2 ^ 64 - 1.

Definition wrap64 (z : Z) : Z := z mod 2 ^ 64.
Definition wrap8 (z : Z) : Z := z mod 2 ^ 8.

(** ** Instructions as the disassembler hands them over *)

Inductive optype_t :=
| o_void | o_reg | o_mem | o_phrase | o_displ | o_imm | o_far | o_near
| o_idpspec0 | o_idpspec1 | o_idpspec2 | o_idpspec3 | o_idpspec4 | o_idpspec5.

Record op_t := { type : optype_t; offb : Z }.

Record insn_t := { size : Z; ops : list op_t }.

(** ** Signature model *)

Record SignatureByte := { value : Z; isWildcard : bool }.

Definition Signature := list SignatureByte.

(** [std::expected<T, std::string>] *)
Inductive expected (T : Type) :=
| has_value (v : T)
| unexpected (e : string).
Arguments has_value {T} v.
Arguments unexpected {T} e.

(** The error texts of the builders, under the names the specification
    gives them. *)
Definition InvalidAddress := "Invalid address".
Definition NotCode := "Can not create code signature for data".
Definition Aborted := "Aborted".
Definition DecodeFailed := "Failed to decode first instruction".
Definition NotUnique := "Signature not unique".
Definition LengthExceeded := "Signature exceeded maximum length".
Definition LeftFunctionScope := "Signature left function scope".

(** ** Operand wildcard policy *)

(** The [switch] of [GetOperandOffsetARM]: the operand types that fall
    through to the body of the loop. *)
Definition arm_wildcard_type (t : optype_t) : bool :=
  match t with
  | o_mem | o_far | o_near | o_phrase | o_displ | o_imm => true
  | _ => false
  end.

(** [GetOperandOffsetARM].  The two out-parameters are passed in with the
    values the caller stored in them and returned next to the result. *)
Fixpoint GetOperandOffsetARM_ops (instruction_size : Z) (l : list op_t)
    (operandOffset operandLength : Z) : bool * Z * Z :=
  match l with
  | [] => (false, operandOffset, operandLength)
  | op :: rest =>
      if arm_wildcard_type (type op) then
        let operandOffset := wrap8 (offb op) in
        let operandLength := if instruction_size =? 4 then 3 else operandLength in
        let operandLength := if instruction_size =? 8 then 7 else operandLength in
        (true, operandOffset, operandLength)
      else GetOperandOffsetARM_ops instruction_size rest operandOffset operandLength
  end.

Definition GetOperandOffsetARM (instruction : insn_t)
    (operandOffset operandLength : Z) : bool * Z * Z :=
  GetOperandOffsetARM_ops (size instruction) (ops instruction)
    operandOffset operandLength.

Definition is_o_void (t : optype_t) : bool :=
  match t with o_void => true | _ => false end.

(** The metapc loop of [GetOperand]. *)
Fixpoint GetOperand_ops (instruction_size : Z) (l : list op_t)
    (operandOffset operandLength : Z) : bool * Z * Z :=
  match l with
  | [] => (false, operandOffset, operandLength)
  | op :: rest =>
      if is_o_void (type op) then
        GetOperand_ops instruction_size rest operandOffset operandLength
      else if offb op =? 0 then
        GetOperand_ops instruction_size rest operandOffset operandLength
      else
        (true, wrap8 (offb op), wrap8 (instruction_size - offb op))
  end.

Definition GetOperand (IS_ARM : bool) (instruction : insn_t)
    (operandOffset operandLength : Z) : bool * Z * Z :=
  if IS_ARM then GetOperandOffsetARM instruction operandOffset operandLength
  else GetOperand_ops (size instruction) (ops instruction)
         operandOffset operandLength.

(** Lines 153-154 and 228-229 of the builders: both out-parameters start
    at 0, and the operand is used only when wildcarding is on, the policy
    found one and the length it left behind is positive. *)
Definition maskable_operand (IS_ARM wildcardOperands : bool)
    (instruction : insn_t) : option (Z * Z) :=
  let '(found, operandOffset, operandLength) :=
    GetOperand IS_ARM instruction 0 0 in
  if wildcardOperands && found && (operandLength >? 0)
  then Some (operandOffset, operandLength)
  else None.

(** ** The IDA database and the user, as collaborators *)

Record IDA := {
  inf_min_ea : ea_t;
  inf_max_ea : ea_t;
  (** [get_byte(ea)] *)
  get_byte : ea_t -> Z;
  (** [is_code(get_flags(ea))] *)
  is_code : ea_t -> bool;
  (** [decode_insn(&instruction, ea)]: the returned length and the
      instruction that was filled in *)
  decode_insn : ea_t -> Z * insn_t;
  (** [get_func(ea)]: the enclosing function, if any *)
  get_func : ea_t -> option Z;
  (** [parse_binpat_str] followed by [bin_search2(ea, max, pattern, ...)] *)
  bin_search2 : ea_t -> ea_t -> string -> ea_t;
  (** the origins [xref.from] that [first_to]/[next_to] enumerate *)
  xrefs_to : ea_t -> list ea_t;
  (** the answer of the n-th call of [user_cancelled()] *)
  user_cancelled : nat -> bool;
  (** the answer of the n-th [ask_yn] prompt: 1 yes, 0 no, -1 cancel *)
  ask_yn : nat -> Z
}.

(** What the plugin writes or shows, in the order it happens. *)
Inductive Event :=
| msg_reached_end (ea : ea_t)
    (* "Signature reached end of executable code @ %I64X\n" *)
| msg_not_unique (ea : ea_t) (signatureString : string)
    (* "NOT UNIQUE Signature for %I64X: %s\n" *)
| prompt_continue (size : nat)
    (* "Signature is already at %llu bytes. Continue?" *)
| wait_box_xref (i total : Z)
    (* "Processing xref %llu of %llu (%0.1f%%)..." *)
| msg_no_xrefs
    (* "No XREFs have been found for your address\n" *)
| msg_top (topLength total : nat) (ea : ea_t)
    (* "Top %llu Signatures out of %llu xrefs for %I64X:\n" *)
| msg_xref_signature (i : nat) (origin : ea_t) (signatureStr : string)
    (* "XREF Signature #%i @ %I64X: %s\n" *)
| clipboard (text : string)
    (* SetClipboardText *)
| msg_detected_mask (mask : string)
    (* "Detected mask \"%s\" but failed to match corresponding bytes\n" *)
| msg_failed_format
    (* "Failed to match signature format\n" *)
| msg_unrecognized
    (* "Unrecognized signature type\n" *)
| msg_signature (s : string)
    (* "Signature: %s\n" *)
| msg_no_match
    (* "Signature does not match!\n" *)
| msg_match (ea : ea_t).
    (* "Match @ %I64X\n" *)

Record World := {
  polls : nat;          (* calls of user_cancelled() so far *)
  prompts : nat;        (* ask_yn prompts so far *)
  output : list Event   (* everything written or shown so far *)
}.

Definition emit (w : World) (e : Event) : World :=
  {| polls := polls w; prompts := prompts w; output := output w ++ [e] |}.

Definition polled (w : World) : World :=
  {| polls := S (polls w); prompts := prompts w; output := output w |}.

Definition prompted (w : World) : World :=
  {| polls := polls w; prompts := S (prompts w); output := output w |}.

(** ** Signature helpers of SignatureUtils.h *)

Definition hex_digit (n : Z) : ascii :=
  match String.get (Z.to_nat n) "0123456789ABCDEF" with
  | Some c => c
  | None => "?"%char
  end.

Definition hex_byte (v : Z) : string :=
  String (hex_digit ((v mod 256) / 16)) (String (hex_digit (v mod 16)) EmptyString).

Definition ida_token (b : SignatureByte) : string :=
  if isWildcard b then "?" else hex_byte (value b).

(** Modelled from the spec: [BuildIDASignatureString] is declared in
    SignatureUtils.h, which is not part of the sources at hand.  The IDA
    dialect renders a literal byte as two uppercase hex digits and a
    wildcard as a single question mark, separated by single spaces, in
    append order. *)
Definition BuildIDASignatureString (signature : Signature) : string :=
  String.concat " " (map ida_token signature).

Section SignatureUtils.
Variable db : IDA.

(** Modelled from the spec: [AddBytesToSignature] is declared in
    SignatureUtils.h.  It reads [count] raw bytes from the image at
    [address] and appends each as a SignatureByte with the given wildcard
    flag, keeping the original byte value under a wildcard.  The byte
    range is empty when [count] is not positive. *)
Definition AddBytesToSignature (signature : Signature) (address : ea_t)
    (count : Z) (wildcard : bool) : Signature :=
  signature ++
  map (fun i => {| value := get_byte db (wrap64 (address + Z.of_nat i));
                   isWildcard := wildcard |})
      (seq 0 (Z.to_nat count)).

(** The bytes [from, to) of the instruction at [address], in address
    order, all literal or all wildcard. *)
Definition instruction_bytes (address : ea_t) (from to : Z)
    (wildcard : bool) : Signature :=
  map (fun i => {| value := get_byte db (wrap64 (address + from + Z.of_nat i));
                   isWildcard := wildcard |})
      (seq 0 (Z.to_nat (to - from))).
End SignatureUtils.

Fixpoint drop_while {A : Type} (p : A -> bool) (l : list A) : list A :=
  match l with
  | [] => []
  | x :: rest => if p x then drop_while p rest else l
  end.

(** Modelled from the spec: [TrimSignature] is declared in
    SignatureUtils.h.  It removes SignatureByte entries from the tail
    while [isWildcard] is true. *)
Definition TrimSignature (signature : Signature) : Signature :=
  rev (drop_while isWildcard (rev signature)).

(** A signature whose last entry, if there is one, is a literal byte. *)
Definition no_trailing_wildcard (signature : Signature) : Prop :=
  forall front b, signature = front ++ [b] -> isWildcard b = false.

(** ** The matcher *)

Section Matcher.
Variable db : IDA.

(** The [while (true)] loop of [FindSignatureOccurences]; [fuel] bounds
    the number of [bin_search2] calls, [None] means the bound was hit. *)
Fixpoint FindSignatureOccurences_loop (fuel : nat) (binaryPattern : string)
    (ea : ea_t) (results : list ea_t) : option (list ea_t) :=
  match fuel with
  | O => None
  | S fuel =>
      let occurence := bin_search2 db ea (inf_max_ea db) binaryPattern in
      if occurence =? BADADDR then Some results
      else FindSignatureOccurences_loop fuel binaryPattern
             (wrap64 (occurence + 1)) (results ++ [occurence])
  end.

Definition FindSignatureOccurences (fuel : nat) (idaSignature : string)
    : option (list ea_t) :=
  FindSignatureOccurences_loop fuel idaSignature (inf_min_ea db) [].

Definition IsSignatureUnique (fuel : nat) (idaSignature : string)
    : option bool :=
  match FindSignatureOccurences fuel idaSignature with
  | Some results => Some (Nat.eqb (List.length results) 1)
  | None => None
  end.
End Matcher.

(** ** The builders *)

(** The variables of a builder's [while (true)] loop. *)
Record LoopState := {
  signature : Signature;
  sigPartLength : Z;
  currentAddress : ea_t;
  world : World
}.

(** What one pass through a loop body does: leave the function with a
    result, go round again, or never come back from the matcher. *)
Inductive Outcome :=
| Return (r : expected Signature) (w : World)
| Continue (st : LoopState)
| Hang.

Section Loop.
Variable body : LoopState -> Outcome.

Fixpoint run_loop (fuel : nat) (st : LoopState)
    : option (expected Signature * World) :=
  match fuel with
  | O => None
  | S fuel =>
      match body st with
      | Return r w => Some (r, w)
      | Continue st' => run_loop fuel st'
      | Hang => None
      end
  end.

(** The state at the start of pass [n], when the passes before it all
    went round again. *)
Fixpoint iterate (n : nat) (st : LoopState) : option LoopState :=
  match n with
  | O => Some st
  | S n =>
      match body st with
      | Continue st' => iterate n st'
      | _ => None
      end
  end.
End Loop.

Definition same_func (f g : option Z) : bool :=
  match f, g with
  | Some a, Some b => a =? b
  | None, None => true
  | _, _ => false
  end.

Section Builders.
Variable db : IDA.
Variable IS_ARM : bool.
(** the bound on [bin_search2] calls of one matcher query *)
Variable search_fuel : nat.

(** Lines 153-167 (and again 228-242): the bytes of one decoded
    instruction are appended, with the operand wildcarded when the
    policy yields one. *)
Definition append_instruction (signature : Signature) (currentAddress : ea_t)
    (instruction : insn_t) (currentInstructionLength : Z)
    (wildcardOperands : bool) : Signature :=
  match maskable_operand IS_ARM wildcardOperands instruction with
  | Some (operandOffset, operandLength) =>
      (* Add opcodes *)
      let signature :=
        AddBytesToSignature db signature currentAddress operandOffset false in
      (* Wildcards for operands *)
      let signature :=
        AddBytesToSignature db signature
          (wrap64 (currentAddress + operandOffset)) operandLength true in
      (* operand on the "left side": add the operator from the "right side" *)
      if operandOffset =? 0 then
        AddBytesToSignature db signature
          (wrap64 (currentAddress + operandLength))
          (currentInstructionLength - operandLength) false
      else signature
  | None =>
      (* No operand, add all bytes *)
      AddBytesToSignature db signature currentAddress
        currentInstructionLength false
  end.

(** Lines 130-150: the length check.  Either the builder returns, or it
    goes on with the counter and the world as left by the prompt. *)
Definition length_check (ea : ea_t) (maxSignatureLength : Z)
    (askLongerSignature : bool) (signature : Signature)
    (sigPartLength : Z) (w : World)
    : (expected Signature * World) + (Z * World) :=
  if sigPartLength >? maxSignatureLength then
    if askLongerSignature then
      let result := ask_yn db (prompts w) in
      let w := prompted (emit w (prompt_continue (List.length signature))) in
      if result =? 1 then inr (0, w)
      else if result =? 0 then
        inl (unexpected NotUnique,
             emit w (msg_not_unique ea (BuildIDASignatureString signature)))
      else inl (unexpected Aborted, w)
    else inl (unexpected LengthExceeded, w)
  else inr (sigPartLength, w).

(** Lines 151-183: the rest of a pass, once the length check let it
    through with the counter [sigPartLength] and the world [w]. *)
Definition grow_rest (wildcardOperands continueOutsideOfFunction : bool)
    (currentFunction : option Z) (st : LoopState)
    (instruction : insn_t) (currentInstructionLength : Z)
    (sigPartLength : Z) (w : World) : Outcome :=
  let sigPartLength := wrap64 (sigPartLength + currentInstructionLength) in
  let signature :=
    append_instruction (signature st) (currentAddress st)
      instruction currentInstructionLength wildcardOperands in
  let currentSig := BuildIDASignatureString signature in
  match IsSignatureUnique db search_fuel currentSig with
  | None => Hang
  | Some true =>
      (* Remove wildcards at end for output *)
      Return (has_value (TrimSignature signature)) w
  | Some false =>
      let currentAddress :=
        wrap64 (currentAddress st + currentInstructionLength) in
      (* Break if we leave function *)
      if negb continueOutsideOfFunction
         && match currentFunction with Some _ => true | None => false end
         && negb (same_func (get_func db currentAddress) currentFunction)
      then Return (unexpected LeftFunctionScope) w
      else Continue {| signature := signature;
                       sigPartLength := sigPartLength;
                       currentAddress := currentAddress;
                       world := w |}
  end.

(** Lines 112-183: one pass through the loop of
    [GenerateUniqueSignatureForEA]. *)
Definition grow_body (ea : ea_t)
    (wildcardOperands continueOutsideOfFunction : bool)
    (maxSignatureLength : Z) (askLongerSignature : bool)
    (currentFunction : option Z) (st : LoopState) : Outcome :=
  (* Handle IDA "cancel" event *)
  let cancelled := user_cancelled db (polls (world st)) in
  let w := polled (world st) in
  if cancelled then Return (unexpected Aborted) w
  else
    let '(currentInstructionLength, instruction) :=
      decode_insn db (currentAddress st) in
    if currentInstructionLength <=? 0 then
      match signature st with
      | [] => Return (unexpected DecodeFailed) w
      | _ =>
          let w := emit w (msg_reached_end (currentAddress st)) in
          let signatureString := BuildIDASignatureString (signature st) in
          Return (unexpected NotUnique)
                 (emit w (msg_not_unique ea signatureString))
      end
    else
      (* Length check in case the signature becomes too long *)
      match length_check ea maxSignatureLength askLongerSignature
              (signature st) (sigPartLength st) w with
      | inl (r, w) => Return r w
      | inr (sigPartLength, w) =>
          grow_rest wildcardOperands continueOutsideOfFunction
            currentFunction st instruction currentInstructionLength
            sigPartLength w
      end.

(** The signature a pass has built once its instruction is appended. *)
Definition grown (wildcardOperands : bool) (st : LoopState) : Signature :=
  let '(currentInstructionLength, instruction) :=
    decode_insn db (currentAddress st) in
  append_instruction (signature st) (currentAddress st)
    instruction currentInstructionLength wildcardOperands.

(** The state in which the loop of [GenerateUniqueSignatureForEA] is
    entered (lines 105-110). *)
Definition grow_init (ea : ea_t) (w : World) : LoopState :=
  {| signature := []; sigPartLength := 0; currentAddress := ea; world := w |}.

Definition GenerateUniqueSignatureForEA (fuel : nat) (w : World) (ea : ea_t)
    (wildcardOperands continueOutsideOfFunction : bool)
    (maxSignatureLength : Z) (askLongerSignature : bool)
    : option (expected Signature * World) :=
  if ea =? BADADDR then Some (unexpected InvalidAddress, w)
  else if negb (is_code db ea) then Some (unexpected NotCode, w)
  else
    let currentFunction := get_func db ea in
    run_loop (grow_body ea wildcardOperands continueOutsideOfFunction
                maxSignatureLength askLongerSignature currentFunction)
      fuel (grow_init ea w).

(** Lines 204-250: one pass through the loop of
    [GenerateSignatureForEARange]. *)
Definition range_body (eaEnd : ea_t) (wildcardOperands : bool)
    (st : LoopState) : Outcome :=
  let cancelled := user_cancelled db (polls (world st)) in
  let w := polled (world st) in
  if cancelled then Return (unexpected Aborted) w
  else
    let '(currentInstructionLength, instruction) :=
      decode_insn db (currentAddress st) in
    if currentInstructionLength <=? 0 then
      match signature st with
      | [] => Return (unexpected DecodeFailed) w
      | _ =>
          let w := emit w (msg_reached_end (currentAddress st)) in
          (* If we have some bytes left, add them *)
          let signature :=
            if currentAddress st <? eaEnd then
              AddBytesToSignature db (signature st) (currentAddress st)
                (wrap64 (eaEnd - currentAddress st)) false
            else signature st in
          Return (has_value (TrimSignature signature)) w
      end
    else
      let sigPartLength :=
        wrap64 (sigPartLength st + currentInstructionLength) in
      let signature :=
        append_instruction (signature st) (currentAddress st)
          instruction currentInstructionLength wildcardOperands in
      let currentAddress :=
        wrap64 (currentAddress st + currentInstructionLength) in
      if currentAddress >=? eaEnd then
        Return (has_value (TrimSignature signature)) w
      else Continue {| signature := signature;
                       sigPartLength := sigPartLength;
                       currentAddress := currentAddress;
                       world := w |}.

Definition GenerateSignatureForEARange (fuel : nat) (w : World)
    (eaStart eaEnd : ea_t) (wildcardOperands : bool)
    : option (expected Signature * World) :=
  if (eaStart =? BADADDR) || (eaEnd =? BADADDR)
  then Some (unexpected InvalidAddress, w)
  else if negb (is_code db eaStart) then
    (* Copy data section, no wildcards *)
    Some (has_value
            (AddBytesToSignature db [] eaStart (wrap64 (eaEnd - eaStart)) false),
          w)
  else
    run_loop (range_body eaEnd wildcardOperands) fuel
      {| signature := []; sigPartLength := 0;
         currentAddress := eaStart; world := w |}.
End Builders.

(** ** Cross-reference ranking *)

(** Modelled from the spec: the enumeration [SignatureType] is declared
    in a header that is not part of the sources at hand. *)
Inductive SignatureType :=
| IdaStyle | X64DbgStyle | CByteArrayWithMask | CRawBytesWithBitmask.

Definition sig_size (p : ea_t * Signature) : nat := List.length (snd p).

(** [std::ranges::sort] with the comparator [size(a) < size(b)], as an
    insertion sort.  The library leaves the order of entries of equal size
    open; here they keep the order they were found in. *)
Fixpoint insert_by_size (p : ea_t * Signature) (l : list (ea_t * Signature))
    : list (ea_t * Signature) :=
  match l with
  | [] => [p]
  | q :: rest =>
      if Nat.ltb (sig_size q) (sig_size p) then q :: insert_by_size p rest
      else p :: l
  end.

Fixpoint sort_by_size (l : list (ea_t * Signature)) : list (ea_t * Signature) :=
  match l with
  | [] => []
  | p :: rest => insert_by_size p (sort_by_size rest)
  end.

(** The successful pairs among the outcomes of the builder calls, in the
    order of the calls. *)
Definition successes (outcomes : list (ea_t * expected Signature))
    : list (ea_t * Signature) :=
  flat_map (fun p => match snd p with
                     | has_value signature => [(fst p, signature)]
                     | unexpected _ => []
                     end) outcomes.


(** One call of the growing builder for the origin [fst p], with
    prompting off and the given cap, in some world, with outcome [snd p]. *)
Definition builder_call (db : IDA) (IS_ARM : bool) (search_fuel fuel : nat)
    (wildcardOperands continueOutsideOfFunction : bool)
    (maxSignatureLength : Z) (p : ea_t * expected Signature) : Prop :=
  exists w1 w2,
    GenerateUniqueSignatureForEA db IS_ARM search_fuel fuel w1 (fst p)
      wildcardOperands continueOutsideOfFunction maxSignatureLength false
    = Some (snd p, w2).


Section XRefs.
Variable db : IDA.
Variable IS_ARM : bool.
Variable search_fuel : nat.
(** the bound on loop passes of one growing-builder call *)
Variable fuel : nat.
(** [FormatSignature] of SignatureUtils.h, taken as given *)
Variable FormatSignature : Signature -> SignatureType -> string.

(** Lines 270-276: count the code xrefs. *)
Fixpoint count_code_xrefs (origins : list ea_t) (xrefCount : Z) : Z :=
  match origins with
  | [] => xrefCount
  | from :: rest =>
      if negb (is_code db from) then count_code_xrefs rest xrefCount
      else count_code_xrefs rest (wrap64 (xrefCount + 1))
  end.

(** Lines 278-295: the second loop over the xrefs. *)
Fixpoint FindXRefs_loop (origins : list ea_t) (i xrefCount : Z)
    (wildcardOperands continueOutsideOfFunction : bool)
    (maxSignatureLength : Z)
    (xrefSignatures : list (ea_t * Signature)) (w : World)
    : option (list (ea_t * Signature) * World) :=
  match origins with
  | [] => Some (xrefSignatures, w)
  | from :: rest =>
      (* Skip data refs *)
      if negb (is_code db from) then
        FindXRefs_loop rest (wrap64 (i + 1)) xrefCount wildcardOperands
          continueOutsideOfFunction maxSignatureLength xrefSignatures w
      else
        let w := emit w (wait_box_xref (wrap64 (i + 1)) xrefCount) in
        match GenerateUniqueSignatureForEA db IS_ARM search_fuel fuel w from
                wildcardOperands continueOutsideOfFunction
                maxSignatureLength false with
        | None => None
        | Some (unexpected _, w) =>
            FindXRefs_loop rest (wrap64 (i + 1)) xrefCount wildcardOperands
              continueOutsideOfFunction maxSignatureLength xrefSignatures w
        | Some (has_value signature, w) =>
            FindXRefs_loop rest (wrap64 (i + 1)) xrefCount wildcardOperands
              continueOutsideOfFunction maxSignatureLength
              (xrefSignatures ++ [(from, signature)]) w
        end
  end.

Definition FindXRefs (w : World) (ea : ea_t)
    (wildcardOperands continueOutsideOfFunction : bool)
    (xrefSignatures : list (ea_t * Signature)) (maxSignatureLength : Z)
    : option (list (ea_t * Signature) * World) :=
  let xrefCount := count_code_xrefs (xrefs_to db ea) 0 in
  match FindXRefs_loop (xrefs_to db ea) 0 xrefCount wildcardOperands
          continueOutsideOfFunction maxSignatureLength xrefSignatures w with
  | None => None
  | Some (xrefSignatures, w) =>
      (* Sort signatures by length *)
      Some (sort_by_size xrefSignatures, w)
  end.

(** Lines 309-318: the loop over the top entries. *)
Fixpoint print_top (l : list (ea_t * Signature)) (i : nat)
    (sigType : SignatureType) (w : World) : World :=
  match l with
  | [] => w
  | (originAddress, signature) :: rest =>
      let signatureStr := FormatSignature signature sigType in
      let w := emit w (msg_xref_signature (i + 1) originAddress signatureStr) in
      (* Copy first signature only *)
      let w := if Nat.eqb i 0 then emit w (clipboard signatureStr) else w in
      print_top rest (S i) sigType w
  end.

Definition PrintXRefSignaturesForEA (w : World) (ea : ea_t)
    (xrefSignatures : list (ea_t * Signature)) (sigType : SignatureType)
    (topCount : nat) : World :=
  match xrefSignatures with
  | [] => emit w msg_no_xrefs
  | _ =>
      let topLength := Nat.min topCount (List.length xrefSignatures) in
      let w := emit w (msg_top topLength (List.length xrefSignatures) ea) in
      print_top (firstn topLength xrefSignatures) 0 sigType w
  end.

(** [case 1] of [plugin_ctx_t::run]: signatures up to 250 bytes, the
    five shortest printed. *)
Definition run_xref_action (w : World) (ea : ea_t)
    (wildcardOperands continueOutsideOfFunction : bool)
    (sigType : SignatureType) : option World :=
  match FindXRefs w ea wildcardOperands continueOutsideOfFunction [] 250 with
  | None => None
  | Some (xrefSignatures, w) =>
      Some (PrintXRefSignaturesForEA w ea xrefSignatures sigType 5)
  end.
End XRefs.

(** ** Regular expressions

    The patterns of [SearchSignatureString] are matched by derivatives.
    A search takes the leftmost match and, at that position, the longest
    one; for the patterns used here (a fixed prefix followed by a greedy
    repetition of single characters or of fixed-width groups) that is the
    match [std::regex] finds. *)

Inductive regex :=
| Never
| Eps
| Sym (p : ascii -> bool)
| Cat (r s : regex)
| Or (r s : regex)
| Star (r : regex).

Definition Plus (r : regex) : regex := Cat r (Star r).

Fixpoint nullable (r : regex) : bool :=
  match r with
  | Never => false
  | Eps => true
  | Sym _ => false
  | Cat r s => nullable r && nullable s
  | Or r s => nullable r || nullable s
  | Star _ => true
  end.

Definition cat (r s : regex) : regex :=
  match r, s with
  | Never, _ => Never
  | _, Never => Never
  | Eps, _ => s
  | _, _ => Cat r s
  end.

Definition or (r s : regex) : regex :=
  match r, s with
  | Never, _ => s
  | _, Never => r
  | _, _ => Or r s
  end.

Fixpoint deriv (c : ascii) (r : regex) : regex :=
  match r with
  | Never => Never
  | Eps => Never
  | Sym p => if p c then Eps else Never
  | Cat r s =>
      if nullable r then or (cat (deriv c r) s) (deriv c s)
      else cat (deriv c r) s
  | Or r s => or (deriv c r) (deriv c s)
  | Star r => cat (deriv c r) (Star r)
  end.

(** [regex_match]: the whole text is in the language. *)
Fixpoint regex_match (r : regex) (s : string) : bool :=
  match s with
  | EmptyString => nullable r
  | String c s' => regex_match (deriv c r) s'
  end.

(** The length of the longest prefix of [s] in the language, if any. *)
Fixpoint longest_match (r : regex) (s : string) : option nat :=
  match s with
  | EmptyString => if nullable r then Some O else None
  | String c s' =>
      match longest_match (deriv c r) s' with
      | Some n => Some (S n)
      | None => if nullable r then Some O else None
      end
  end.

(** [regex_search]: the text of the first match, [match[0].str()]. *)
Fixpoint regex_search (r : regex) (s : string) : option string :=
  match longest_match r s with
  | Some n => Some (substring 0 n s)
  | None =>
      match s with
      | EmptyString => None
      | String _ s' => regex_search r s'
      end
  end.

(** All matches from left to right, each search starting where the match
    before it ended; [skip] counts the characters of the current match
    still to be passed. *)
Fixpoint regex_matches (r : regex) (skip : nat) (s : string) : list string :=
  match s with
  | EmptyString => []
  | String _ s' =>
      match skip with
      | S k => regex_matches r k s'
      | O =>
          match longest_match r s with
          | Some (S n) => substring 0 (S n) s :: regex_matches r n s'
          | _ => regex_matches r O s'
          end
      end
  end.

(** [regex_replace]: every match is replaced by [fmt]. *)
Fixpoint regex_replace (r : regex) (fmt : string) (skip : nat) (s : string)
    : string :=
  match s with
  | EmptyString => EmptyString
  | String c s' =>
      match skip with
      | S k => regex_replace r fmt k s'
      | O =>
          match longest_match r s with
          | Some (S n) => fmt ++ regex_replace r fmt n s'
          | _ => String c (regex_replace r fmt O s')
          end
      end
  end.

(** [regex_replace] with a pattern anchored by [^]: only a match at the
    very start is replaced. *)
Definition regex_replace_at_start (r : regex) (fmt : string) (s : string)
    : string :=
  match longest_match r s with
  | Some (S n) => fmt ++ substring (S n) (String.length s - S n) s
  | _ => s
  end.

(** [regex_replace] with a pattern anchored by [$]: the leftmost match
    that reaches the end of the text is replaced. *)
Fixpoint regex_replace_at_end (r : regex) (fmt : string) (s : string) : string :=
  match s with
  | EmptyString => EmptyString
  | String c s' =>
      if regex_match r s then fmt
      else String c (regex_replace_at_end r fmt s')
  end.

Definition chr (c : ascii) : regex := Sym (Ascii.eqb c).

Definition one_of (set : string) : regex :=
  Sym (fun c => existsb (Ascii.eqb c) (list_ascii_of_string set)).

Definition upper_hex : regex := one_of "0123456789ABCDEF".

(** [\s] *)
Definition space : regex :=
  Sym (fun c => existsb (Nat.eqb (nat_of_ascii c)) [32; 9; 10; 11; 12; 13]%nat).

(** [x(?:x|\?)+] *)
Definition rx_string_mask : regex := Cat (chr "x") (Plus (Or (chr "x") (chr "?"))).

(** [0b(?:[0,1])+] *)
Definition rx_bitmask : regex := Cat (chr "0") (Cat (chr "b") (Plus (one_of "0,1"))).

(** [\\x(?:[0-9A-F]{2})] *)
Definition rx_escaped_bytes : regex :=
  Cat (chr "\") (Cat (chr "x") (Cat upper_hex upper_hex)).

(** [(?:0x(?:[0-9A-F]{2}))+] *)
Definition rx_c_bytes : regex :=
  Plus (Cat (chr "0") (Cat (chr "x") (Cat upper_hex upper_hex))).

(** [[\)\(\[\]]+] *)
Definition rx_braces : regex := Plus (one_of ")([]").

(** [\s+], anchored by [^] where it is used *)
Definition rx_spaces : regex := Plus space.

(** [[? ]+], anchored by [$] where it is used *)
Definition rx_tail : regex := Plus (one_of "? ").

(** [\?\? ] *)
Definition rx_double_wildcard : regex := Cat (chr "?") (Cat (chr "?") (chr " ")).

(** [(?:(?:[A-F0-9]{2}\s+)|(?:\?\s+))+] *)
Definition rx_ida : regex :=
  Plus (Or (Cat upper_hex (Cat upper_hex (Plus space))) (Cat (chr "?") (Plus space))).

(** ** Parsing a pasted signature *)

Definition hex_value (c : ascii) : option Z :=
  let n := Z.of_nat (nat_of_ascii c) in
  if (48 <=? n) && (n <=? 57) then Some (n - 48)
  else if (65 <=? n) && (n <=? 70) then Some (n - 55)
  else if (97 <=? n) && (n <=? 102) then Some (n - 87)
  else None.

Fixpoint stoi16_digits (acc : Z) (s : string) : Z :=
  match s with
  | EmptyString => acc
  | String c s' =>
      match hex_value c with
      | Some d => stoi16_digits (acc * 16 + d) s'
      | None => acc
      end
  end.

(** [std::stoi(s, nullptr, 16)] on a text that starts with a hex digit
    other than a [0x] prefix, which is all the callers pass: the value of
    the leading run of hex digits. *)
Definition stoi16 (s : string) : Z := stoi16_digits 0 s.

(** [s.substr(2)] *)
Definition substr2 (s : string) : string := substring 2 (String.length s - 2) s.

(** Modelled from the spec: [GetRegexMatches] is declared in Utils.h,
    which is not part of the sources at hand.  It scans the full text for
    the tokens of the pattern, stores them in [matches] and tells whether
    there were any. *)
Definition GetRegexMatches (input : string) (r : regex) : bool * list string :=
  let matches := regex_matches r O input in
  (match matches with [] => false | _ => true end, matches).

(** Lines 344-357: the mask, empty when none was detected. *)
Definition detect_mask (input : string) : string :=
  match regex_search rx_string_mask input with
  | Some m => m
  | None =>
      match regex_search rx_bitmask input with
      | Some m =>
          let bits := substr2 m in
          let reversedBits := rev (list_ascii_of_string bits) in
          string_of_list_ascii
            (map (fun b => if Ascii.eqb b "1" then "x"%char else "?"%char)
                 reversedBits)
      | None => EmptyString
      end
  end.

(** The range-for loops that build [convertedSignature]: one byte per
    token, a wildcard where [stringMask[i++]] is a question mark.  The
    value is stored in a byte. *)
Fixpoint bytes_with_mask (rawByteStrings : list string) (stringMask : string)
    (i : nat) : Signature :=
  match rawByteStrings with
  | [] => []
  | m :: rest =>
      {| value := wrap8 (stoi16 (substr2 m));
         isWildcard := match String.get i stringMask with
                       | Some c => Ascii.eqb c "?"
                       | None => false
                       end |}
      :: bytes_with_mask rest stringMask (S i)
  end.

(** The same loops with the flag [false]. *)
Definition bytes_without_mask (rawByteStrings : list string) : Signature :=
  map (fun m => {| value := wrap8 (stoi16 (substr2 m)); isWildcard := false |})
      rawByteStrings.

(** Lines 359-384: a mask was detected, search for the bytes. *)
Definition convert_with_mask (input stringMask : string) (w : World)
    : string * World :=
  let '(found, rawByteStrings) := GetRegexMatches input rx_escaped_bytes in
  if found && Nat.eqb (List.length rawByteStrings) (String.length stringMask) then
    (BuildIDASignatureString (bytes_with_mask rawByteStrings stringMask O), w)
  else
    let '(found, rawByteStrings) := GetRegexMatches input rx_c_bytes in
    if found && Nat.eqb (List.length rawByteStrings) (String.length stringMask) then
      (BuildIDASignatureString (bytes_with_mask rawByteStrings stringMask O), w)
    else (EmptyString, emit w (msg_detected_mask stringMask)).

(** Lines 385-431: no mask, try the formats with included wildcards. *)
Definition convert_without_mask (input : string) (w : World) : string * World :=
  let input := regex_replace rx_braces EmptyString O input in
  let input := regex_replace_at_start rx_spaces EmptyString input in
  let input := (regex_replace_at_end rx_tail EmptyString input ++ " ")%string in
  let input := regex_replace rx_double_wildcard "? " O input in
  if regex_match rx_ida input then (input, w)
  else
    let '(found, rawByteStrings) := GetRegexMatches input rx_escaped_bytes in
    if found && Nat.ltb 1 (List.length rawByteStrings) then
      (BuildIDASignatureString (bytes_without_mask rawByteStrings), w)
    else
      let '(found, rawByteStrings) := GetRegexMatches input rx_c_bytes in
      if found && Nat.ltb 1 (List.length rawByteStrings) then
        (BuildIDASignatureString (bytes_without_mask rawByteStrings), w)
      else (EmptyString, emit w msg_failed_format).

(** Lines 337-431: the text is converted to an IDA style signature,
    empty when no format was recognised. *)
Definition convert_signature_string (input : string) (w : World)
    : string * World :=
  let stringMask := detect_mask input in
  match stringMask with
  | EmptyString => convert_without_mask input w
  | _ => convert_with_mask input stringMask w
  end.

Section Search.
Variable db : IDA.
Variable search_fuel : nat.

Definition SearchSignatureString (input : string) (w : World) : option World :=
  let '(convertedSignatureString, w) := convert_signature_string input w in
  match convertedSignatureString with
  | EmptyString => Some (emit w msg_unrecognized)
  | _ =>
      (* Print results *)
      let w := emit w (msg_signature convertedSignatureString) in
      match FindSignatureOccurences db search_fuel convertedSignatureString with
      | None => None
      | Some [] => Some (emit w msg_no_match)
      | Some signatureMatches =>
          Some (fold_left (fun w ea => emit w (msg_match ea)) signatureMatches w)
      end
  end.
End Search.

(** ** A small database to run the builders on

    Three instructions at 0x1000 (a call with a 4-byte relative target,
    a nop, a ret) inside one function, one code address 0x1010 that does
    not decode, and data elsewhere.  The matcher answers from a table of
    occurrences per signature text. *)

Module Demo.
Definition image (ea : ea_t) : Z :=
  if ea =? 4096 then 232          (* E8 *)
  else if ea =? 4097 then 1
  else if ea =? 4098 then 2
  else if ea =? 4099 then 3
  else if ea =? 4100 then 4
  else if ea =? 4101 then 144     (* 90 *)
  else if ea =? 4102 then 195     (* C3 *)
  else 0.

Definition call_insn : insn_t :=
  {| size := 5; ops := [ {| type := o_near; offb := 1 |} ] |}.
Definition plain_insn : insn_t := {| size := 1; ops := [] |}.
Definition no_insn : insn_t := {| size := 0; ops := [] |}.

Definition decode (ea : ea_t) : Z * insn_t :=
  if ea =? 4096 then (5, call_insn)
  else if (ea =? 4101) || (ea =? 4102) then (1, plain_insn)
  else (0, no_insn).

Definition code (ea : ea_t) : bool :=
  ((4096 <=? ea) && (ea <? 4103)) || (ea =? 4112).

Definition one_function (ea : ea_t) : option Z :=
  if (4096 <=? ea) && (ea <? 4103) then Some 1 else None.

Definition no_function (ea : ea_t) : option Z := None.

Definition search (occ : string -> list ea_t) (ea max : ea_t)
    (pattern : string) : ea_t :=
  match find (fun a => (ea <=? a) && (a <? max)) (occ pattern) with
  | Some a => a
  | None => BADADDR
  end.

(** The call alone occurs twice, the call followed by the nop once. *)
Definition occ_second (s : string) : list ea_t :=
  if String.eqb s "E8 ? ? ? ?" then [4096; 8192]
  else if String.eqb s "E8 ? ? ? ? 90" then [4096]
  else if String.eqb s "90" then [4101; 8197]
  else if String.eqb s "90 C3" then [4101]
  else if String.eqb s "C3" then [4102]
  else [].

(** The call alone is already unique. *)
Definition occ_first (s : string) : list ea_t :=
  if String.eqb s "E8 ? ? ? ?" then [4096] else [].

(** Unique only with the ret, the last instruction of the function. *)
Definition occ_third (s : string) : list ea_t :=
  if String.eqb s "E8 ? ? ? ? 90 C3" then [4096] else [4096; 8192].

(** Nothing is ever unique. *)
Definition occ_never (s : string) : list ea_t := [4096; 8192].

Definition xrefs (ea : ea_t) : list ea_t :=
  if ea =? 12288 then [4096; 16384; 4112; 4101; 4102] else [].

Definition db (occ : string -> list ea_t) (funcs : ea_t -> option Z)
    (answer : Z) : IDA :=
  {| inf_min_ea := 4096;
     inf_max_ea := 65536;
     get_byte := image;
     is_code := code;
     decode_insn := decode;
     get_func := funcs;
     bin_search2 := search occ;
     xrefs_to := xrefs;
     user_cancelled := fun _ => false;
     ask_yn := fun _ => answer |}.

Definition db_second : IDA := db occ_second one_function 0.
Definition db_first : IDA := db occ_first one_function 0.
Definition db_third : IDA := db occ_third one_function 0.
Definition db_never : IDA := db occ_never one_function 0.
Definition db_never_yes : IDA := db occ_never one_function 1.
Definition db_never_cancel : IDA := db occ_never one_function (-1).
Definition db_no_function : IDA := db occ_never no_function 0.

Definition w0 : World := {| polls := 0; prompts := 0; output := [] |}.

Definition render (s : Signature) (t : SignatureType) : string :=
  BuildIDASignatureString s.

(** An ARM instruction of four bytes with an immediate operand, one of
    two bytes, and one with registers only. *)
Definition arm4 : insn_t :=
  {| size := 4; ops := [ {| type := o_reg; offb := 0 |};
                         {| type := o_imm; offb := 0 |} ] |}.
Definition arm8 : insn_t :=
  {| size := 8; ops := [ {| type := o_mem; offb := 0 |} ] |}.
Definition thumb2 : insn_t :=
  {| size := 2; ops := [ {| type := o_imm; offb := 0 |} ] |}.
Definition arm_regs : insn_t :=
  {| size := 4; ops := [ {| type := o_reg; offb := 0 |};
                         {| type := o_reg; offb := 0 |} ] |}.

Definition lit (v : Z) : SignatureByte := {| value := v; isWildcard := false |}.
Definition wild (v : Z) : SignatureByte := {| value := v; isWildcard := true |}.

(** The signature after the call, after the nop and after the ret. *)
Definition sig1 : Signature := [lit 232; wild 1; wild 2; wild 3; wild 4].
Definition sig2 : Signature := sig1 ++ [lit 144].
Definition sig3 : Signature := sig2 ++ [lit 195].

Definition after_polls (n : nat) : World :=
  {| polls := n; prompts := 0; output := [] |}.

(** The loop states at the start of the second, third and fourth pass. *)
Definition st1 : LoopState :=
  {| signature := sig1; sigPartLength := 5; currentAddress := 4101;
     world := after_polls 1 |}.
Definition st2 : LoopState :=
  {| signature := sig2; sigPartLength := 6; currentAddress := 4102;
     world := after_polls 2 |}.
Definition st3 : LoopState :=
  {| signature := sig3; sigPartLength := 7; currentAddress := 4103;
     world := after_polls 3 |}.

(** The ranking of the xrefs to 0x3000 and the world it leaves. *)
Definition ranked : list (ea_t * Signature) :=
  [(4102, [lit 195]); (4101, [lit 144; lit 195]); (4096, sig2)].
Definition after_ranking : World :=
  {| polls := 6; prompts := 0;
     output := [wait_box_xref 1 4; wait_box_xref 3 4;
                wait_box_xref 4 4; wait_box_xref 5 4] |}.
End Demo.

(** ** Notions for statements about whole runs *)

(** An operand the metapc loop of [GetOperand] passes over. *)
Definition skipped_by_default (op : op_t) : Prop :=
  type op = o_void \/ offb op = 0.

(** The values of the [n] image bytes from [address] on. *)
Definition image_values (db : IDA) (address : ea_t) (n : nat) : list Z :=
  map (fun i => get_byte db (wrap64 (address + Z.of_nat i))) (seq 0 n).

(** An instruction as the disassembler fills it in: the size is the
    length [decode_insn] returned, it fits a byte, and the operand
    offsets lie within the instruction. *)
Definition insn_well_formed (currentInstructionLength : Z)
    (instruction : insn_t) : Prop :=
  size instruction = currentInstructionLength /\
  currentInstructionLength < 256 /\
  Forall (fun op => 0 <= offb op <= currentInstructionLength)
         (ops instruction).

Definition decoder_well_formed (db : IDA) : Prop :=
  forall ea,
    0 < fst (decode_insn db ea) ->
    insn_well_formed (fst (decode_insn db ea)) (snd (decode_insn db ea)).


(** A forward [bin_search2] as the SDK describes it: the lowest address
    in the range given at which the pattern matches, [BADADDR] when there
    is none; [hit] tells at which addresses the pattern matches. *)
Definition finds_first (db : IDA) (pattern : string) (hit : ea_t -> Prop)
    : Prop :=
  forall ea max,
    (bin_search2 db ea max pattern = BADADDR /\
     forall a, ea <= a < max -> ~ hit a) \/
    (ea <= bin_search2 db ea max pattern < max /\
     hit (bin_search2 db ea max pattern) /\
     forall a, ea <= a < bin_search2 db ea max pattern -> ~ hit a).


(** The events that are prompts. *)
Definition is_prompt (e : Event) : bool :=
  match e with prompt_continue _ => true | _ => false end.

(** A signature entry that is a literal byte. *)
Definition is_literal (b : SignatureByte) : bool := negb (isWildcard b).


(** A signature that holds the image bytes from [start] on, in address
    order, with the cursor behind its last byte. *)
Definition transcribes (db : IDA) (start : ea_t) (sig : Signature)
    (cur : ea_t) : Prop :=
  map value sig = image_values db start (List.length sig) /\
  wrap64 cur = wrap64 (start + Z.of_nat (List.length sig)).

(** A signature that is empty or starts with the byte at [start] as a
    literal. *)
Definition starts_literal (db : IDA) (start : ea_t) (sig : Signature)
    : Prop :=
  sig = [] \/
  exists rest,
    sig = {| value := get_byte db (wrap64 start); isWildcard := false |}
          :: rest.


(** Between the worlds [w] and [w'] the user was not prompted: the count
    of prompts is the same and what was written since holds no prompt. *)
Definition no_prompt_since (w w' : World) : Prop :=
  prompts w' = prompts w /\
  exists added,
    output w' = output w ++ added /\
    Forall (fun e => is_prompt e = false) added.


(** ** Texts a search is given *)

(** The bytes of a signature as text: two uppercase hex digits for a
    literal, [wild] for a wildcard, single spaces in between.  With one
    question mark for [wild] this is the IDA style, with two the x64Dbg
    style. *)
Definition token_text (wild : string) (sig : Signature) : string :=
  String.concat " "
    (map (fun b => if isWildcard b then wild else hex_byte (value b)) sig).

(** The digits of a bitmask, most significant first, and the characters
    of a string mask: a set bit and an [x] stand for a literal. *)
Definition bit_text (bits : list bool) : string :=
  string_of_list_ascii (map (fun b : bool => if b then "1" else "0")%char bits).

Definition mask_text (bits : list bool) : string :=
  string_of_list_ascii (map (fun b : bool => if b then "x" else "?")%char bits).


(** A text all of whose characters satisfy [p]. *)
Fixpoint string_forall (p : ascii -> bool) (s : string) : bool :=
  match s with
  | EmptyString => true
  | String c s' => p c && string_forall p s'
  end.

(** The characters of [set]. *)
Definition in_set (set : string) (c : ascii) : bool :=
  existsb (Ascii.eqb c) (list_ascii_of_string set).

(** The tokens of a signature, each followed by one space. *)
Fixpoint cells (wild : string) (sig : Signature) : string :=
  match sig with
  | [] => EmptyString
  | b :: rest =>
      ((if isWildcard b then wild else hex_byte (value b))
       ++ String " " (cells wild rest))%string
  end.

(** One token of [rx_ida], and the state of the match after a token and
    its space. *)
Definition rx_ida_token : regex :=
  Or (Cat upper_hex (Cat upper_hex (Plus space))) (Cat (chr "?") (Plus space)).

Definition rx_ida_next : regex := Cat (Star space) (Star rx_ida_token).


(** A database whose user has pressed cancel for good. *)
Definition always_cancelled (db : IDA) : IDA :=
  {| inf_min_ea := inf_min_ea db;
     inf_max_ea := inf_max_ea db;
     get_byte := get_byte db;
     is_code := is_code db;
     decode_insn := decode_insn db;
     get_func := get_func db;
     bin_search2 := bin_search2 db;
     xrefs_to := xrefs_to db;
     user_cancelled := fun _ => true;
     ask_yn := ask_yn db |}.

(** The lines "XREF Signature #i @ origin: text" among the events, as
    number, origin and text. *)
Definition xref_lines (events : list Event) : list (nat * ea_t * string) :=
  flat_map (fun e => match e with
                     | msg_xref_signature i origin text => [(i, origin, text)]
                     | _ => []
                     end) events.


(** ** What a ranking shows and writes *)

(** The progress boxes of a ranking: one for each origin that is code,
    with the position of the origin among all the origins, counted from
    1 after [first], and [total] as the number of origins to process. *)
Definition progress_boxes (db : IDA) (origins : list ea_t) (first : nat)
    (total : Z) : list Event :=
  map (fun p => wait_box_xref (wrap64 (Z.of_nat (fst p) + 1)) total)
      (filter (fun p => is_code db (snd p))
              (combine (seq first (List.length origins)) origins)).




(** The origins for which the growing builder gets as far as its loop. *)
Definition enters_loop (db : IDA) (from : ea_t) : bool :=
  is_code db from && negb (from =? BADADDR).

(** * Properties *)

Unset Implicit Arguments.

(** ** Loops *)

Section LoopFacts.
Variable body : LoopState -> Outcome.

Lemma run_loop_iterate (n fuel : nat) (st st' : LoopState) :
  iterate body n st = Some st' ->
  run_loop body (n + fuel) st = run_loop body fuel st'.
Proof.
  revert st; induction n as [|n IH]; intros st H; simpl in *.
  - now inversion H.
  - destruct (body st) as [r w|st1|]; try discriminate.
    now apply IH.
Qed.

Lemma run_loop_returns (n fuel : nat) (st st' : LoopState) r w :
  iterate body n st = Some st' ->
  body st' = Return r w ->
  (n < fuel)%nat ->
  run_loop body fuel st = Some (r, w).
Proof.
  intros Hit Hb Hlt.
  replace fuel with (n + S (fuel - S n))%nat by lia.
  rewrite (run_loop_iterate _ _ _ _ Hit); simpl; now rewrite Hb.
Qed.

Lemma run_loop_inv (fuel : nat) (st : LoopState) r w :
  run_loop body fuel st = Some (r, w) ->
  exists n st', (n < fuel)%nat /\ iterate body n st = Some st' /\
                body st' = Return r w.
Proof.
  revert st; induction fuel as [|fuel IH]; intros st H; simpl in H.
  - discriminate.
  - destruct (body st) as [r0 w0|st1|] eqn:E; try discriminate.
    + inversion H; subst. exists O, st. repeat split; [lia|assumption].
    + destruct (IH _ H) as (n & st' & Hlt & Hit & Hb).
      exists (S n), st'. repeat split; [lia| |assumption].
      simpl; now rewrite E.
Qed.

Lemma iterate_split (k n : nat) (st st' : LoopState) :
  iterate body (k + n) st = Some st' ->
  exists stk, iterate body k st = Some stk /\ iterate body n stk = Some st'.
Proof.
  revert st; induction k as [|k IH]; intros st H; simpl in *.
  - now exists st.
  - destruct (body st); try discriminate. now apply IH.
Qed.

Lemma iterate_step (k : nat) (st stk : LoopState) :
  iterate body k st = Some stk ->
  iterate body (S k) st =
    match body stk with Continue st' => Some st' | _ => None end.
Proof.
  revert st; induction k as [|k IH]; intros st H.
  - simpl in H; inversion H; subst. simpl. now destruct (body stk).
  - simpl in H. change (iterate body (S (S k)) st)
      with (match body st with
            | Continue st' => iterate body (S k) st' | _ => None end).
    destruct (body st); try discriminate. now apply IH.
Qed.
End LoopFacts.

(** ** The matcher comes back

    When [bin_search2] keeps its contract (it answers [BADADDR] or an
    address in the range it was given) one call per address of the image,
    and one more, is enough for [FindSignatureOccurences]. *)



(** ** Operand policy *)

Lemma GetOperandOffsetARM_ops_none sz l o n :
  Forall (fun op => arm_wildcard_type (type op) = false) l ->
  GetOperandOffsetARM_ops sz l o n = (false, o, n).
Proof.
  induction 1 as [|op l H _ IH]; simpl; [reflexivity|].
  now rewrite H.
Qed.

Lemma GetOperandOffsetARM_ops_first sz pre op post o n :
  Forall (fun op => arm_wildcard_type (type op) = false) pre ->
  arm_wildcard_type (type op) = true ->
  GetOperandOffsetARM_ops sz (pre ++ op :: post) o n =
    (true, wrap8 (offb op),
     if sz =? 8 then 7 else if sz =? 4 then 3 else n).
Proof.
  induction 1 as [|q pre H _ IH]; intros Hop; simpl.
  - rewrite Hop. now destruct (sz =? 8).
  - rewrite H. now apply IH.
Qed.

Lemma GetOperandOffsetARM_ops_found sz l o n o' n' :
  GetOperandOffsetARM_ops sz l o n = (true, o', n') ->
  exists pre op post,
    l = pre ++ op :: post /\
    Forall (fun op => arm_wildcard_type (type op) = false) pre /\
    arm_wildcard_type (type op) = true.
Proof.
  induction l as [|q l IH]; simpl; intros H; [discriminate|].
  destruct (arm_wildcard_type (type q)) eqn:E.
  - exists [], q, l. repeat split; [constructor|assumption].
  - destruct (IH H) as (pre & op & post & -> & Hpre & Hop).
    exists (q :: pre), op, post. repeat split; [constructor|]; assumption.
Qed.

(** C4. Under the ARM policy only operands of memory, immediate or
    branch-target type are taken, register and other operands are passed
    over; the offset is the operand's [offb]; the length is 3 for an
    instruction of 4 bytes and 7 for one of 8 bytes.  For any other
    instruction length no length is stored, the builders find it still at
    its initial 0, and no operand is masked. *)
Theorem arm_policy (instruction : insn_t) :
  (* what is masked comes from the first operand of a qualifying type *)
  (forall operandOffset operandLength,
      maskable_operand true true instruction
        = Some (operandOffset, operandLength) ->
      exists pre op post,
        ops instruction = pre ++ op :: post /\
        Forall (fun op => arm_wildcard_type (type op) = false) pre /\
        In (type op) [o_mem; o_far; o_near; o_phrase; o_displ; o_imm] /\
        operandOffset = wrap8 (offb op) /\
        ((size instruction = 4 /\ operandLength = 3) \/
         (size instruction = 8 /\ operandLength = 7))) /\
  (* and such an operand is masked with these lengths *)
  (forall pre op post,
      ops instruction = pre ++ op :: post ->
      Forall (fun op => arm_wildcard_type (type op) = false) pre ->
      In (type op) [o_mem; o_far; o_near; o_phrase; o_displ; o_imm] ->
      (size instruction = 4 ->
       maskable_operand true true instruction = Some (wrap8 (offb op), 3)) /\
      (size instruction = 8 ->
       maskable_operand true true instruction = Some (wrap8 (offb op), 7))) /\
  (* no operand of a qualifying type: the policy finds nothing *)
  (Forall (fun op => ~ In (type op)
                       [o_mem; o_far; o_near; o_phrase; o_displ; o_imm])
          (ops instruction) ->
   forall o n, GetOperandOffsetARM instruction o n = (false, o, n)) /\
  (* any other instruction length: no maskable operand *)
  (size instruction <> 4 -> size instruction <> 8 ->
   maskable_operand true true instruction = None).
Proof.
  assert (Hq : forall t, arm_wildcard_type t = true <->
                         In t [o_mem; o_far; o_near; o_phrase; o_displ; o_imm]).
  { intros t; split.
    - destruct t; simpl; intros H; try discriminate; tauto.
    - simpl; intros [<-|[<-|[<-|[<-|[<-|[<-|[]]]]]]]; reflexivity. }
  unfold maskable_operand, GetOperand, GetOperandOffsetARM.
  split; [|split; [|split]].
  - intros off len H.
    destruct (GetOperandOffsetARM_ops (size instruction) (ops instruction) 0 0)
      as [[found o] n] eqn:E.
    destruct found; simpl in H; [|discriminate].
    destruct (GetOperandOffsetARM_ops_found _ _ _ _ _ _ E)
      as (pre & op & post & Hl & Hpre & Hop).
    rewrite Hl, (GetOperandOffsetARM_ops_first _ _ _ _ 0 0 Hpre Hop) in E.
    inversion E; subst o n; clear E.
    exists pre, op, post. repeat split; try assumption.
    + now apply Hq.
    + destruct (size instruction =? 8) eqn:E8;
        [|destruct (size instruction =? 4) eqn:E4]; simpl in H;
        inversion H; reflexivity.
    + destruct (size instruction =? 8) eqn:E8;
        [|destruct (size instruction =? 4) eqn:E4]; simpl in H;
        try discriminate; inversion H; subst.
      * right; split; [now apply Z.eqb_eq|reflexivity].
      * left; split; [now apply Z.eqb_eq|reflexivity].
  - intros pre op post Hl Hpre Hop. apply Hq in Hop.
    split; intros Hsz; rewrite Hl,
      (GetOperandOffsetARM_ops_first _ _ _ _ 0 0 Hpre Hop), Hsz; reflexivity.
  - intros Hall o n. apply GetOperandOffsetARM_ops_none.
    eapply Forall_impl; [|exact Hall]. intros op Hn; simpl in Hn.
    destruct (arm_wildcard_type (type op)) eqn:E; [|reflexivity].
    exfalso; apply Hn. now apply Hq.
  - intros H4 H8.
    destruct (GetOperandOffsetARM_ops (size instruction) (ops instruction) 0 0)
      as [[found o] n] eqn:E.
    destruct found; [|reflexivity].
    destruct (GetOperandOffsetARM_ops_found _ _ _ _ _ _ E)
      as (pre & op & post & Hl & Hpre & Hop).
    rewrite Hl, (GetOperandOffsetARM_ops_first _ _ _ _ 0 0 Hpre Hop) in E.
    apply Z.eqb_neq in H4, H8. rewrite H4, H8 in E.
    inversion E; subst. reflexivity.
Qed.

(** ** The byte append rule *)

Lemma AddBytesToSignature_bytes db sig address from count wildcard :
  AddBytesToSignature db sig (wrap64 (address + from)) count wildcard =
  sig ++ instruction_bytes db address from (from + count) wildcard.
Proof.
  unfold AddBytesToSignature, instruction_bytes. f_equal.
  replace (from + count - from) with count by lia.
  apply map_ext; intros i. f_equal.
  unfold wrap64. now rewrite Z.add_mod_idemp_l by lia.
Qed.

Lemma AddBytesToSignature_start db sig address count wildcard :
  AddBytesToSignature db sig address count wildcard =
  sig ++ instruction_bytes db address 0 count wildcard.
Proof.
  unfold AddBytesToSignature, instruction_bytes. f_equal.
  replace (count - 0) with count by lia.
  apply map_ext; intros i. now rewrite Z.add_0_r.
Qed.

Lemma grow_body_appends db IS_ARM sf ea wo co maxlen ask f st st' :
  grow_body db IS_ARM sf ea wo co maxlen ask f st = Continue st' ->
  signature st' = grown db IS_ARM wo st.
Proof.
  unfold grow_body, grown, grow_rest. intros H.
  destruct (user_cancelled db (polls (world st))); [discriminate|].
  destruct (decode_insn db (currentAddress st)) as [len insn].
  destruct (len <=? 0); [destruct (signature st); discriminate|].
  destruct (length_check db ea maxlen ask (signature st) (sigPartLength st)
              (polled (world st))) as [[r w]|[spl w]]; [discriminate|].
  destruct (IsSignatureUnique db sf _) as [[|]|]; try discriminate.
  match type of H with (if ?c then _ else _) = _ => destruct c end;
    [discriminate|].
  now inversion H.
Qed.

Lemma range_body_appends db IS_ARM eaEnd wo st st' :
  range_body db IS_ARM eaEnd wo st = Continue st' ->
  signature st' = grown db IS_ARM wo st.
Proof.
  unfold range_body, grown. intros H.
  destruct (user_cancelled db (polls (world st))); [discriminate|].
  destruct (decode_insn db (currentAddress st)) as [len insn].
  destruct (len <=? 0); [destruct (signature st); discriminate|].
  match type of H with (if ?c then _ else _) = _ => destruct c end;
    [discriminate|].
  now inversion H.
Qed.

Lemma grow_body_pass db IS_ARM sf ea wo co maxlen ask f st spl w1 :
  user_cancelled db (polls (world st)) = false ->
  0 < fst (decode_insn db (currentAddress st)) ->
  length_check db ea maxlen ask (signature st) (sigPartLength st)
    (polled (world st)) = inr (spl, w1) ->
  match IsSignatureUnique db sf
          (BuildIDASignatureString (grown db IS_ARM wo st)) with
  | Some true =>
      grow_body db IS_ARM sf ea wo co maxlen ask f st
      = Return (has_value (TrimSignature (grown db IS_ARM wo st))) w1
  | Some false =>
      grow_body db IS_ARM sf ea wo co maxlen ask f st
      = Return (unexpected LeftFunctionScope) w1 \/
      exists st',
        grow_body db IS_ARM sf ea wo co maxlen ask f st = Continue st' /\
        signature st' = grown db IS_ARM wo st
  | None => grow_body db IS_ARM sf ea wo co maxlen ask f st = Hang
  end.
Proof.
  intros Hc Hlen Hcheck. unfold grow_body, grown, grow_rest.
  rewrite Hc.
  destruct (decode_insn db (currentAddress st)) as [len insn].
  simpl in Hlen.
  replace (len <=? 0) with false by (symmetry; apply Z.leb_gt; lia).
  rewrite Hcheck.
  destruct (IsSignatureUnique db sf _) as [[|]|]; try reflexivity.
  match goal with |- context [if ?c then _ else _] => destruct c end;
    [now left|right].
  eexists; split; reflexivity.
Qed.

Lemma grow_body_returns_grown db IS_ARM sf ea wo co maxlen ask f st sig w' :
  grow_body db IS_ARM sf ea wo co maxlen ask f st
    = Return (has_value sig) w' ->
  sig = TrimSignature (grown db IS_ARM wo st).
Proof.
  unfold grow_body, grown, grow_rest, length_check. intros H.
  destruct (user_cancelled db (polls (world st))); [discriminate|].
  destruct (decode_insn db (currentAddress st)) as [len insn].
  destruct (len <=? 0); [destruct (signature st); discriminate|].
  destruct (sigPartLength st >? maxlen).
  - destruct ask; [|discriminate].
    destruct (ask_yn db (prompts (polled (world st))) =? 1).
    + destruct (IsSignatureUnique db sf _) as [[|]|]; try discriminate.
      * now inversion H.
      * match type of H with (if ?c then _ else _) = _ => destruct c end;
          discriminate.
    + destruct (ask_yn db (prompts (polled (world st))) =? 0); discriminate.
  - destruct (IsSignatureUnique db sf _) as [[|]|]; try discriminate.
    + now inversion H.
    + match type of H with (if ?c then _ else _) = _ => destruct c end;
        discriminate.
Qed.

Lemma range_body_pass db IS_ARM eaEnd wo st :
  user_cancelled db (polls (world st)) = false ->
  0 < fst (decode_insn db (currentAddress st)) ->
  if wrap64 (currentAddress st + fst (decode_insn db (currentAddress st)))
     >=? eaEnd
  then range_body db IS_ARM eaEnd wo st
       = Return (has_value (TrimSignature (grown db IS_ARM wo st)))
                (polled (world st))
  else exists st',
         range_body db IS_ARM eaEnd wo st = Continue st' /\
         signature st' = grown db IS_ARM wo st.
Proof.
  intros Hc Hlen. unfold range_body, grown. rewrite Hc.
  destruct (decode_insn db (currentAddress st)) as [len insn].
  simpl in *.
  replace (len <=? 0) with false by (symmetry; apply Z.leb_gt; lia).
  destruct (wrap64 (currentAddress st + len) >=? eaEnd); [reflexivity|].
  eexists; split; reflexivity.
Qed.

(** C2. With operand wildcarding on and a maskable operand of positive
    length at [operandOffset], the builders append the bytes before the
    operand as literals, the operand's bytes as wildcards and, exactly
    when the offset is 0, the bytes from [operandLength] to the end of the
    instruction as literals.  Without such an operand (none found,
    wildcarding off, or length 0) the whole instruction is appended as
    literals.  Both builders do this for every instruction they decode:
    in a pass that is not cancelled, decodes its instruction and gets
    past the length check, the growing builder asks the matcher about
    the signature as appended here, returns it trimmed when it is
    unique, and otherwise leaves the function scope or hands it to the
    next pass; the range builder returns it trimmed in its last pass and
    hands it to the next pass in every other. *)
Theorem append_rule db IS_ARM (sig : Signature) (address : ea_t)
    (instruction : insn_t) (currentInstructionLength : Z)
    (wildcardOperands : bool) :
  (forall found operandOffset operandLength,
      GetOperand IS_ARM instruction 0 0
        = (found, operandOffset, operandLength) ->
      (wildcardOperands = true -> found = true -> 0 < operandLength ->
       append_instruction db IS_ARM sig address instruction
         currentInstructionLength wildcardOperands
       = sig
         ++ instruction_bytes db address 0 operandOffset false
         ++ instruction_bytes db address operandOffset
              (operandOffset + operandLength) true
         ++ (if operandOffset =? 0
             then instruction_bytes db address operandLength
                    currentInstructionLength false
             else [])) /\
      (wildcardOperands = false \/ found = false \/ operandLength = 0 ->
       append_instruction db IS_ARM sig address instruction
         currentInstructionLength wildcardOperands
       = sig ++ instruction_bytes db address 0
                  currentInstructionLength false)) /\
  (* the growing builder: every pass that reaches the append *)
  (forall sf ea co maxlen ask f st spl w1,
      user_cancelled db (polls (world st)) = false ->
      0 < fst (decode_insn db (currentAddress st)) ->
      length_check db ea maxlen ask (signature st) (sigPartLength st)
        (polled (world st)) = inr (spl, w1) ->
      match IsSignatureUnique db sf
              (BuildIDASignatureString (grown db IS_ARM wildcardOperands st))
      with
      | Some true =>
          grow_body db IS_ARM sf ea wildcardOperands co maxlen ask f st
          = Return (has_value
                      (TrimSignature (grown db IS_ARM wildcardOperands st)))
                   w1
      | Some false =>
          grow_body db IS_ARM sf ea wildcardOperands co maxlen ask f st
          = Return (unexpected LeftFunctionScope) w1 \/
          exists st',
            grow_body db IS_ARM sf ea wildcardOperands co maxlen ask f st
            = Continue st' /\
            signature st' = grown db IS_ARM wildcardOperands st
      | None =>
          grow_body db IS_ARM sf ea wildcardOperands co maxlen ask f st = Hang
      end) /\
  (* and whatever a pass hands on or returns is the signature appended *)
  (forall sf ea co maxlen ask f st,
      (forall st',
          grow_body db IS_ARM sf ea wildcardOperands co maxlen ask f st
            = Continue st' ->
          signature st' = grown db IS_ARM wildcardOperands st) /\
      (forall result w',
          grow_body db IS_ARM sf ea wildcardOperands co maxlen ask f st
            = Return (has_value result) w' ->
          result = TrimSignature (grown db IS_ARM wildcardOperands st))) /\
  (* the range builder: every pass that decodes its instruction *)
  (forall eaEnd st,
      user_cancelled db (polls (world st)) = false ->
      0 < fst (decode_insn db (currentAddress st)) ->
      if wrap64 (currentAddress st
                 + fst (decode_insn db (currentAddress st)))
         >=? eaEnd
      then range_body db IS_ARM eaEnd wildcardOperands st
           = Return (has_value
                       (TrimSignature (grown db IS_ARM wildcardOperands st)))
                    (polled (world st))
      else exists st',
             range_body db IS_ARM eaEnd wildcardOperands st = Continue st' /\
             signature st' = grown db IS_ARM wildcardOperands st) /\
  (forall eaEnd st st',
      range_body db IS_ARM eaEnd wildcardOperands st = Continue st' ->
      signature st' = grown db IS_ARM wildcardOperands st).
Proof.
  split; [|split; [|split; [|split]]].
  - intros found off len HG. unfold append_instruction, maskable_operand.
    rewrite HG. split.
    + intros -> -> Hlen.
      assert (E : (len >? 0) = true) by (apply Z.gtb_lt; lia).
      rewrite E; simpl.
      rewrite (AddBytesToSignature_start db sig address off false).
      rewrite !AddBytesToSignature_bytes.
      destruct (off =? 0) eqn:E0.
      * replace (len + (currentInstructionLength - len))
          with currentInstructionLength by lia.
        now rewrite <- !app_assoc.
      * now rewrite app_nil_r, <- !app_assoc.
    + intros H.
      assert (E : (wildcardOperands && found && (len >? 0)) = false).
      { destruct H as [ -> | [ -> | -> ] ]; [reflexivity| |].
        - now rewrite andb_false_r.
        - now rewrite andb_false_r. }
      rewrite E. apply AddBytesToSignature_start.
  - intros sf ea co maxlen ask f st spl w1 Hc Hlen Hcheck.
    exact (grow_body_pass db IS_ARM sf ea wildcardOperands co maxlen ask f
             st spl w1 Hc Hlen Hcheck).
  - intros; split; intros.
    + eapply grow_body_appends; eassumption.
    + eapply grow_body_returns_grown; eassumption.
  - intros; now apply range_body_pass.
  - intros; eapply range_body_appends; eassumption.
Qed.

(** ** The growing builder *)

Lemma length_check_fails db ea maxlen ask sig spl w r w' :
  length_check db ea maxlen ask sig spl w = inl (r, w') ->
  r = unexpected LengthExceeded \/ r = unexpected NotUnique \/
  r = unexpected Aborted.
Proof.
  unfold length_check.
  destruct (spl >? maxlen); [|discriminate].
  destruct ask.
  - destruct (ask_yn db (prompts w) =? 1); [discriminate|].
    destruct (ask_yn db (prompts w) =? 0); intros H; inversion H; auto.
  - intros H; inversion H; auto.
Qed.

Lemma IsSignatureUnique_true db sf s :
  IsSignatureUnique db sf s = Some true ->
  exists occurence, FindSignatureOccurences db sf s = Some [occurence].
Proof.
  unfold IsSignatureUnique.
  destruct (FindSignatureOccurences db sf s) as [[|a [|b l]]|];
    simpl; try discriminate.
  intros _. now exists a.
Qed.

Lemma IsSignatureUnique_false db sf s :
  IsSignatureUnique db sf s = Some false ->
  exists results, FindSignatureOccurences db sf s = Some results /\
                  List.length results <> 1%nat.
Proof.
  unfold IsSignatureUnique.
  destruct (FindSignatureOccurences db sf s) as [results|]; [|discriminate].
  intros H; inversion H as [E]. exists results; split; [reflexivity|].
  now apply Nat.eqb_neq.
Qed.

Section GrowFacts.
Variable db : IDA.
Variable IS_ARM : bool.
Variable sf : nat.
Variables (ea : ea_t) (wo co : bool) (maxlen : Z) (ask : bool).

Let body := grow_body db IS_ARM sf ea wo co maxlen ask (get_func db ea).

Lemma GenerateUnique_enters_loop fuel w :
  ea <> BADADDR -> is_code db ea = true ->
  GenerateUniqueSignatureForEA db IS_ARM sf fuel w ea wo co maxlen ask
  = run_loop body fuel (grow_init ea w).
Proof.
  intros Hea Hcode. unfold GenerateUniqueSignatureForEA.
  apply Z.eqb_neq in Hea. now rewrite Hea, Hcode.
Qed.

Lemma GenerateUnique_from_state fuel w n st r w' :
  ea <> BADADDR -> is_code db ea = true ->
  iterate body n (grow_init ea w) = Some st ->
  body st = Return r w' ->
  (n < fuel)%nat ->
  GenerateUniqueSignatureForEA db IS_ARM sf fuel w ea wo co maxlen ask
  = Some (r, w').
Proof.
  intros Hea Hcode Hit Hb Hlt.
  rewrite GenerateUnique_enters_loop by assumption.
  eapply run_loop_returns; eassumption.
Qed.

Lemma grow_body_success f st sig w' :
  grow_body db IS_ARM sf ea wo co maxlen ask f st
    = Return (has_value sig) w' ->
  IsSignatureUnique db sf (BuildIDASignatureString (grown db IS_ARM wo st))
    = Some true /\
  sig = TrimSignature (grown db IS_ARM wo st).
Proof.
  unfold grow_body, grown, grow_rest. intros H.
  destruct (user_cancelled db (polls (world st))); [discriminate|].
  destruct (decode_insn db (currentAddress st)) as [len insn].
  destruct (len <=? 0); [destruct (signature st); discriminate|].
  destruct (length_check db ea maxlen ask (signature st) (sigPartLength st)
              (polled (world st))) as [[r w]|[spl w]] eqn:E.
  - apply length_check_fails in E. inversion H; subst.
    destruct E as [E|[E|E]]; discriminate.
  - destruct (IsSignatureUnique db sf _) as [[|]|]; try discriminate.
    + inversion H; auto.
    + match type of H with (if ?c then _ else _) = _ => destruct c end;
        discriminate.
Qed.

Lemma grow_body_continue f st st' :
  grow_body db IS_ARM sf ea wo co maxlen ask f st = Continue st' ->
  IsSignatureUnique db sf (BuildIDASignatureString (grown db IS_ARM wo st))
    = Some false.
Proof.
  unfold grow_body, grown, grow_rest. intros H.
  destruct (user_cancelled db (polls (world st))); [discriminate|].
  destruct (decode_insn db (currentAddress st)) as [len insn].
  destruct (len <=? 0); [destruct (signature st); discriminate|].
  destruct (length_check db ea maxlen ask (signature st) (sigPartLength st)
              (polled (world st))) as [[r w]|[spl w]]; [discriminate|].
  destruct (IsSignatureUnique db sf _) as [[|]|]; try discriminate.
  reflexivity.
Qed.

(** C1. A success of the growing builder is returned at the first pass
    whose grown signature the matcher finds exactly once in the image:
    at every earlier pass the signature grown there was searched for in
    the whole image and the number of occurrences was not one, and that
    signature was handed on to the next pass. *)
Theorem success_at_first_unique fuel w sig w' :
  GenerateUniqueSignatureForEA db IS_ARM sf fuel w ea wo co maxlen ask
    = Some (has_value sig, w') ->
  exists n st,
    iterate body n (grow_init ea w) = Some st /\
    (exists occurence,
        FindSignatureOccurences db sf
          (BuildIDASignatureString (grown db IS_ARM wo st))
        = Some [occurence]) /\
    sig = TrimSignature (grown db IS_ARM wo st) /\
    forall k, (k < n)%nat ->
      exists stk stk' results,
        iterate body k (grow_init ea w) = Some stk /\
        FindSignatureOccurences db sf
          (BuildIDASignatureString (grown db IS_ARM wo stk))
        = Some results /\
        List.length results <> 1%nat /\
        iterate body (S k) (grow_init ea w) = Some stk' /\
        signature stk' = grown db IS_ARM wo stk.
Proof.
  subst body. unfold GenerateUniqueSignatureForEA. intros H.
  destruct (ea =? BADADDR); [discriminate|].
  destruct (negb (is_code db ea)); [discriminate|].
  apply run_loop_inv in H. destruct H as (n & st & _ & Hit & Hb).
  exists n, st. apply grow_body_success in Hb. destruct Hb as [Hu ->].
  repeat split; [assumption|now apply IsSignatureUnique_true|].
  intros k Hk.
  replace n with (k + S (n - S k))%nat in Hit by lia.
  apply iterate_split in Hit. destruct Hit as (stk & Hk1 & Hk2).
  simpl in Hk2.
  destruct (grow_body db IS_ARM sf ea wo co maxlen ask (get_func db ea) stk)
    as [|stk'|] eqn:E; try discriminate.
  pose proof (grow_body_continue _ _ _ E) as Hf.
  apply IsSignatureUnique_false in Hf. destruct Hf as (results & Hr & Hl).
  exists stk, stk', results. repeat split; try assumption.
  - rewrite (iterate_step _ _ _ _ Hk1). now rewrite E.
  - eapply grow_body_appends; exact E.
Qed.
End GrowFacts.

Section GrowErrors.
Variable db : IDA.
Variable IS_ARM : bool.
Variable sf : nat.
Variables (ea : ea_t) (wo co : bool) (maxlen : Z) (ask : bool).

Let body := grow_body db IS_ARM sf ea wo co maxlen ask (get_func db ea).

(** C3. At a pass that finds the counter of appended bytes above the
    maximum: without prompting the builder fails at once with
    LengthExceeded; with prompting, Yes resets the counter to 0 and the
    pass goes on from there, No writes the signature as it stands (the
    very length shown in the prompt, the instruction just decoded is not
    in it) as not unique and fails with NotUnique, and any other answer
    fails with Aborted. *)
Theorem overflow_handling w n st currentInstructionLength instruction :
  ea <> BADADDR -> is_code db ea = true ->
  iterate body n (grow_init ea w) = Some st ->
  user_cancelled db (polls (world st)) = false ->
  decode_insn db (currentAddress st)
    = (currentInstructionLength, instruction) ->
  0 < currentInstructionLength ->
  maxlen < sigPartLength st ->
  let asked :=
    {| polls := S (polls (world st));
       prompts := S (prompts (world st));
       output := output (world st)
                 ++ [prompt_continue (List.length (signature st))] |} in
  (ask = false ->
   forall fuel, (n < fuel)%nat ->
     GenerateUniqueSignatureForEA db IS_ARM sf fuel w ea wo co maxlen ask
     = Some (unexpected LengthExceeded, polled (world st))) /\
  (ask = true -> ask_yn db (prompts (world st)) = 1 ->
   length_check db ea maxlen ask (signature st) (sigPartLength st)
     (polled (world st)) = inr (0, asked) /\
   body st = grow_rest db IS_ARM sf wo co (get_func db ea) st instruction
               currentInstructionLength 0 asked) /\
  (ask = true -> ask_yn db (prompts (world st)) = 0 ->
   forall fuel, (n < fuel)%nat ->
     GenerateUniqueSignatureForEA db IS_ARM sf fuel w ea wo co maxlen ask
     = Some (unexpected NotUnique,
             {| polls := S (polls (world st));
                prompts := S (prompts (world st));
                output := output (world st)
                  ++ [prompt_continue (List.length (signature st));
                      msg_not_unique ea
                        (BuildIDASignatureString (signature st))] |})) /\
  (ask = true -> ask_yn db (prompts (world st)) <> 1 ->
   ask_yn db (prompts (world st)) <> 0 ->
   forall fuel, (n < fuel)%nat ->
     GenerateUniqueSignatureForEA db IS_ARM sf fuel w ea wo co maxlen ask
     = Some (unexpected Aborted, asked)).
Proof.
  intros Hea Hcode Hit Hcancel Hdec Hlen Hover asked.
  assert (Hgt : (sigPartLength st >? maxlen) = true) by (apply Z.gtb_lt; lia).
  assert (Hle : (currentInstructionLength <=? 0) = false)
    by (apply Z.leb_gt; lia).
  assert (Hb : body st =
    match length_check db ea maxlen ask (signature st) (sigPartLength st)
            (polled (world st)) with
    | inl (r, w) => Return r w
    | inr (sigPartLength, w) =>
        grow_rest db IS_ARM sf wo co (get_func db ea) st instruction
          currentInstructionLength sigPartLength w
    end).
  { subst body. unfold grow_body. now rewrite Hcancel, Hdec, Hle. }
  split; [|split; [|split]].
  - intros -> fuel Hfuel.
    unfold length_check in Hb. rewrite Hgt in Hb.
    eapply GenerateUnique_from_state; eassumption.
  - intros Hask Hyes.
    assert (Hc : length_check db ea maxlen ask (signature st)
                   (sigPartLength st) (polled (world st)) = inr (0, asked)).
    { unfold length_check. rewrite Hgt, Hask.
      change (prompts (polled (world st))) with (prompts (world st)).
      rewrite Hyes. reflexivity. }
    split; [exact Hc|]. now rewrite Hb, Hc.
  - intros Hask Hno fuel Hfuel.
    unfold length_check in Hb. rewrite Hgt, Hask in Hb.
    change (prompts (polled (world st))) with (prompts (world st)) in Hb.
    rewrite Hno in Hb. simpl in Hb.
    unfold emit, prompted, polled in Hb; simpl in Hb.
    rewrite <- app_assoc in Hb; simpl in Hb.
    eapply GenerateUnique_from_state; eassumption.
  - intros Hask H1 H0 fuel Hfuel.
    unfold length_check in Hb. rewrite Hgt, Hask in Hb.
    change (prompts (polled (world st))) with (prompts (world st)) in Hb.
    apply Z.eqb_neq in H0, H1. rewrite H0, H1 in Hb.
    eapply GenerateUnique_from_state; eassumption.
Qed.

(** C9. When the instruction at the cursor does not decode, the builder
    fails with DecodeFailed if the signature is still empty; otherwise it
    writes the end-of-code notice and the current signature as not
    unique, and fails with NotUnique. *)
Theorem decode_failure w n st currentInstructionLength instruction :
  ea <> BADADDR -> is_code db ea = true ->
  iterate body n (grow_init ea w) = Some st ->
  user_cancelled db (polls (world st)) = false ->
  decode_insn db (currentAddress st)
    = (currentInstructionLength, instruction) ->
  currentInstructionLength <= 0 ->
  forall fuel, (n < fuel)%nat ->
    (signature st = [] ->
     GenerateUniqueSignatureForEA db IS_ARM sf fuel w ea wo co maxlen ask
     = Some (unexpected DecodeFailed, polled (world st))) /\
    (signature st <> [] ->
     GenerateUniqueSignatureForEA db IS_ARM sf fuel w ea wo co maxlen ask
     = Some (unexpected NotUnique,
             {| polls := S (polls (world st));
                prompts := prompts (world st);
                output := output (world st)
                  ++ [msg_reached_end (currentAddress st);
                      msg_not_unique ea
                        (BuildIDASignatureString (signature st))] |})).
Proof.
  intros Hea Hcode Hit Hcancel Hdec Hlen fuel Hfuel.
  assert (Hle : (currentInstructionLength <=? 0) = true)
    by (apply Z.leb_le; lia).
  split; intros Hsig;
    eapply GenerateUnique_from_state; try eassumption;
    subst body; unfold grow_body; rewrite Hcancel, Hdec, Hle.
  - now rewrite Hsig.
  - destruct (signature st) as [|b l]; [congruence|].
    unfold emit, polled; simpl. now rewrite <- app_assoc.
Qed.

Lemma grow_body_scope st w' :
  get_func db ea = None ->
  body st <> Return (unexpected LeftFunctionScope) w'.
Proof.
  intros Hf H. subst body. unfold grow_body, grow_rest in H.
  rewrite Hf in H.
  destruct (user_cancelled db (polls (world st))); [discriminate|].
  destruct (decode_insn db (currentAddress st)) as [len insn].
  destruct (len <=? 0); [destruct (signature st); discriminate|].
  destruct (length_check db ea maxlen ask (signature st) (sigPartLength st)
              (polled (world st))) as [[r w]|[spl w]] eqn:E.
  - apply length_check_fails in E. inversion H; subst.
    destruct E as [E|[E|E]]; inversion E.
  - destruct (IsSignatureUnique db sf _) as [[|]|]; try discriminate.
    rewrite andb_false_r in H. discriminate.
Qed.

(** C10. When the anchor has no enclosing function the builder never
    fails with LeftFunctionScope, whatever [continueOutsideOfFunction]
    is.  And a pass whose grown signature is unique returns it as a
    success before the function of the following address is looked at:
    no condition on [get_func] is needed, so this holds at the last
    instruction inside the function too.  Only a pass whose signature is
    not unique goes on to fail with LeftFunctionScope when the following
    address lies outside the anchor's function. *)
Theorem function_scope w :
  (get_func db ea = None ->
   forall fuel w',
     GenerateUniqueSignatureForEA db IS_ARM sf fuel w ea wo co maxlen ask
     <> Some (unexpected LeftFunctionScope, w')) /\
  (forall n st currentInstructionLength instruction,
      ea <> BADADDR -> is_code db ea = true ->
      iterate body n (grow_init ea w) = Some st ->
      user_cancelled db (polls (world st)) = false ->
      decode_insn db (currentAddress st)
        = (currentInstructionLength, instruction) ->
      0 < currentInstructionLength ->
      sigPartLength st <= maxlen ->
      IsSignatureUnique db sf
        (BuildIDASignatureString (grown db IS_ARM wo st)) = Some true ->
      forall fuel, (n < fuel)%nat ->
        GenerateUniqueSignatureForEA db IS_ARM sf fuel w ea wo co maxlen ask
        = Some (has_value (TrimSignature (grown db IS_ARM wo st)),
                polled (world st))) /\
  (forall n st currentInstructionLength instruction f,
      ea <> BADADDR -> is_code db ea = true ->
      iterate body n (grow_init ea w) = Some st ->
      user_cancelled db (polls (world st)) = false ->
      decode_insn db (currentAddress st)
        = (currentInstructionLength, instruction) ->
      0 < currentInstructionLength ->
      sigPartLength st <= maxlen ->
      IsSignatureUnique db sf
        (BuildIDASignatureString (grown db IS_ARM wo st)) = Some false ->
      co = false ->
      get_func db ea = Some f ->
      get_func db (wrap64 (currentAddress st + currentInstructionLength))
        <> Some f ->
      forall fuel, (n < fuel)%nat ->
        GenerateUniqueSignatureForEA db IS_ARM sf fuel w ea wo co maxlen ask
        = Some (unexpected LeftFunctionScope, polled (world st))).
Proof.
  split; [|split].
  - intros Hf fuel w' H. unfold GenerateUniqueSignatureForEA in H.
    destruct (ea =? BADADDR); [discriminate|].
    destruct (negb (is_code db ea)); [discriminate|].
    apply run_loop_inv in H. destruct H as (n & st & _ & _ & Hb).
    exact (grow_body_scope _ _ Hf Hb).
  - intros n st len insn Hea Hcode Hit Hcancel Hdec Hlen Hmax Hu fuel Hfuel.
    eapply GenerateUnique_from_state; try eassumption.
    subst body. unfold grow_body, grow_rest, length_check.
    unfold grown in Hu. rewrite Hdec in Hu.
    assert (Hle : (len <=? 0) = false) by (apply Z.leb_gt; lia).
    assert (Hgt : (sigPartLength st >? maxlen) = false).
    { rewrite Z.gtb_ltb. apply Z.ltb_ge. lia. }
    rewrite Hcancel, Hdec, Hle, Hgt, Hu. unfold grown. now rewrite Hdec.
  - intros n st len insn f Hea Hcode Hit Hcancel Hdec Hlen Hmax Hu Hco Hf
      Hleft fuel Hfuel.
    eapply GenerateUnique_from_state; try eassumption.
    subst body. unfold grow_body, grow_rest, length_check.
    unfold grown in Hu. rewrite Hdec in Hu.
    assert (Hle : (len <=? 0) = false) by (apply Z.leb_gt; lia).
    assert (Hgt : (sigPartLength st >? maxlen) = false).
    { rewrite Z.gtb_ltb. apply Z.ltb_ge. lia. }
    rewrite Hcancel, Hdec, Hle, Hgt, Hu, Hco, Hf. simpl.
    destruct (get_func db (wrap64 (currentAddress st + len))) as [g|];
      simpl; [|reflexivity].
    destruct (g =? f) eqn:E; [|reflexivity].
    apply Z.eqb_eq in E; subst g. now elim Hleft.
Qed.
End GrowErrors.

(** ** Trimming *)

Lemma drop_while_head {A : Type} (p : A -> bool) (l : list A) x rest :
  drop_while p l = x :: rest -> p x = false.
Proof.
  induction l as [|y l IH]; simpl; [discriminate|].
  destruct (p y) eqn:E; [exact IH|].
  intros H; inversion H; subst; assumption.
Qed.

Lemma drop_while_keep {A : Type} (p : A -> bool) (x : A) (l : list A) :
  p x = false -> drop_while p (x :: l) = x :: l.
Proof. intros H; simpl; now rewrite H. Qed.

Lemma TrimSignature_no_trailing_wildcard (s : Signature) :
  no_trailing_wildcard (TrimSignature s).
Proof.
  intros front b H. unfold TrimSignature in H.
  apply (f_equal (@rev _)) in H. rewrite rev_involutive, rev_app_distr in H.
  simpl in H. eapply drop_while_head; exact H.
Qed.

Lemma TrimSignature_fixed (s : Signature) :
  no_trailing_wildcard s -> TrimSignature s = s.
Proof.
  intros H. unfold TrimSignature.
  destruct (rev s) as [|b r] eqn:E.
  - simpl. apply (f_equal (@rev _)) in E. now rewrite rev_involutive in E.
  - assert (Hs : s = rev r ++ [b]).
    { apply (f_equal (@rev _)) in E. now rewrite rev_involutive in E. }
    rewrite (drop_while_keep _ _ _ (H _ _ Hs)). now rewrite <- E, rev_involutive.
Qed.

Lemma literal_bytes_no_trailing_wildcard db address count :
  no_trailing_wildcard (AddBytesToSignature db [] address count false).
Proof.
  intros front b H. unfold AddBytesToSignature in H. simpl in H.
  assert (Hin : In b (front ++ [b])) by (apply in_or_app; right; now left).
  rewrite <- H in Hin. apply in_map_iff in Hin.
  destruct Hin as (i & <- & _). reflexivity.
Qed.

Lemma range_body_success db IS_ARM eaEnd wo st sig w' :
  range_body db IS_ARM eaEnd wo st = Return (has_value sig) w' ->
  exists raw, sig = TrimSignature raw.
Proof.
  unfold range_body. intros H.
  destruct (user_cancelled db (polls (world st))); [discriminate|].
  destruct (decode_insn db (currentAddress st)) as [len insn].
  destruct (len <=? 0).
  - destruct (signature st); [discriminate|].
    inversion H. eexists; reflexivity.
  - match type of H with (if ?c then _ else _) = _ => destruct c end;
      [|discriminate].
    inversion H. eexists; reflexivity.
Qed.

(** C8. A signature that either builder returns as a success has no
    trailing wildcard: it is the result of the trim, or, for a range that
    starts on data, a run of literal bytes; trimming it again changes
    nothing. *)
Theorem success_is_trimmed db IS_ARM :
  (forall sf fuel w ea wo co maxlen ask sig w',
      GenerateUniqueSignatureForEA db IS_ARM sf fuel w ea wo co maxlen ask
        = Some (has_value sig, w') ->
      no_trailing_wildcard sig /\ TrimSignature sig = sig) /\
  (forall fuel w eaStart eaEnd wo sig w',
      GenerateSignatureForEARange db IS_ARM fuel w eaStart eaEnd wo
        = Some (has_value sig, w') ->
      no_trailing_wildcard sig /\ TrimSignature sig = sig).
Proof.
  split.
  - intros sf fuel w ea wo co maxlen ask sig w' H.
    unfold GenerateUniqueSignatureForEA in H.
    destruct (ea =? BADADDR); [discriminate|].
    destruct (negb (is_code db ea)); [discriminate|].
    apply run_loop_inv in H. destruct H as (n & st & _ & _ & Hb).
    apply grow_body_success in Hb. destruct Hb as [_ ->].
    split; [apply TrimSignature_no_trailing_wildcard|].
    apply TrimSignature_fixed, TrimSignature_no_trailing_wildcard.
  - intros fuel w eaStart eaEnd wo sig w' H.
    assert (Hn : no_trailing_wildcard sig).
    { unfold GenerateSignatureForEARange in H.
      destruct ((eaStart =? BADADDR) || (eaEnd =? BADADDR)); [discriminate|].
      destruct (negb (is_code db eaStart)).
      - inversion H. apply literal_bytes_no_trailing_wildcard.
      - apply run_loop_inv in H. destruct H as (n & st & _ & _ & Hb).
        apply range_body_success in Hb. destruct Hb as [raw ->].
        apply TrimSignature_no_trailing_wildcard. }
    split; [exact Hn|now apply TrimSignature_fixed].
Qed.

(** ** The range builder and the address sentinel *)

Lemma range_body_not_invalid db IS_ARM eaEnd wo st w' :
  range_body db IS_ARM eaEnd wo st <> Return (unexpected InvalidAddress) w'.
Proof.
  unfold range_body. intros H.
  destruct (user_cancelled db (polls (world st))); [discriminate|].
  destruct (decode_insn db (currentAddress st)) as [len insn].
  destruct (len <=? 0).
  - destruct (signature st); discriminate.
  - match type of H with (if ?c then _ else _) = _ => destruct c end;
      discriminate.
Qed.

(** C6, as the code has it.  The range builder fails with InvalidAddress
    exactly when the start or the end is [BADADDR]; equal bounds are not
    looked at. *)
Theorem range_invalid_address db IS_ARM fuel w eaStart eaEnd wo :
  (eaStart = BADADDR \/ eaEnd = BADADDR ->
   GenerateSignatureForEARange db IS_ARM fuel w eaStart eaEnd wo
   = Some (unexpected InvalidAddress, w)) /\
  (eaStart <> BADADDR -> eaEnd <> BADADDR ->
   forall w',
     GenerateSignatureForEARange db IS_ARM fuel w eaStart eaEnd wo
     <> Some (unexpected InvalidAddress, w')).
Proof.
  unfold GenerateSignatureForEARange. split.
  - intros [->| ->]; [reflexivity|].
    now rewrite Z.eqb_refl, orb_true_r.
  - intros Hs He w' H. apply Z.eqb_neq in Hs, He. rewrite Hs, He in H.
    simpl in H. destruct (negb (is_code db eaStart)); [discriminate|].
    apply run_loop_inv in H. destruct H as (n & st & _ & _ & Hb).
    exact (range_body_not_invalid _ _ _ _ _ _ Hb).
Qed.

(** ** Cross-reference ranking *)

Lemma insert_by_size_perm p l : Permutation (insert_by_size p l) (p :: l).
Proof.
  induction l as [|q l IH]; simpl; [reflexivity|].
  destruct (Nat.ltb (sig_size q) (sig_size p)); [|reflexivity].
  rewrite IH. apply perm_swap.
Qed.

Lemma sort_by_size_perm l : Permutation (sort_by_size l) l.
Proof.
  induction l as [|p l IH]; simpl; [reflexivity|].
  rewrite insert_by_size_perm. now apply perm_skip.
Qed.




Section XRefFacts.
Variable db : IDA.
Variable IS_ARM : bool.
Variables (sf fuel : nat).
Variables (wo co : bool) (cap : Z).

Lemma FindXRefs_loop_outcomes origins :
  forall i xrefCount acc w res w',
    FindXRefs_loop db IS_ARM sf fuel origins i xrefCount wo co cap acc w
      = Some (res, w') ->
    exists outcomes,
      map fst outcomes = filter (is_code db) origins /\
      Forall (builder_call db IS_ARM sf fuel wo co cap) outcomes /\
      res = acc ++ successes outcomes.
Proof.
  induction origins as [|from rest IH]; intros i cnt acc w res w' H;
    simpl in H.
  - inversion H; subst. exists []. simpl.
    repeat split; [constructor|now rewrite app_nil_r].
  - destruct (is_code db from) eqn:Hc; simpl in H.
    + destruct (GenerateUniqueSignatureForEA db IS_ARM sf fuel
                  (emit w (wait_box_xref (wrap64 (i + 1)) cnt))
                  from wo co cap false) as [[r w2]|] eqn:E; [|discriminate].
      destruct r as [signature|e];
        destruct (IH _ _ _ _ _ _ H) as (outs & Hm & Hf & ->).
      * exists ((from, has_value signature) :: outs). simpl.
        rewrite Hc, Hm. repeat split.
        -- constructor; [|exact Hf]. now exists (emit w (wait_box_xref (wrap64 (i + 1)) cnt)), w2.
        -- now rewrite <- app_assoc.
      * exists ((from, unexpected e) :: outs). simpl.
        rewrite Hc, Hm. repeat split.
        constructor; [|exact Hf]. now exists (emit w (wait_box_xref (wrap64 (i + 1)) cnt)), w2.
    + destruct (IH _ _ _ _ _ _ H) as (outs & Hm & Hf & ->).
      exists outs. simpl. rewrite Hc. now repeat split.
Qed.
End XRefFacts.


(** *** Every call of the builder comes back *)






(** *** What a ranking writes *)

Lemma wrap64_succ a : wrap64 (wrap64 a + 1) = wrap64 (a + 1).
Proof. unfold wrap64. now rewrite Z.add_mod_idemp_l by lia. Qed.

Lemma progress_boxes_cons db from rest k total :
  progress_boxes db (from :: rest) k total
  = (if is_code db from
     then [wait_box_xref (wrap64 (Z.of_nat k + 1)) total] else [])
    ++ progress_boxes db rest (S k) total.
Proof.
  unfold progress_boxes. simpl. now destruct (is_code db from).
Qed.








(** ** Parsing a bitmask *)

(** C5. The pattern for the bitmask takes commas along with the digits.
    A bitmask of four digits followed by a comma and four bytes yields a
    mask of five characters, so the text is refused; the same text without
    the comma is accepted; and a literal of one digit, a comma and a
    further digit is accepted with three bytes. *)
Theorem bitmask_takes_commas :
  detect_mask "0b1010, 0x00, 0x11, 0x22, 0x33" = "??x?x" /\
  convert_signature_string "0b1010, 0x00, 0x11, 0x22, 0x33" Demo.w0
    = (EmptyString, emit Demo.w0 (msg_detected_mask "??x?x")) /\
  SearchSignatureString Demo.db_never 8
    "0b1010, 0x00, 0x11, 0x22, 0x33" Demo.w0
    = Some {| polls := 0; prompts := 0;
              output := [msg_detected_mask "??x?x"; msg_unrecognized] |} /\
  convert_signature_string "0b1010 0x00, 0x11, 0x22, 0x33" Demo.w0
    = ("? 11 ? 33", Demo.w0) /\
  detect_mask "0b1,0 \x11\x22\x33" = "??x" /\
  convert_signature_string "0b1,0 \x11\x22\x33" Demo.w0
    = ("? ? 33", Demo.w0).
Proof. repeat split; vm_compute; reflexivity. Qed.

(** ** The statements at work on the small database *)

Lemma demo_anchor : 4096 <> BADADDR.
Proof. intros H; vm_compute in H; discriminate H. Qed.

Lemma demo_decoder_well_formed occ funcs answer :
  decoder_well_formed (Demo.db occ funcs answer).
Proof.
  intros ea. simpl. unfold Demo.decode.
  destruct (ea =? 4096); simpl.
  - intros _. repeat split; try lia. repeat constructor; simpl; lia.
  - destruct ((ea =? 4101) || (ea =? 4102)); simpl.
    + intros _. repeat split; try lia. constructor.
    + lia.
Qed.


Lemma arm_policy_witness :
  maskable_operand true true Demo.arm4 = Some (0, 3) /\
  maskable_operand true true Demo.arm8 = Some (0, 7) /\
  maskable_operand true true Demo.thumb2 = None /\
  GetOperandOffsetARM Demo.arm_regs 0 0 = (false, 0, 0).
Proof.
  split; [|split; [|split]].
  - apply (proj1 (proj2 (arm_policy Demo.arm4))
             [ {| type := o_reg; offb := 0 |} ] {| type := o_imm; offb := 0 |} []).
    + reflexivity.
    + repeat constructor.
    + simpl; tauto.
    + reflexivity.
  - apply (proj1 (proj2 (arm_policy Demo.arm8))
             [] {| type := o_mem; offb := 0 |} []).
    + reflexivity.
    + constructor.
    + simpl; tauto.
    + reflexivity.
  - apply (proj2 (proj2 (proj2 (arm_policy Demo.thumb2)))); discriminate.
  - apply (proj1 (proj2 (proj2 (arm_policy Demo.arm_regs)))).
    repeat constructor; simpl; intuition discriminate.
Defined.

Lemma append_rule_witness :
  append_instruction Demo.db_never false [] 4096 Demo.call_insn 5 true
    = Demo.sig1 /\
  append_instruction Demo.db_never false [] 4096 Demo.call_insn 5 false
    = [Demo.lit 232; Demo.lit 1; Demo.lit 2; Demo.lit 3; Demo.lit 4] /\
  append_instruction Demo.db_never true [] 4096 Demo.arm4 4 true
    = [Demo.wild 232; Demo.wild 1; Demo.wild 2; Demo.lit 3] /\
  (exists st',
      grow_body Demo.db_second false 8 4096 true false 1000 true (Some 1)
        (grow_init 4096 Demo.w0) = Continue st' /\
      signature st' = Demo.sig1) /\
  grow_body Demo.db_second false 8 4096 true false 1000 true (Some 1)
    Demo.st1
  = Return (has_value Demo.sig2) (Demo.after_polls 2) /\
  (exists st',
      range_body Demo.db_never false 4102 true (grow_init 4096 Demo.w0)
        = Continue st' /\
      signature st' = Demo.sig1) /\
  range_body Demo.db_never false 4102 true Demo.st1
  = Return (has_value Demo.sig2) (Demo.after_polls 2).
Proof.
  split; [|split; [|split; [|split; [|split; [|split]]]]].
  - rewrite (proj1 (proj1 (append_rule Demo.db_never false [] 4096
                             Demo.call_insn 5 true)
                      true 1 4 eq_refl) eq_refl eq_refl ltac:(lia)).
    reflexivity.
  - rewrite (proj2 (proj1 (append_rule Demo.db_never false [] 4096
                             Demo.call_insn 5 false)
                      true 1 4 eq_refl) (or_introl eq_refl)).
    reflexivity.
  - rewrite (proj1 (proj1 (append_rule Demo.db_never true [] 4096
                             Demo.arm4 4 true)
                      true 0 3 eq_refl) eq_refl eq_refl ltac:(lia)).
    reflexivity.
  - pose proof (proj1 (proj2 (append_rule Demo.db_second false [] 4096
                                Demo.call_insn 5 true))
                  8%nat 4096 false 1000 true (Some 1)
                  (grow_init 4096 Demo.w0) 0 (Demo.after_polls 1)
                  eq_refl ltac:(vm_compute; reflexivity) eq_refl) as H.
    vm_compute in H. destruct H as [H|H]; [discriminate H|exact H].
  - pose proof (proj1 (proj2 (append_rule Demo.db_second false [] 4096
                                Demo.call_insn 5 true))
                  8%nat 4096 false 1000 true (Some 1) Demo.st1 5
                  (Demo.after_polls 2)
                  eq_refl ltac:(vm_compute; reflexivity) eq_refl) as H.
    vm_compute in H. exact H.
  - pose proof (proj1 (proj2 (proj2 (proj2
                  (append_rule Demo.db_never false [] 4096
                     Demo.call_insn 5 true))))
                  4102 (grow_init 4096 Demo.w0)
                  eq_refl ltac:(vm_compute; reflexivity)) as H.
    vm_compute in H. exact H.
  - pose proof (proj1 (proj2 (proj2 (proj2
                  (append_rule Demo.db_never false [] 4096
                     Demo.call_insn 5 true))))
                  4102 Demo.st1
                  eq_refl ltac:(vm_compute; reflexivity)) as H.
    vm_compute in H. exact H.
Defined.

Lemma success_at_first_unique_witness :
  GenerateUniqueSignatureForEA Demo.db_second false 8 8 Demo.w0 4096
    true false 1000 true
  = Some (has_value Demo.sig2, Demo.after_polls 2) /\
  exists n st,
    iterate (grow_body Demo.db_second false 8 4096 true false 1000 true
               (get_func Demo.db_second 4096))
      n (grow_init 4096 Demo.w0) = Some st /\
    Demo.sig2 = TrimSignature (grown Demo.db_second false true st).
Proof.
  split; [reflexivity|].
  destruct (success_at_first_unique Demo.db_second false 8 4096 true false
              1000 true 8 Demo.w0 Demo.sig2 (Demo.after_polls 2) eq_refl)
    as (n & st & Hit & _ & Hsig & _).
  exists n, st. split; assumption.
Defined.

Lemma overflow_handling_witness :
  GenerateUniqueSignatureForEA Demo.db_never false 8 8 Demo.w0 4096
    true true 4 false
  = Some (unexpected LengthExceeded, Demo.after_polls 2) /\
  GenerateUniqueSignatureForEA Demo.db_never false 8 8 Demo.w0 4096
    true true 4 true
  = Some (unexpected NotUnique,
          {| polls := 2; prompts := 1;
             output := [prompt_continue 5;
                        msg_not_unique 4096 "E8 ? ? ? ?"] |}) /\
  GenerateUniqueSignatureForEA Demo.db_never_cancel false 8 8 Demo.w0 4096
    true true 4 true
  = Some (unexpected Aborted,
          {| polls := 2; prompts := 1; output := [prompt_continue 5] |}) /\
  grow_body Demo.db_never_yes false 8 4096 true true 4 true
    (get_func Demo.db_never_yes 4096) Demo.st1
  = Continue {| signature := Demo.sig2; sigPartLength := 1;
                currentAddress := 4102;
                world := {| polls := 2; prompts := 1;
                            output := [prompt_continue 5] |} |}.
Proof.
  split; [|split; [|split]].
  - apply (proj1 (overflow_handling Demo.db_never false 8 4096 true true 4
                    false Demo.w0 1 Demo.st1 1 Demo.plain_insn demo_anchor
                    eq_refl eq_refl eq_refl eq_refl ltac:(lia)
                    ltac:(simpl; lia))
             eq_refl 8%nat ltac:(lia)).
  - apply (proj1 (proj2 (proj2
             (overflow_handling Demo.db_never false 8 4096 true true 4 true
                Demo.w0 1 Demo.st1 1 Demo.plain_insn demo_anchor
                eq_refl eq_refl eq_refl eq_refl ltac:(lia)
                ltac:(simpl; lia))))
             eq_refl eq_refl 8%nat ltac:(lia)).
  - apply (proj2 (proj2 (proj2
             (overflow_handling Demo.db_never_cancel false 8 4096 true true 4
                true Demo.w0 1 Demo.st1 1 Demo.plain_insn demo_anchor
                eq_refl eq_refl eq_refl eq_refl ltac:(lia)
                ltac:(simpl; lia))))
             eq_refl ltac:(discriminate) ltac:(discriminate) 8%nat ltac:(lia)).
  - rewrite (proj2 (proj1 (proj2
               (overflow_handling Demo.db_never_yes false 8 4096 true true 4
                  true Demo.w0 1 Demo.st1 1 Demo.plain_insn demo_anchor
                  eq_refl eq_refl eq_refl eq_refl ltac:(lia)
                  ltac:(simpl; lia)))
               eq_refl eq_refl)).
    reflexivity.
Defined.

Lemma decode_failure_witness :
  GenerateUniqueSignatureForEA Demo.db_never false 8 8 Demo.w0 4112
    true true 1000 true
  = Some (unexpected DecodeFailed, Demo.after_polls 1) /\
  GenerateUniqueSignatureForEA Demo.db_never false 8 8 Demo.w0 4096
    true true 1000 true
  = Some (unexpected NotUnique,
          {| polls := 4; prompts := 0;
             output := [msg_reached_end 4103;
                        msg_not_unique 4096 "E8 ? ? ? ? 90 C3"] |}).
Proof.
  split.
  - apply (proj1 (decode_failure Demo.db_never false 8 4112 true true 1000
                    true Demo.w0 0 (grow_init 4112 Demo.w0) 0 Demo.no_insn
                    ltac:(intros H; vm_compute in H; discriminate H)
                    eq_refl eq_refl eq_refl eq_refl ltac:(lia)
                    8%nat ltac:(lia))
             eq_refl).
  - apply (proj2 (decode_failure Demo.db_never false 8 4096 true true 1000
                    true Demo.w0 3 Demo.st3 0 Demo.no_insn demo_anchor
                    eq_refl eq_refl eq_refl eq_refl ltac:(lia)
                    8%nat ltac:(lia))
             ltac:(discriminate)).
Defined.

Lemma function_scope_witness :
  GenerateUniqueSignatureForEA Demo.db_no_function false 8 8 Demo.w0 4096
    true false 1000 true
  <> Some (unexpected LeftFunctionScope, Demo.after_polls 3) /\
  get_func Demo.db_third 4103 = None /\
  GenerateUniqueSignatureForEA Demo.db_third false 8 8 Demo.w0 4096
    true false 1000 true
  = Some (has_value Demo.sig3, Demo.after_polls 3) /\
  GenerateUniqueSignatureForEA Demo.db_never false 8 8 Demo.w0 4096
    true false 1000 true
  = Some (unexpected LeftFunctionScope, Demo.after_polls 3).
Proof.
  split; [|split; [|split]].
  - apply (proj1 (function_scope Demo.db_no_function false 8 4096 true false
                    1000 true Demo.w0)
             eq_refl).
  - reflexivity.
  - apply (proj1 (proj2 (function_scope Demo.db_third false 8 4096 true false
                           1000 true Demo.w0))
             2%nat Demo.st2 1 Demo.plain_insn demo_anchor
             eq_refl eq_refl eq_refl eq_refl ltac:(lia) ltac:(simpl; lia)
             eq_refl 8%nat ltac:(lia)).
  - apply (proj2 (proj2 (function_scope Demo.db_never false 8 4096 true false
                           1000 true Demo.w0))
             2%nat Demo.st2 1 Demo.plain_insn 1 demo_anchor
             eq_refl eq_refl eq_refl eq_refl ltac:(lia) ltac:(simpl; lia)
             eq_refl eq_refl eq_refl ltac:(discriminate) 8%nat ltac:(lia)).
Defined.

Lemma success_is_trimmed_witness :
  GenerateUniqueSignatureForEA Demo.db_first false 8 8 Demo.w0 4096
    true false 1000 true
  = Some (has_value [Demo.lit 232], Demo.after_polls 1) /\
  GenerateSignatureForEARange Demo.db_first false 8 Demo.w0 4096 4101 true
  = Some (has_value [Demo.lit 232], Demo.after_polls 1) /\
  no_trailing_wildcard [Demo.lit 232] /\
  TrimSignature [Demo.lit 232] = [Demo.lit 232].
Proof.
  split; [reflexivity|]. split; [reflexivity|].
  split.
  - apply (proj1 (success_is_trimmed Demo.db_first false)
             8%nat 8%nat Demo.w0 4096 true false 1000 true
             [Demo.lit 232] (Demo.after_polls 1) eq_refl).
  - apply (proj2 (success_is_trimmed Demo.db_first false)
             8%nat Demo.w0 4096 4101 true
             [Demo.lit 232] (Demo.after_polls 1) eq_refl).
Defined.

Lemma range_invalid_address_witness :
  GenerateSignatureForEARange Demo.db_never false 8 Demo.w0 BADADDR 4101 true
  = Some (unexpected InvalidAddress, Demo.w0) /\
  GenerateSignatureForEARange Demo.db_never false 8 Demo.w0 4096 BADADDR true
  = Some (unexpected InvalidAddress, Demo.w0) /\
  GenerateSignatureForEARange Demo.db_never false 8 Demo.w0 4096 4101 true
  <> Some (unexpected InvalidAddress, Demo.after_polls 1).
Proof.
  split; [|split].
  - apply (proj1 (range_invalid_address Demo.db_never false 8 Demo.w0
                    BADADDR 4101 true)
             (or_introl eq_refl)).
  - apply (proj1 (range_invalid_address Demo.db_never false 8 Demo.w0
                    4096 BADADDR true)
             (or_intror eq_refl)).
  - apply (proj2 (range_invalid_address Demo.db_never false 8 Demo.w0
                    4096 4101 true)
             demo_anchor
             ltac:(intros H; vm_compute in H; discriminate H)).
Defined.

(** C6, as stated, fails: with equal bounds the range builder succeeds,
    with the empty signature on data and with the first instruction on
    code. *)
Lemma range_equal_bounds_accepted :
  GenerateSignatureForEARange Demo.db_never false 8 Demo.w0 20480 20480 true
  = Some (has_value [], Demo.w0) /\
  GenerateSignatureForEARange Demo.db_never false 8 Demo.w0 4096 4096 true
  = Some (has_value [Demo.lit 232], Demo.after_polls 1) /\
  ~ (forall fuel w eaStart eaEnd wo,
        eaStart = eaEnd \/ eaStart = BADADDR \/ eaEnd = BADADDR ->
        GenerateSignatureForEARange Demo.db_never false fuel w
          eaStart eaEnd wo
        = Some (unexpected InvalidAddress, w)).
Proof.
  split; [|split].
  - vm_compute; reflexivity.
  - vm_compute; reflexivity.
  - intros H.
    specialize (H 8%nat Demo.w0 20480 20480 true (or_introl eq_refl)).
    vm_compute in H. discriminate H.
Qed.


(** * Further properties of the code *)

(** ** The default operand policy *)

Lemma GetOperand_ops_found sz l o n o' n' :
  GetOperand_ops sz l o n = (true, o', n') ->
  exists pre op post,
    l = pre ++ op :: post /\
    Forall skipped_by_default pre /\
    type op <> o_void /\ offb op <> 0 /\
    o' = wrap8 (offb op) /\ n' = wrap8 (sz - offb op).
Proof.
  induction l as [|q l IH]; simpl; intros H; [discriminate|].
  destruct (is_o_void (type q)) eqn:Ev.
  - destruct (IH H) as (pre & op & post & -> & Hpre & Hrest).
    exists (q :: pre), op, post. split; [reflexivity|]. split; [|exact Hrest].
    constructor; [|exact Hpre]. left. now destruct (type q).
  - destruct (offb q =? 0) eqn:E0.
    + destruct (IH H) as (pre & op & post & -> & Hpre & Hrest).
      exists (q :: pre), op, post. split; [reflexivity|]. split; [|exact Hrest].
      constructor; [|exact Hpre]. right. now apply Z.eqb_eq.
    + inversion H; subst. exists [], q, l.
      repeat split; [constructor| |now apply Z.eqb_neq].
      intros Hv. now rewrite Hv in Ev.
Qed.

Lemma GetOperand_ops_none sz l o n :
  Forall skipped_by_default l -> GetOperand_ops sz l o n = (false, o, n).
Proof.
  induction 1 as [|q l [Hv|H0] _ IH]; simpl; [reflexivity| |].
  - now rewrite Hv.
  - rewrite H0. simpl. now destruct (is_o_void (type q)).
Qed.

Lemma GetOperand_ops_first sz pre op post o n :
  Forall skipped_by_default pre ->
  type op <> o_void -> offb op <> 0 ->
  GetOperand_ops sz (pre ++ op :: post) o n
  = (true, wrap8 (offb op), wrap8 (sz - offb op)).
Proof.
  intros Hpre Hv H0. induction Hpre as [|q pre [Hq|Hq] _ IH]; simpl.
  - replace (is_o_void (type op)) with false
      by (destruct (type op); try reflexivity; congruence).
    apply Z.eqb_neq in H0. now rewrite H0.
  - now rewrite Hq.
  - rewrite Hq. simpl. now destruct (is_o_void (type q)).
Qed.

(** X1. Outside ARM the policy takes the first operand that is neither
    void nor at offset 0, and it takes one whenever there is one: the
    offset is its [offb] and the length runs to the end of the
    instruction, so offset and length add up to the instruction's size
    when that size fits a byte.  When every operand is void or at offset
    0 it finds nothing and leaves both out-parameters as they were. *)
Theorem default_policy (instruction : insn_t) (o n : Z) :
  (forall operandOffset operandLength,
      GetOperand false instruction o n
        = (true, operandOffset, operandLength) ->
      exists pre op post,
        ops instruction = pre ++ op :: post /\
        Forall skipped_by_default pre /\
        type op <> o_void /\ offb op <> 0 /\
        operandOffset = wrap8 (offb op) /\
        operandLength = wrap8 (size instruction - offb op) /\
        (0 < offb op <= size instruction -> size instruction < 256 ->
         0 < operandOffset /\
         operandOffset + operandLength = size instruction)) /\
  (* an operand that is neither void nor at offset 0 is found *)
  (forall pre op post,
      ops instruction = pre ++ op :: post ->
      Forall skipped_by_default pre ->
      type op <> o_void -> offb op <> 0 ->
      GetOperand false instruction o n
      = (true, wrap8 (offb op), wrap8 (size instruction - offb op))) /\
  (Forall skipped_by_default (ops instruction) ->
   GetOperand false instruction o n = (false, o, n)).
Proof.
  unfold GetOperand. split; [|split].
  - intros off len H.
    destruct (GetOperand_ops_found _ _ _ _ _ _ H)
      as (pre & op & post & Hl & Hpre & Hv & H0 & -> & ->).
    exists pre, op, post. repeat split; try assumption.
    + unfold wrap8. rewrite Z.mod_small; lia.
    + unfold wrap8. rewrite !Z.mod_small; lia.
  - intros pre op post Hl Hpre Hv H0. rewrite Hl.
    now apply GetOperand_ops_first.
  - apply GetOperand_ops_none.
Qed.

(** ** What an appended instruction looks like *)

Lemma map_seq_from {A : Type} (f : nat -> A) n m :
  map f (seq n m) = map (fun i => f (n + i)%nat) (seq 0 m).
Proof.
  revert f n. induction m as [|m IH]; intros f n; simpl; [reflexivity|].
  rewrite Nat.add_0_r. f_equal.
  rewrite (IH f (S n)), (IH (fun i => f (n + i)%nat) 1%nat).
  apply map_ext. intros i. f_equal. lia.
Qed.

Lemma image_values_app db address n m :
  image_values db address (n + m)
  = image_values db address n
    ++ image_values db (wrap64 (address + Z.of_nat n)) m.
Proof.
  unfold image_values. rewrite seq_app, map_app. f_equal.
  simpl. rewrite map_seq_from. apply map_ext. intros i.
  f_equal. unfold wrap64. rewrite Z.add_mod_idemp_l by lia. f_equal. lia.
Qed.

Lemma instruction_bytes_values db address from to wildcard :
  map value (instruction_bytes db address from to wildcard)
  = image_values db (wrap64 (address + from)) (Z.to_nat (to - from)).
Proof.
  unfold instruction_bytes, image_values. rewrite map_map. simpl.
  apply map_ext. intros i. f_equal.
  unfold wrap64. now rewrite Z.add_mod_idemp_l by lia.
Qed.

Lemma instruction_bytes_length db address from to wildcard :
  List.length (instruction_bytes db address from to wildcard)
  = Z.to_nat (to - from).
Proof. unfold instruction_bytes. now rewrite length_map, length_seq. Qed.

Lemma instruction_bytes_empty db address k wildcard :
  instruction_bytes db address k k wildcard = [].
Proof. unfold instruction_bytes. now rewrite Z.sub_diag. Qed.

Lemma instruction_bytes_head db address to wildcard :
  0 < to ->
  exists rest,
    instruction_bytes db address 0 to wildcard
    = {| value := get_byte db (wrap64 address); isWildcard := wildcard |}
      :: rest.
Proof.
  intros H. unfold instruction_bytes.
  replace (Z.to_nat (to - 0)) with (S (Z.to_nat (to - 1))) by lia.
  simpl. rewrite !Z.add_0_r. eexists; reflexivity.
Qed.

Lemma image_values_wrap db address n :
  image_values db (wrap64 address) n = image_values db address n.
Proof.
  unfold image_values. apply map_ext. intros i. f_equal.
  unfold wrap64. now rewrite Z.add_mod_idemp_l by lia.
Qed.

(** The shape of what [append_instruction] adds outside ARM when the
    instruction is well formed. *)
Lemma append_instruction_default db sig currentAddress instruction
    currentInstructionLength wildcardOperands :
  0 < currentInstructionLength ->
  insn_well_formed currentInstructionLength instruction ->
  exists k,
    0 < k <= currentInstructionLength /\
    append_instruction db false sig currentAddress instruction
      currentInstructionLength wildcardOperands
    = sig ++ instruction_bytes db currentAddress 0 k false
          ++ instruction_bytes db currentAddress k
               currentInstructionLength true.
Proof.
  intros Hlen (Hsize & H256 & Hops).
  unfold append_instruction, maskable_operand, GetOperand.
  destruct (GetOperand_ops (size instruction) (ops instruction) 0 0)
    as [[found off] len] eqn:E.
  destruct (wildcardOperands && found && (len >? 0)) eqn:Hc.
  - apply andb_prop in Hc. destruct Hc as [Hc Hpos].
    apply andb_prop in Hc. destruct Hc as [_ ->].
    apply Z.gtb_lt in Hpos.
    destruct (GetOperand_ops_found _ _ _ _ _ _ E)
      as (pre & op & post & Hl & _ & _ & H0 & Hoff & Hl').
    assert (Hin : 0 <= offb op <= currentInstructionLength).
    { rewrite Forall_forall in Hops. apply Hops. rewrite Hl.
      apply in_or_app. right. now left. }
    assert (Eo : off = offb op).
    { rewrite Hoff. unfold wrap8. apply Z.mod_small. lia. }
    assert (El : len = currentInstructionLength - offb op).
    { rewrite Hl', Hsize. unfold wrap8. apply Z.mod_small. lia. }
    exists off. split; [lia|].
    assert (E0 : (off =? 0) = false) by (apply Z.eqb_neq; lia).
    rewrite E0.
    rewrite (AddBytesToSignature_start db sig currentAddress off false).
    rewrite AddBytesToSignature_bytes.
    replace (off + len) with currentInstructionLength by lia.
    now rewrite <- app_assoc.
  - exists currentInstructionLength. split; [lia|].
    rewrite AddBytesToSignature_start, instruction_bytes_empty.
    now rewrite app_nil_r.
Qed.

(** X2. Outside ARM, appending a well-formed instruction adds exactly
    its bytes: as many entries as the instruction is long, holding the
    image bytes at the cursor in address order whatever their wildcard
    flags, and the first of them, the opcode byte, is a literal. *)
Theorem append_covers_instruction db sig currentAddress instruction
    currentInstructionLength wildcardOperands :
  0 < currentInstructionLength ->
  insn_well_formed currentInstructionLength instruction ->
  exists added first rest,
    append_instruction db false sig currentAddress instruction
      currentInstructionLength wildcardOperands = sig ++ added /\
    List.length added = Z.to_nat currentInstructionLength /\
    map value added
    = image_values db currentAddress (Z.to_nat currentInstructionLength) /\
    added = first :: rest /\
    first = {| value := get_byte db (wrap64 currentAddress);
               isWildcard := false |}.
Proof.
  intros Hlen Hwf.
  destruct (append_instruction_default db sig currentAddress instruction
              currentInstructionLength wildcardOperands Hlen Hwf)
    as (k & Hk & ->).
  destruct (instruction_bytes_head db currentAddress k false) as [rest Hh];
    [lia|].
  eexists _, _, _. split; [reflexivity|]. split; [|split; [|split]].
  - rewrite length_app, !instruction_bytes_length. lia.
  - rewrite map_app, !instruction_bytes_values.
    rewrite Z.add_0_r, image_values_wrap.
    replace (Z.to_nat currentInstructionLength)
      with (Z.to_nat (k - 0) + Z.to_nat (currentInstructionLength - k))%nat
      by lia.
    rewrite image_values_app. f_equal.
    do 3 f_equal. lia.
  - rewrite Hh. reflexivity.
  - reflexivity.
Qed.

(** X3. Under ARM, with wildcarding on, an instruction of 4 (or 8)
    bytes whose first operand of a qualifying type sits at offset 0 is
    appended as 3 (or 7) wildcards followed by the remaining bytes as
    literals.  At an offset [k] other than 0 the [k] bytes before the
    operand are literals, 3 (or 7) wildcards follow and nothing more is
    appended, whatever the length of the instruction. *)
Theorem arm_append_layout db sig currentAddress instruction
    currentInstructionLength pre op post masked :
  ops instruction = pre ++ op :: post ->
  Forall (fun op => arm_wildcard_type (type op) = false) pre ->
  arm_wildcard_type (type op) = true ->
  (size instruction = 4 /\ masked = 3) \/
  (size instruction = 8 /\ masked = 7) ->
  (wrap8 (offb op) = 0 ->
   append_instruction db true sig currentAddress instruction
     currentInstructionLength true
   = sig ++ instruction_bytes db currentAddress 0 masked true
         ++ instruction_bytes db currentAddress masked
              currentInstructionLength false) /\
  (wrap8 (offb op) <> 0 ->
   append_instruction db true sig currentAddress instruction
     currentInstructionLength true
   = sig ++ instruction_bytes db currentAddress 0 (wrap8 (offb op)) false
         ++ instruction_bytes db currentAddress (wrap8 (offb op))
              (wrap8 (offb op) + masked) true).
Proof.
  intros Hl Hpre Hop Hsz.
  assert (HG : GetOperand true instruction 0 0
               = (true, wrap8 (offb op), masked)).
  { unfold GetOperand, GetOperandOffsetARM.
    rewrite Hl, (GetOperandOffsetARM_ops_first _ _ _ _ 0 0 Hpre Hop).
    destruct Hsz as [[-> ->]|[-> ->]]; reflexivity. }
  assert (Hpos : (masked >? 0) = true)
    by (destruct Hsz as [[_ ->]|[_ ->]]; reflexivity).
  unfold append_instruction, maskable_operand. rewrite HG, Hpos. simpl.
  split; intros Hk.
  - rewrite Hk. simpl.
    rewrite (AddBytesToSignature_start db sig currentAddress 0 false).
    rewrite instruction_bytes_empty, app_nil_r.
    rewrite !AddBytesToSignature_bytes. rewrite Z.add_0_l.
    replace (masked + (currentInstructionLength - masked))
      with currentInstructionLength by lia.
    now rewrite <- app_assoc.
  - apply Z.eqb_neq in Hk. rewrite Hk.
    rewrite (AddBytesToSignature_start db sig currentAddress _ false).
    rewrite AddBytesToSignature_bytes. now rewrite <- app_assoc.
Qed.

(** ** The matcher finds every occurrence *)

Lemma StronglySorted_snoc (l : list Z) (y : Z) :
  StronglySorted Z.lt l -> Forall (fun x => x < y) l ->
  StronglySorted Z.lt (l ++ [y]).
Proof.
  induction 1 as [|x l Hs IH Hx]; intros Hy; simpl.
  - repeat constructor.
  - inversion Hy; subst. constructor; [now apply IH|].
    apply Forall_app. split; [assumption|]. now constructor.
Qed.

Lemma FindSignatureOccurences_loop_all db pattern hit :
  finds_first db pattern hit ->
  0 <= inf_min_ea db ->
  inf_max_ea db <= BADADDR ->
  forall fuel ea results,
    inf_min_ea db <= ea ->
    (0 < fuel)%nat ->
    inf_max_ea db - ea < Z.of_nat fuel ->
    StronglySorted Z.lt results ->
    (forall a, In a results <->
               inf_min_ea db <= a < ea /\ a < inf_max_ea db /\ hit a) ->
    exists found,
      FindSignatureOccurences_loop db fuel pattern ea results = Some found /\
      StronglySorted Z.lt found /\
      (forall a, In a found <->
                 inf_min_ea db <= a < inf_max_ea db /\ hit a).
Proof.
  intros Hfirst Hmin Hmax.
  induction fuel as [|fuel IH]; intros ea results Hea Hpos Hf Hs Hin; [lia|].
  simpl.
  destruct (Hfirst ea (inf_max_ea db)) as [[Hr Hno]|(Hr & Hhit & Hno)].
  - rewrite Hr, Z.eqb_refl. exists results. repeat split; try assumption.
    + now apply Hin.
    + now apply Hin.
    + now apply Hin.
    + intros (Ha & Hh). apply Hin. repeat split; try lia; try assumption.
      destruct (Z_lt_le_dec a ea) as [Hlt|Hge]; [assumption|].
      exfalso. apply (Hno a); [lia|assumption].
  - set (r := bin_search2 db ea (inf_max_ea db) pattern) in *.
    assert (E : (r =? BADADDR) = false) by (apply Z.eqb_neq; lia).
    rewrite E.
    assert (Hw : wrap64 (r + 1) = r + 1).
    { unfold wrap64. apply Z.mod_small. unfold BADADDR in Hmax. lia. }
    rewrite Hw. apply IH; try lia.
    + apply StronglySorted_snoc; [assumption|].
      rewrite Forall_forall. intros a Ha. apply Hin in Ha. lia.
    + intros a. rewrite in_app_iff. simpl. split.
      * intros [Ha|[<-|[]]].
        -- apply Hin in Ha. repeat split; try lia. tauto.
        -- repeat split; try lia. assumption.
      * intros (Ha & Hlt & Hh).
        destruct (Z_lt_le_dec a ea) as [Hl|Hg].
        -- left. apply Hin. repeat split; try lia; assumption.
        -- right. left.
           destruct (Z.eq_dec a r) as [->|Hne]; [reflexivity|].
           exfalso. apply (Hno a); [lia|assumption].
Qed.

(** X4. When [bin_search2] answers with the lowest matching address of
    the range it is given, and the image has fewer addresses than the
    bound on calls, [FindSignatureOccurences] comes back with every
    address of the image at which the pattern matches, each once, in
    ascending order; occurrences that overlap are found too, since the
    search resumes one byte after each hit.  [IsSignatureUnique] then
    tells whether there is exactly one such address. *)
Theorem matcher_finds_all db pattern hit fuel :
  finds_first db pattern hit ->
  0 <= inf_min_ea db ->
  inf_max_ea db <= BADADDR ->
  (0 < fuel)%nat ->
  inf_max_ea db - inf_min_ea db < Z.of_nat fuel ->
  exists found,
    FindSignatureOccurences db fuel pattern = Some found /\
    StronglySorted Z.lt found /\
    (forall a, In a found <->
               inf_min_ea db <= a < inf_max_ea db /\ hit a) /\
    IsSignatureUnique db fuel pattern
    = Some (Nat.eqb (List.length found) 1).
Proof.
  intros Hfirst Hmin Hmax Hpos Hf.
  assert (Hnone : forall a, In a (@nil ea_t) <->
            inf_min_ea db <= a < inf_min_ea db /\ a < inf_max_ea db /\ hit a).
  { intros a; split; [intros H; inversion H|intros (Ha & _); lia]. }
  destruct (FindSignatureOccurences_loop_all db pattern hit Hfirst Hmin Hmax
              fuel (inf_min_ea db) (@nil ea_t) (Z.le_refl _) Hpos Hf
              (SSorted_nil _) Hnone) as (found & E & Hs & Hin).
  exists found. unfold IsSignatureUnique, FindSignatureOccurences.
  rewrite E. repeat split; try assumption; now apply Hin.
Qed.

Lemma matcher_finds_all_witness :
  exists found,
    FindSignatureOccurences Demo.db_second (Z.to_nat 61441) "E8 ? ? ? ?"
    = Some found /\
    (forall a, In a found <->
               4096 <= a < 65536 /\ (a = 4096 \/ a = 8192)) /\
    IsSignatureUnique Demo.db_second (Z.to_nat 61441) "E8 ? ? ? ?"
    = Some false.
Proof.
  destruct (matcher_finds_all Demo.db_second "E8 ? ? ? ?"
              (fun a => a = 4096 \/ a = 8192) (Z.to_nat 61441))
    as (found & E & Hs & Hin & Hu).
  - intros ea max. simpl. unfold Demo.search. simpl.
    destruct (ea <=? 4096) eqn:A1; destruct (4096 <? max) eqn:B1;
      destruct (ea <=? 8192) eqn:A2; destruct (8192 <? max) eqn:B2; simpl;
      try apply Z.leb_le in A1; try apply Z.leb_gt in A1;
      try apply Z.ltb_lt in B1; try apply Z.ltb_ge in B1;
      try apply Z.leb_le in A2; try apply Z.leb_gt in A2;
      try apply Z.ltb_lt in B2; try apply Z.ltb_ge in B2;
      try (right; repeat split; lia);
      left; (split; [reflexivity|lia]).
  - simpl; lia.
  - vm_compute; discriminate.
  - lia.
  - change (inf_max_ea Demo.db_second) with 65536.
    change (inf_min_ea Demo.db_second) with 4096. lia.
  - exists found. split; [exact E|]. split; [exact Hin|].
    rewrite Hu. f_equal.
    destruct found as [|x [|y l]]; simpl.
    + exfalso. assert (H : In 4096 []) by (apply Hin; simpl; lia).
      inversion H.
    + exfalso.
      assert (H1 : In 4096 [x]) by (apply Hin; simpl; lia).
      assert (H2 : In 8192 [x]) by (apply Hin; simpl; lia).
      simpl in H1, H2. lia.
    + reflexivity.
Defined.

(** ** What the passes of the builders keep *)

Lemma iterate_invariant (body : LoopState -> Outcome) (P : LoopState -> Prop) :
  (forall st st', P st -> body st = Continue st' -> P st') ->
  forall n st st', P st -> iterate body n st = Some st' -> P st'.
Proof.
  intros Hstep. induction n as [|n IH]; intros st st' HP H; simpl in H.
  - inversion H; subst; assumption.
  - destruct (body st) as [| st1 |] eqn:E; try discriminate.
    eapply IH; [|exact H]. eapply Hstep; eassumption.
Qed.

(** A pass of the growing builder that goes round again. *)
Lemma grow_body_continue_inv db IS_ARM sf ea wo co maxlen ask f st st' :
  grow_body db IS_ARM sf ea wo co maxlen ask f st = Continue st' ->
  exists len insn spl,
    decode_insn db (currentAddress st) = (len, insn) /\ 0 < len /\
    length_check db ea maxlen ask (signature st) (sigPartLength st)
      (polled (world st)) = inr (spl, world st') /\
    signature st' = append_instruction db IS_ARM (signature st)
                      (currentAddress st) insn len wo /\
    sigPartLength st' = wrap64 (spl + len) /\
    currentAddress st' = wrap64 (currentAddress st + len).
Proof.
  unfold grow_body, grow_rest. intros H.
  destruct (user_cancelled db (polls (world st))); [discriminate|].
  destruct (decode_insn db (currentAddress st)) as [len insn].
  destruct (len <=? 0) eqn:Hle; [destruct (signature st); discriminate|].
  apply Z.leb_gt in Hle.
  destruct (length_check db ea maxlen ask (signature st) (sigPartLength st)
              (polled (world st))) as [[r w]|[spl w]]; [discriminate|].
  destruct (IsSignatureUnique db sf _) as [[|]|]; try discriminate.
  match type of H with (if ?c then _ else _) = _ => destruct c end;
    [discriminate|].
  inversion H; subst; simpl. exists len, insn, spl. now repeat split.
Qed.

(** A pass of the growing builder that returns a signature. *)
Lemma grow_body_success_inv db IS_ARM sf ea wo co maxlen ask f st sig w' :
  grow_body db IS_ARM sf ea wo co maxlen ask f st
    = Return (has_value sig) w' ->
  exists len insn spl,
    decode_insn db (currentAddress st) = (len, insn) /\ 0 < len /\
    length_check db ea maxlen ask (signature st) (sigPartLength st)
      (polled (world st)) = inr (spl, w') /\
    sig = TrimSignature (append_instruction db IS_ARM (signature st)
                           (currentAddress st) insn len wo).
Proof.
  unfold grow_body, grow_rest. intros H.
  destruct (user_cancelled db (polls (world st))); [discriminate|].
  destruct (decode_insn db (currentAddress st)) as [len insn].
  destruct (len <=? 0) eqn:Hle; [destruct (signature st); discriminate|].
  apply Z.leb_gt in Hle.
  destruct (length_check db ea maxlen ask (signature st) (sigPartLength st)
              (polled (world st))) as [[r w]|[spl w]] eqn:E.
  - apply length_check_fails in E. inversion H; subst.
    destruct E as [E|[E|E]]; discriminate.
  - destruct (IsSignatureUnique db sf _) as [[|]|]; try discriminate.
    + inversion H; subst. exists len, insn, spl. now repeat split.
    + match type of H with (if ?c then _ else _) = _ => destruct c end;
        discriminate.
Qed.

(** The failures a pass of the growing builder can end in. *)
Lemma grow_body_failure db IS_ARM sf ea wo co maxlen ask f st e w' :
  grow_body db IS_ARM sf ea wo co maxlen ask f st
    = Return (unexpected e) w' ->
  (e = Aborted) \/
  (e = DecodeFailed /\ signature st = [] /\
   fst (decode_insn db (currentAddress st)) <= 0) \/
  (e = NotUnique) \/ (e = LengthExceeded /\ ask = false) \/
  (e = LeftFunctionScope /\ co = false /\ f <> None).
Proof.
  unfold grow_body, grow_rest. intros H.
  destruct (user_cancelled db (polls (world st)));
    [inversion H; auto 10|].
  destruct (decode_insn db (currentAddress st)) as [len insn]. simpl.
  destruct (len <=? 0) eqn:Hle.
  - apply Z.leb_le in Hle.
    destruct (signature st); inversion H; auto 10.
  - unfold length_check in H.
    destruct (sigPartLength st >? maxlen).
    + destruct ask.
      * destruct (ask_yn db (prompts (polled (world st))) =? 1).
        -- destruct (IsSignatureUnique db sf _) as [[|]|]; try discriminate.
           match type of H with (if ?c then _ else _) = _ =>
             destruct c eqn:Hc end; [|discriminate].
           inversion H; subst. right; right; right; right.
           apply andb_prop in Hc. destruct Hc as [Hc _].
           apply andb_prop in Hc. destruct Hc as [Hco Hf].
           repeat split; [now destruct co|]. now destruct f.
        -- destruct (ask_yn db (prompts (polled (world st))) =? 0);
             inversion H; auto 10.
      * inversion H; auto 10.
    + destruct (IsSignatureUnique db sf _) as [[|]|]; try discriminate.
      match type of H with (if ?c then _ else _) = _ =>
        destruct c eqn:Hc end; [|discriminate].
      inversion H; subst. right; right; right; right.
      apply andb_prop in Hc. destruct Hc as [Hc _].
      apply andb_prop in Hc. destruct Hc as [Hco Hf].
      repeat split; [now destruct co|]. now destruct f.
Qed.

(** The failures a pass of the range builder can end in. *)
Lemma range_body_failure db IS_ARM eaEnd wo st e w' :
  range_body db IS_ARM eaEnd wo st = Return (unexpected e) w' ->
  e = Aborted \/
  (e = DecodeFailed /\ signature st = [] /\
   fst (decode_insn db (currentAddress st)) <= 0).
Proof.
  unfold range_body. intros H.
  destruct (user_cancelled db (polls (world st)));
    [inversion H; auto 10|].
  destruct (decode_insn db (currentAddress st)) as [len insn]. simpl.
  destruct (len <=? 0) eqn:Hle.
  - apply Z.leb_le in Hle.
    destruct (signature st); inversion H; auto 10.
  - match type of H with (if ?c then _ else _) = _ => destruct c end;
      discriminate.
Qed.

(** X5. The failures of the builders.  The growing builder fails with
    one of seven messages and the range builder with one of three; the
    text "Unknown" behind the loops is never returned.  InvalidAddress
    comes from the sentinel alone and the refusal of data from an anchor
    that is not code alone, both before anything is polled or written;
    LengthExceeded comes only with prompting off, and LeftFunctionScope
    only when the builder is held to a function the anchor has. *)
Theorem builder_failures db IS_ARM sf fuel w ea wo co maxlen ask :
  (forall e w',
      GenerateUniqueSignatureForEA db IS_ARM sf fuel w ea wo co maxlen ask
        = Some (unexpected e, w') ->
      (e = InvalidAddress /\ ea = BADADDR /\ w' = w) \/
      (e = NotCode /\ ea <> BADADDR /\ is_code db ea = false /\ w' = w) \/
      e = Aborted \/ e = DecodeFailed \/ e = NotUnique \/
      (e = LengthExceeded /\ ask = false) \/
      (e = LeftFunctionScope /\ co = false /\ get_func db ea <> None)) /\
  (ea = BADADDR ->
   GenerateUniqueSignatureForEA db IS_ARM sf fuel w ea wo co maxlen ask
   = Some (unexpected InvalidAddress, w)) /\
  (ea <> BADADDR -> is_code db ea = false ->
   GenerateUniqueSignatureForEA db IS_ARM sf fuel w ea wo co maxlen ask
   = Some (unexpected NotCode, w)) /\
  (forall eaEnd e w',
      GenerateSignatureForEARange db IS_ARM fuel w ea eaEnd wo
        = Some (unexpected e, w') ->
      e = InvalidAddress \/ e = Aborted \/ e = DecodeFailed).
Proof.
  split; [|split; [|split]].
  - intros e w' H. unfold GenerateUniqueSignatureForEA in H.
    destruct (ea =? BADADDR) eqn:Eb.
    { apply Z.eqb_eq in Eb. inversion H; subst. auto. }
    apply Z.eqb_neq in Eb.
    destruct (is_code db ea) eqn:Ec; simpl in H.
    + apply run_loop_inv in H. destruct H as (n & st & _ & _ & Hb).
      apply grow_body_failure in Hb.
      destruct Hb as [Hb|[(Hb & _)|[Hb|[Hb|Hb]]]]; auto 10.
    + inversion H; subst. right; left. auto.
  - intros ->. reflexivity.
  - intros Hne Hc. unfold GenerateUniqueSignatureForEA.
    apply Z.eqb_neq in Hne. now rewrite Hne, Hc.
  - intros eaEnd e w' H. unfold GenerateSignatureForEARange in H.
    destruct ((ea =? BADADDR) || (eaEnd =? BADADDR));
      [inversion H; auto|].
    destruct (negb (is_code db ea)); [discriminate|].
    apply run_loop_inv in H. destruct H as (n & st & _ & _ & Hb).
    apply range_body_failure in Hb. destruct Hb as [Hb|(Hb & _)]; auto.
Qed.

Lemma maskable_operand_positive IS_ARM wo insn off len :
  maskable_operand IS_ARM wo insn = Some (off, len) -> 0 < len.
Proof.
  unfold maskable_operand.
  destruct (GetOperand IS_ARM insn 0 0) as [[found o] l].
  destruct (wo && found && (l >? 0)) eqn:E; [|discriminate].
  intros H; inversion H; subst.
  apply andb_prop in E. destruct E as [_ E]. now apply Z.gtb_lt.
Qed.

Lemma AddBytesToSignature_app db sig address count wildcard :
  AddBytesToSignature db sig address count wildcard
  = sig ++ AddBytesToSignature db [] address count wildcard.
Proof. reflexivity. Qed.

Lemma AddBytesToSignature_length db sig address count wildcard :
  List.length (AddBytesToSignature db sig address count wildcard)
  = (List.length sig + Z.to_nat count)%nat.
Proof.
  unfold AddBytesToSignature. now rewrite length_app, length_map, length_seq.
Qed.

(** Whatever the architecture, an instruction that decoded adds at least
    one entry behind the entries already there. *)
Lemma append_instruction_grows db IS_ARM sig cur insn len wo :
  0 < len ->
  exists added,
    append_instruction db IS_ARM sig cur insn len wo = sig ++ added /\
    (0 < List.length added)%nat.
Proof.
  intros Hlen. unfold append_instruction.
  destruct (maskable_operand IS_ARM wo insn) as [[off l]|] eqn:E.
  - apply maskable_operand_positive in E.
    destruct (off =? 0).
    + rewrite AddBytesToSignature_app.
      rewrite (AddBytesToSignature_app db (AddBytesToSignature db sig _ _ _)).
      rewrite (AddBytesToSignature_app db sig).
      rewrite <- !app_assoc. eexists; split; [reflexivity|].
      rewrite !length_app, !AddBytesToSignature_length. simpl. lia.
    + rewrite AddBytesToSignature_app.
      rewrite (AddBytesToSignature_app db sig).
      rewrite <- !app_assoc. eexists; split; [reflexivity|].
      rewrite !length_app, !AddBytesToSignature_length. simpl. lia.
  - rewrite AddBytesToSignature_app. eexists; split; [reflexivity|].
    rewrite AddBytesToSignature_length. simpl. lia.
Qed.

Section Growth.
Variable db : IDA.
Variable IS_ARM : bool.
Variable sf : nat.
Variables (ea : ea_t) (wo co : bool) (maxlen : Z) (ask : bool).

Let body := grow_body db IS_ARM sf ea wo co maxlen ask (get_func db ea).

Lemma grow_body_extends st st' :
  body st = Continue st' ->
  exists added, signature st' = signature st ++ added /\
                (0 < List.length added)%nat.
Proof.
  intros H. subst body. apply grow_body_continue_inv in H.
  destruct H as (len & insn & spl & _ & Hlen & _ & -> & _).
  now apply append_instruction_grows.
Qed.

Lemma iterate_extends n : forall st st',
  iterate body n st = Some st' ->
  exists added, signature st' = signature st ++ added /\
                (n <= List.length added)%nat.
Proof.
  induction n as [|n IH]; intros st st' H; simpl in H.
  - inversion H; subst. exists []. now rewrite app_nil_r.
  - destruct (body st) as [|st1|] eqn:E; try discriminate.
    destruct (grow_body_extends _ _ E) as (a1 & H1 & L1).
    destruct (IH _ _ H) as (a2 & H2 & L2).
    exists (a1 ++ a2). rewrite H2, H1, <- app_assoc. split; [reflexivity|].
    rewrite length_app. lia.
Qed.

(** X6. The growing builder only ever adds to its signature.  Between
    any two passes the entries of the earlier one are still there,
    unchanged and in place, with at least one new entry for every pass in
    between; and whenever the instruction at the cursor decodes, the
    signature that is rendered and searched for is not empty. *)
Theorem signature_only_grows w k n stk stn :
  iterate body k (grow_init ea w) = Some stk ->
  iterate body (k + n) (grow_init ea w) = Some stn ->
  (exists added,
      signature stn = signature stk ++ added /\
      (n <= List.length added)%nat) /\
  (k <= List.length (signature stk))%nat /\
  (0 < fst (decode_insn db (currentAddress stn)) ->
   exists added,
     grown db IS_ARM wo stn = signature stn ++ added /\
     (0 < List.length added)%nat).
Proof.
  intros Hk Hn. split; [|split].
  - apply iterate_split in Hn. destruct Hn as (stk' & Hk' & Hn).
    rewrite Hk in Hk'. inversion Hk'; subst. now apply iterate_extends.
  - destruct (iterate_extends _ _ _ Hk) as (a & Ha & La).
    rewrite Ha. simpl. exact La.
  - intros Hlen. unfold grown.
    destruct (decode_insn db (currentAddress stn)) as [len insn].
    now apply append_instruction_grows.
Qed.

(** X7. A builder fails with DecodeFailed only when the very first
    instruction, the one at the anchor or at the start of the range, does
    not decode; the cancel event was polled once and nothing was
    written. *)
Theorem decode_failed_only_at_start fuel w :
  (forall w',
      GenerateUniqueSignatureForEA db IS_ARM sf fuel w ea wo co maxlen ask
        = Some (unexpected DecodeFailed, w') ->
      fst (decode_insn db ea) <= 0 /\ w' = polled w) /\
  (forall eaEnd w',
      GenerateSignatureForEARange db IS_ARM fuel w ea eaEnd wo
        = Some (unexpected DecodeFailed, w') ->
      fst (decode_insn db ea) <= 0 /\ w' = polled w).
Proof.
  split.
  - intros w' H. unfold GenerateUniqueSignatureForEA in H.
    destruct (ea =? BADADDR); [discriminate|].
    destruct (negb (is_code db ea)); [discriminate|].
    apply run_loop_inv in H. destruct H as (n & st & _ & Hit & Hb).
    pose proof (grow_body_failure _ _ _ _ _ _ _ _ _ _ _ _ Hb) as Hf.
    destruct Hf as [Hf|[(_ & Hs & Hd)|[Hf|[(Hf & _)|(Hf & _)]]]];
      try discriminate.
    destruct (iterate_extends _ _ _ Hit) as (added & Ha & Hl).
    rewrite Hs in Ha. simpl in Ha. subst added.
    destruct n as [|n]; [|simpl in Hl; lia].
    simpl in Hit. inversion Hit; subst st. simpl in Hd.
    split; [exact Hd|].
    subst body. unfold grow_body in Hb. simpl in Hb.
    destruct (user_cancelled db (polls w)); [discriminate|].
    destruct (decode_insn db ea) as [len insn]. simpl in Hd.
    apply Z.leb_le in Hd. rewrite Hd in Hb. now inversion Hb.
  - intros eaEnd w' H. unfold GenerateSignatureForEARange in H.
    destruct ((ea =? BADADDR) || (eaEnd =? BADADDR)); [discriminate|].
    destruct (negb (is_code db ea)); [discriminate|].
    apply run_loop_inv in H. destruct H as (n & st & _ & Hit & Hb).
    pose proof (range_body_failure _ _ _ _ _ _ _ Hb) as Hf.
    destruct Hf as [Hf|(_ & Hs & Hd)]; [discriminate|].
    assert (Hn : n = O).
    { destruct n as [|n]; [reflexivity|]. exfalso.
      assert (Hne : signature st <> []).
      { revert Hit. clear Hb Hs Hd.
        generalize {| signature := []; sigPartLength := 0;
                      currentAddress := ea; world := w |}.
        induction n as [|n IH]; intros s0 Hit; simpl in Hit.
        - destruct (range_body db IS_ARM eaEnd wo s0) as [|s1|] eqn:E;
            try discriminate.
          inversion Hit; subst s1.
          unfold range_body in E.
          destruct (user_cancelled db (polls (world s0))); [discriminate|].
          destruct (decode_insn db (currentAddress s0)) as [len insn].
          destruct (len <=? 0) eqn:Hle;
            [destruct (signature s0); discriminate|].
          apply Z.leb_gt in Hle.
          match type of E with (if ?c then _ else _) = _ => destruct c end;
            [discriminate|].
          inversion E; subst; simpl.
          destruct (append_instruction_grows db IS_ARM (signature s0)
                      (currentAddress s0) insn len wo Hle) as (a & -> & La).
          destruct a; [simpl in La; lia|]. now destruct (signature s0).
        - destruct (range_body db IS_ARM eaEnd wo s0) as [|s1|] eqn:E;
            try discriminate.
          eapply IH. exact Hit. }
      contradiction. }
    subst n. simpl in Hit. inversion Hit; subst st. simpl in Hd.
    split; [exact Hd|].
    unfold range_body in Hb. simpl in Hb.
    destruct (user_cancelled db (polls w)); [discriminate|].
    destruct (decode_insn db ea) as [len insn]. simpl in Hd.
    apply Z.leb_le in Hd. rewrite Hd in Hb. now inversion Hb.
Qed.
End Growth.

(** ** Signatures are transcripts of the image *)

Lemma drop_while_split {A : Type} (p : A -> bool) (l : list A) :
  exists dropped,
    l = dropped ++ drop_while p l /\ Forall (fun x => p x = true) dropped.
Proof.
  induction l as [|x l (d & Hl & Hd)]; simpl.
  - exists []. split; [reflexivity|constructor].
  - destruct (p x) eqn:E.
    + exists (x :: d). split; [simpl; now f_equal|now constructor].
    + exists []. split; [reflexivity|constructor].
Qed.

Lemma TrimSignature_prefix (s : Signature) :
  exists tail,
    s = TrimSignature s ++ tail /\
    Forall (fun b => isWildcard b = true) tail.
Proof.
  unfold TrimSignature.
  destruct (drop_while_split isWildcard (rev s)) as (d & Hl & Hd).
  exists (rev d). split.
  - rewrite <- rev_app_distr, <- Hl. now rewrite rev_involutive.
  - rewrite Forall_forall in *. intros b Hb. apply Hd. now apply in_rev.
Qed.

Lemma TrimSignature_head (first : SignatureByte) (rest : Signature) :
  isWildcard first = false ->
  exists rest', TrimSignature (first :: rest) = first :: rest'.
Proof.
  intros Hf.
  destruct (TrimSignature_prefix (first :: rest)) as (tail & Hs & Ht).
  destruct (TrimSignature (first :: rest)) as [|x r].
  - simpl in Hs. subst tail. inversion Ht; subst. congruence.
  - simpl in Hs. inversion Hs; subst. now exists r.
Qed.

Lemma app_same_length {A : Type} (a b c d : list A) :
  a ++ b = c ++ d -> List.length a = List.length c -> a = c.
Proof.
  revert c. induction a as [|x a IH]; intros [|y c] H L; simpl in *;
    try discriminate; [reflexivity|].
  inversion H; subst. f_equal. apply IH; [assumption|lia].
Qed.

Lemma transcript_prefix db address (s t tail : Signature) :
  s = t ++ tail ->
  map value s = image_values db address (List.length s) ->
  map value t = image_values db address (List.length t).
Proof.
  intros -> H. rewrite length_app, image_values_app, map_app in H.
  eapply app_same_length; [exact H|].
  unfold image_values. now rewrite !length_map, length_seq.
Qed.

(** One well-formed instruction more, outside ARM: the transcript and
    the literal first byte are kept, and the signature is as much longer
    as the instruction is long. *)
Lemma append_keeps_transcript db start sig cur insn len wo :
  0 < len -> insn_well_formed len insn ->
  transcribes db start sig cur ->
  starts_literal db start sig ->
  let sig' := append_instruction db false sig cur insn len wo in
  transcribes db start sig' (wrap64 (cur + len)) /\
  (exists rest,
      sig' = {| value := get_byte db (wrap64 start); isWildcard := false |}
             :: rest) /\
  List.length sig' = (List.length sig + Z.to_nat len)%nat.
Proof.
  intros Hlen Hwf (Hv & Hc) Hs sig'. subst sig'.
  destruct (append_instruction_default db sig cur insn len wo Hlen Hwf)
    as (k & Hk & ->).
  assert (Hl : List.length (sig ++ instruction_bytes db cur 0 k false
                                ++ instruction_bytes db cur k len true)
               = (List.length sig + Z.to_nat len)%nat).
  { rewrite !length_app, !instruction_bytes_length. lia. }
  split; [split|split].
  - rewrite Hl, image_values_app, !map_app, Hv. f_equal.
    rewrite !instruction_bytes_values.
    replace (Z.to_nat len)
      with (Z.to_nat (k - 0) + Z.to_nat (len - k))%nat by lia.
    rewrite image_values_app, Z.add_0_r.
    rewrite <- Hc, !image_values_wrap. f_equal.
    rewrite <- (image_values_wrap db (wrap64 cur + _)).
    rewrite <- (image_values_wrap db (cur + _)).
    f_equal. unfold wrap64. rewrite Z.add_mod_idemp_l by lia.
    f_equal. lia.
  - rewrite Hl. unfold wrap64 in *.
    rewrite Z.mod_mod by lia.
    rewrite <- Z.add_mod_idemp_l by lia. rewrite Hc.
    rewrite Z.add_mod_idemp_l by lia. f_equal. lia.
  - destruct Hs as [->|(rest & ->)].
    + assert (E0 : List.length (@nil SignatureByte) = O) by reflexivity.
      rewrite E0 in Hc. simpl in Hc. rewrite Z.add_0_r in Hc.
      destruct (instruction_bytes_head db cur k false) as [r Hh]; [lia|].
      rewrite Hh. simpl. rewrite Hc. eexists; reflexivity.
    + simpl. eexists; reflexivity.
  - exact Hl.
Qed.

Lemma length_check_no_prompt db ea maxlen sig spl w spl' w' :
  length_check db ea maxlen false sig spl w = inr (spl', w') ->
  spl' = spl /\ w' = w /\ spl <= maxlen.
Proof.
  unfold length_check. destruct (spl >? maxlen) eqn:E; [discriminate|].
  intros H; inversion H; subst. repeat split.
  rewrite Z.gtb_ltb in E. now apply Z.ltb_ge.
Qed.

Lemma TrimSignature_length (s : Signature) :
  (List.length (TrimSignature s) <= List.length s)%nat.
Proof.
  destruct (TrimSignature_prefix s) as (tail & Hs & _).
  rewrite Hs at 2. rewrite length_app. lia.
Qed.

Section Transcript.
Variable db : IDA.
Variable sf : nat.
Variables (ea : ea_t) (wo co : bool) (maxlen : Z) (ask : bool).
Hypothesis Hwf : decoder_well_formed db.

Let body := grow_body db false sf ea wo co maxlen ask (get_func db ea).

Lemma grow_keeps_transcript n w st :
  iterate body n (grow_init ea w) = Some st ->
  transcribes db ea (signature st) (currentAddress st) /\
  starts_literal db ea (signature st).
Proof.
  apply (iterate_invariant body
           (fun st => transcribes db ea (signature st) (currentAddress st) /\
                      starts_literal db ea (signature st))).
  - intros s s' (Ht & Hs) Hb. subst body.
    apply grow_body_continue_inv in Hb.
    destruct Hb as (len & insn & spl & Hd & Hlen & _ & -> & _ & ->).
    pose proof (Hwf (currentAddress s)) as Hw. rewrite Hd in Hw. simpl in Hw.
    destruct (append_keeps_transcript db ea (signature s) (currentAddress s)
                insn len wo Hlen (Hw Hlen) Ht Hs) as (Ht' & (r & Hr) & _).
    split; [exact Ht'|]. right. now exists r.
  - simpl. split; [split|now left]; simpl; [reflexivity|].
    now rewrite Z.add_0_r.
Qed.

(** X8. Outside ARM, with a decoder that hands over well-formed
    instructions, a signature the growing builder returns is a transcript
    of the image at the anchor: entry [i] holds the byte at anchor + i,
    wildcard or not, and the first entry is the anchor's byte as a
    literal, so the signature is never empty. *)
Theorem success_transcribes_anchor fuel w sig w' :
  GenerateUniqueSignatureForEA db false sf fuel w ea wo co maxlen ask
    = Some (has_value sig, w') ->
  map value sig = image_values db ea (List.length sig) /\
  exists rest,
    sig = {| value := get_byte db (wrap64 ea); isWildcard := false |} :: rest.
Proof.
  intros H. unfold GenerateUniqueSignatureForEA in H.
  destruct (ea =? BADADDR); [discriminate|].
  destruct (negb (is_code db ea)); [discriminate|].
  apply run_loop_inv in H. destruct H as (n & st & _ & Hit & Hb).
  apply grow_keeps_transcript in Hit. destruct Hit as (Ht & Hs).
  apply grow_body_success_inv in Hb.
  destruct Hb as (len & insn & spl & Hd & Hlen & _ & ->).
  pose proof (Hwf (currentAddress st)) as Hw. rewrite Hd in Hw. simpl in Hw.
  destruct (append_keeps_transcript db ea (signature st) (currentAddress st)
              insn len wo Hlen (Hw Hlen) Ht Hs) as ((Hv & _) & (r & Hr) & _).
  split.
  - destruct (TrimSignature_prefix
                (append_instruction db false (signature st)
                   (currentAddress st) insn len wo)) as (tail & Hp & _).
    eapply transcript_prefix; eassumption.
  - rewrite Hr. now apply TrimSignature_head.
Qed.

Lemma grow_success_bounded fuel w sig w' :
  ask = false -> 0 <= maxlen -> maxlen + 255 < 2 ^ 64 ->
  GenerateUniqueSignatureForEA db false sf fuel w ea wo co maxlen ask
    = Some (has_value sig, w') ->
  Z.of_nat (List.length sig) <= maxlen + 255.
Proof.
  intros Hask Hmax Hfit H. unfold GenerateUniqueSignatureForEA in H.
  destruct (ea =? BADADDR); [discriminate|].
  destruct (negb (is_code db ea)); [discriminate|].
  apply run_loop_inv in H. destruct H as (n & st & _ & Hit & Hb).
  assert (Hq : sigPartLength st = Z.of_nat (List.length (signature st)) /\
               transcribes db ea (signature st) (currentAddress st) /\
               starts_literal db ea (signature st)).
  { revert Hit.
    apply (iterate_invariant body
             (fun st => sigPartLength st = Z.of_nat (List.length (signature st))
                        /\ transcribes db ea (signature st) (currentAddress st)
                        /\ starts_literal db ea (signature st))).
    - intros s s' (Hq & Ht & Hs) Hc. subst body.
      apply grow_body_continue_inv in Hc.
      destruct Hc as (len & insn & spl & Hd & Hlen & Hck & -> & -> & ->).
      rewrite Hask in Hck. apply length_check_no_prompt in Hck.
      destruct Hck as (-> & _ & Hle).
      pose proof (Hwf (currentAddress s)) as Hw. rewrite Hd in Hw.
      simpl in Hw. specialize (Hw Hlen).
      destruct (append_keeps_transcript db ea (signature s) (currentAddress s)
                  insn len wo Hlen Hw Ht Hs) as (Ht' & (r & Hr) & Hl).
      split; [|split; [exact Ht'|right; now exists r]].
      rewrite Hl. destruct Hw as (_ & H256 & _).
      unfold wrap64. rewrite Z.mod_small; lia.
    - simpl. split; [reflexivity|]. split; [split|now left]; simpl;
        [reflexivity|now rewrite Z.add_0_r]. }
  destruct Hq as (Hq & Ht & Hs).
  subst body. apply grow_body_success_inv in Hb.
  destruct Hb as (len & insn & spl & Hd & Hlen & Hck & ->).
  rewrite Hask in Hck. apply length_check_no_prompt in Hck.
  destruct Hck as (-> & _ & Hle).
  pose proof (Hwf (currentAddress st)) as Hw. rewrite Hd in Hw.
  simpl in Hw. specialize (Hw Hlen).
  destruct (append_keeps_transcript db ea (signature st) (currentAddress st)
              insn len wo Hlen Hw Ht Hs) as (_ & _ & Hl).
  pose proof (TrimSignature_length
                (append_instruction db false (signature st)
                   (currentAddress st) insn len wo)) as Htrim.
  destruct Hw as (_ & H256 & _). lia.
Qed.
End Transcript.

(** ** The range builder *)

Lemma range_body_continue_inv db IS_ARM eaEnd wo st st' :
  range_body db IS_ARM eaEnd wo st = Continue st' ->
  exists len insn,
    decode_insn db (currentAddress st) = (len, insn) /\ 0 < len /\
    signature st' = append_instruction db IS_ARM (signature st)
                      (currentAddress st) insn len wo /\
    currentAddress st' = wrap64 (currentAddress st + len) /\
    currentAddress st' < eaEnd.
Proof.
  unfold range_body. intros H.
  destruct (user_cancelled db (polls (world st))); [discriminate|].
  destruct (decode_insn db (currentAddress st)) as [len insn].
  destruct (len <=? 0) eqn:Hle; [destruct (signature st); discriminate|].
  apply Z.leb_gt in Hle.
  destruct (wrap64 (currentAddress st + len) >=? eaEnd) eqn:E;
    [discriminate|].
  inversion H; subst; simpl. exists len, insn.
  repeat split; try assumption. rewrite Z.geb_leb in E. now apply Z.leb_gt.
Qed.

Lemma range_body_success_inv db IS_ARM eaEnd wo st sig w' :
  range_body db IS_ARM eaEnd wo st = Return (has_value sig) w' ->
  exists len insn,
    decode_insn db (currentAddress st) = (len, insn) /\
    ((len <= 0 /\ currentAddress st < eaEnd /\
      sig = TrimSignature
              (AddBytesToSignature db (signature st) (currentAddress st)
                 (wrap64 (eaEnd - currentAddress st)) false)) \/
     (len <= 0 /\ eaEnd <= currentAddress st /\
      sig = TrimSignature (signature st)) \/
     (0 < len /\ eaEnd <= wrap64 (currentAddress st + len) /\
      sig = TrimSignature
              (append_instruction db IS_ARM (signature st)
                 (currentAddress st) insn len wo))).
Proof.
  unfold range_body. intros H.
  destruct (user_cancelled db (polls (world st))); [discriminate|].
  destruct (decode_insn db (currentAddress st)) as [len insn].
  exists len, insn. split; [reflexivity|].
  destruct (len <=? 0) eqn:Hle.
  - apply Z.leb_le in Hle.
    destruct (signature st) as [|b l] eqn:Es; [discriminate|].
    destruct (currentAddress st <? eaEnd) eqn:E; inversion H; subst.
    + left. apply Z.ltb_lt in E. now repeat split.
    + right; left. apply Z.ltb_ge in E. now repeat split.
  - apply Z.leb_gt in Hle.
    destruct (wrap64 (currentAddress st + len) >=? eaEnd) eqn:E;
      [|discriminate].
    inversion H; subst. right; right.
    rewrite Z.geb_leb in E. apply Z.leb_le in E. now repeat split.
Qed.

Lemma append_without_wildcards db IS_ARM sig cur insn len :
  append_instruction db IS_ARM sig cur insn len false
  = sig ++ instruction_bytes db cur 0 len false.
Proof.
  unfold append_instruction, maskable_operand.
  destruct (GetOperand IS_ARM insn 0 0) as [[found off] l]. simpl.
  apply AddBytesToSignature_start.
Qed.

Lemma instruction_bytes_literal db cur from to :
  Forall (fun b => is_literal b = true)
         (instruction_bytes db cur from to false).
Proof.
  unfold instruction_bytes. rewrite Forall_forall. intros b Hb.
  apply in_map_iff in Hb. destruct Hb as (i & <- & _). reflexivity.
Qed.

Lemma literal_signature_trim (s : Signature) :
  Forall (fun b => is_literal b = true) s -> TrimSignature s = s.
Proof.
  intros H. apply TrimSignature_fixed. intros front b ->.
  rewrite Forall_forall in H.
  assert (Hb : is_literal b = true)
    by (apply H; apply in_or_app; right; now left).
  unfold is_literal in Hb. now destruct (isWildcard b).
Qed.

Lemma wrap64_range z : 0 <= wrap64 z < 2 ^ 64.
Proof. unfold wrap64. apply Z.mod_pos_bound. lia. Qed.

Lemma wrap64_small z : 0 <= z < 2 ^ 64 -> wrap64 z = z.
Proof. unfold wrap64. apply Z.mod_small. Qed.

Lemma wrap64_le z : 0 <= z -> wrap64 z <= z.
Proof. intros H. unfold wrap64. apply Z.mod_le; lia. Qed.

(** X10. Copying a range without operand wildcards gives the raw bytes:
    whatever the architecture and the decoder, a success of the range
    builder holds literals only, entry [i] is the byte at start + i, and
    for a range within the address space there are at least end - start
    of them, the last instruction being taken whole; on a start that is
    not code there are exactly end - start, and nothing is polled or
    written. *)
Theorem range_copies_bytes db IS_ARM fuel w eaStart eaEnd sig w' :
  0 <= eaStart <= eaEnd -> eaEnd < 2 ^ 64 ->
  GenerateSignatureForEARange db IS_ARM fuel w eaStart eaEnd false
    = Some (has_value sig, w') ->
  Forall (fun b => is_literal b = true) sig /\
  map value sig = image_values db eaStart (List.length sig) /\
  eaEnd - eaStart <= Z.of_nat (List.length sig) /\
  (is_code db eaStart = false ->
   Z.of_nat (List.length sig) = eaEnd - eaStart /\ w' = w).
Proof.
  intros Hrange Hend H. unfold GenerateSignatureForEARange in H.
  destruct ((eaStart =? BADADDR) || (eaEnd =? BADADDR)); [discriminate|].
  destruct (is_code db eaStart) eqn:Hc; simpl in H.
  - apply run_loop_inv in H. destruct H as (n & st & _ & Hit & Hb).
    assert (Hinv : Forall (fun b => is_literal b = true) (signature st) /\
                   map value (signature st)
                   = image_values db eaStart (List.length (signature st)) /\
                   currentAddress st
                   = wrap64 (eaStart + Z.of_nat (List.length (signature st)))).
    { revert Hit.
      apply (iterate_invariant (range_body db IS_ARM eaEnd false)
               (fun st =>
                  Forall (fun b => is_literal b = true) (signature st) /\
                  map value (signature st)
                  = image_values db eaStart (List.length (signature st)) /\
                  currentAddress st
                  = wrap64 (eaStart
                            + Z.of_nat (List.length (signature st))))).
      - intros s s' (Hl & Hv & Hcur) Hs.
        apply range_body_continue_inv in Hs.
        destruct Hs as (len & insn & Hd & Hlen & -> & -> & _).
        rewrite append_without_wildcards. split; [|split].
        + apply Forall_app. split; [exact Hl|].
          apply instruction_bytes_literal.
        + rewrite length_app, map_app, image_values_app, Hv. f_equal.
          rewrite instruction_bytes_values, instruction_bytes_length.
          rewrite Z.add_0_r, (image_values_wrap db (currentAddress s)).
          rewrite <- Hcur. reflexivity.
        + rewrite length_app, instruction_bytes_length, Hcur.
          unfold wrap64. rewrite Z.add_mod_idemp_l by lia. f_equal. lia.
      - simpl. split; [constructor|]. split; [reflexivity|].
        rewrite Z.add_0_r. symmetry. apply wrap64_small. lia. }
    destruct Hinv as (Hl & Hv & Hcur).
    apply range_body_success_inv in Hb.
    destruct Hb as (len & insn & Hd &
                    [(Hlen & Hlt & ->)|[(Hlen & Hge & ->)|(Hlen & Hge & ->)]]).
    + assert (Hall : Forall (fun b => is_literal b = true)
                (AddBytesToSignature db (signature st) (currentAddress st)
                   (wrap64 (eaEnd - currentAddress st)) false)).
      { rewrite AddBytesToSignature_start. apply Forall_app.
        split; [exact Hl|]. apply instruction_bytes_literal. }
      rewrite (literal_signature_trim _ Hall).
      split; [exact Hall|].
      rewrite AddBytesToSignature_start, length_app, map_app,
        image_values_app, Hv, instruction_bytes_values,
        instruction_bytes_length, Z.add_0_r,
        (image_values_wrap db (currentAddress st)), <- Hcur.
      split; [reflexivity|]. split; [|discriminate].
      pose proof (wrap64_range (eaStart
                    + Z.of_nat (List.length (signature st)))) as Hr.
      pose proof (wrap64_le (eaStart
                    + Z.of_nat (List.length (signature st)))) as Hw.
      rewrite <- Hcur in Hr, Hw.
      rewrite (wrap64_small (eaEnd - currentAddress st)) by lia. lia.
    + rewrite (literal_signature_trim _ Hl).
      split; [exact Hl|]. split; [exact Hv|]. split; [|discriminate].
      pose proof (wrap64_le (eaStart
                    + Z.of_nat (List.length (signature st)))) as Hw.
      rewrite <- Hcur in Hw. lia.
    + rewrite append_without_wildcards.
      assert (Hall : Forall (fun b => is_literal b = true)
                (signature st
                 ++ instruction_bytes db (currentAddress st) 0 len false)).
      { apply Forall_app. split; [exact Hl|].
        apply instruction_bytes_literal. }
      rewrite (literal_signature_trim _ Hall).
      split; [exact Hall|].
      rewrite length_app, map_app, image_values_app, Hv,
        instruction_bytes_values, instruction_bytes_length, Z.add_0_r,
        (image_values_wrap db (currentAddress st)), <- Hcur.
      split; [reflexivity|]. split; [|discriminate].
      rewrite Hcur in Hge. unfold wrap64 in Hge.
      rewrite Z.add_mod_idemp_l in Hge by lia.
      pose proof (wrap64_le (eaStart
                    + Z.of_nat (List.length (signature st)) + len)) as Hw.
      unfold wrap64 in Hw. lia.
  - inversion H; subst. rewrite AddBytesToSignature_start. simpl.
    rewrite instruction_bytes_length, instruction_bytes_values.
    rewrite Z.add_0_r, image_values_wrap.
    rewrite (wrap64_small (eaEnd - eaStart)) by lia.
    split; [apply instruction_bytes_literal|].
    split; [reflexivity|]. split; [lia|]. intros _. split; [lia|reflexivity].
Qed.

(** X11. With operand wildcards too, outside ARM and with well-formed
    instructions, what the range builder returns is a transcript of the
    image from the start of the range: entry [i] holds the byte at
    start + i whether it is a wildcard or not, so the masked bytes can
    still be rendered. *)
Theorem range_transcribes_start db fuel w eaStart eaEnd wo sig w' :
  decoder_well_formed db ->
  GenerateSignatureForEARange db false fuel w eaStart eaEnd wo
    = Some (has_value sig, w') ->
  map value sig = image_values db eaStart (List.length sig).
Proof.
  intros Hwf H. unfold GenerateSignatureForEARange in H.
  destruct ((eaStart =? BADADDR) || (eaEnd =? BADADDR)); [discriminate|].
  destruct (negb (is_code db eaStart)).
  - inversion H; subst. rewrite AddBytesToSignature_start. simpl.
    rewrite instruction_bytes_length, instruction_bytes_values.
    now rewrite Z.add_0_r, image_values_wrap.
  - apply run_loop_inv in H. destruct H as (n & st & _ & Hit & Hb).
    assert (Hinv : transcribes db eaStart (signature st) (currentAddress st)
                   /\ starts_literal db eaStart (signature st)).
    { revert Hit.
      apply (iterate_invariant (range_body db false eaEnd wo)
               (fun st =>
                  transcribes db eaStart (signature st) (currentAddress st)
                  /\ starts_literal db eaStart (signature st))).
      - intros s s' (Ht & Hs) Hc.
        apply range_body_continue_inv in Hc.
        destruct Hc as (len & insn & Hd & Hlen & -> & -> & _).
        pose proof (Hwf (currentAddress s)) as Hw. rewrite Hd in Hw.
        simpl in Hw.
        destruct (append_keeps_transcript db eaStart (signature s)
                    (currentAddress s) insn len wo Hlen (Hw Hlen) Ht Hs)
          as (Ht' & (r & Hr) & _).
        split; [exact Ht'|]. right. now exists r.
      - simpl. split; [split|now left]; simpl; [reflexivity|].
        now rewrite Z.add_0_r. }
    destruct Hinv as ((Hv & Hcur) & Hs).
    apply range_body_success_inv in Hb.
    destruct Hb as (len & insn & Hd &
                    [(Hlen & Hlt & ->)|[(Hlen & Hge & ->)|(Hlen & Hge & ->)]]).
    + destruct (TrimSignature_prefix
                  (AddBytesToSignature db (signature st) (currentAddress st)
                     (wrap64 (eaEnd - currentAddress st)) false))
        as (tail & Hp & _).
      eapply transcript_prefix; [exact Hp|].
      rewrite AddBytesToSignature_start, length_app, map_app,
        image_values_app, Hv, instruction_bytes_values,
        instruction_bytes_length, Z.add_0_r.
      f_equal. rewrite Hcur. now rewrite !image_values_wrap.
    + destruct (TrimSignature_prefix (signature st)) as (tail & Hp & _).
      eapply transcript_prefix; eassumption.
    + pose proof (Hwf (currentAddress st)) as Hw. rewrite Hd in Hw.
      simpl in Hw.
      destruct (append_keeps_transcript db eaStart (signature st)
                  (currentAddress st) insn len wo Hlen (Hw Hlen)
                  (conj Hv Hcur) Hs) as ((Hv' & _) & _ & _).
      destruct (TrimSignature_prefix
                  (append_instruction db false (signature st)
                     (currentAddress st) insn len wo)) as (tail & Hp & _).
      eapply transcript_prefix; eassumption.
Qed.

(** ** Ranking with prompting off *)

Lemma successes_in outcomes origin sig :
  In (origin, sig) (successes outcomes) <->
  In (origin, has_value sig) outcomes.
Proof.
  unfold successes. rewrite in_flat_map. split.
  - intros ([o r] & Hin & Hp). simpl in Hp.
    destruct r as [s|e]; [|inversion Hp].
    destruct Hp as [Hp|[]]. inversion Hp; subst. exact Hin.
  - intros Hin. exists (origin, has_value sig). split; [exact Hin|].
    simpl. now left.
Qed.

(** X9. With prompting off the cap bounds the result: outside ARM, with
    well-formed instructions, a signature the growing builder returns has
    at most [maxSignatureLength] + 255 entries, the cap and one
    instruction more; and so has every signature the cross-reference
    ranker returns. *)
Theorem success_within_cap db sf fuel wo co maxlen :
  decoder_well_formed db ->
  0 <= maxlen -> maxlen + 255 < 2 ^ 64 ->
  (forall w ea sig w',
      GenerateUniqueSignatureForEA db false sf fuel w ea wo co maxlen false
        = Some (has_value sig, w') ->
      Z.of_nat (List.length sig) <= maxlen + 255) /\
  (forall w ea result w',
      FindXRefs db false sf fuel w ea wo co [] maxlen = Some (result, w') ->
      Forall (fun p => Z.of_nat (List.length (snd p)) <= maxlen + 255)
             result).
Proof.
  intros Hwf Hmax Hfit.
  assert (Hb : forall w ea sig w',
             GenerateUniqueSignatureForEA db false sf fuel w ea wo co maxlen
               false = Some (has_value sig, w') ->
             Z.of_nat (List.length sig) <= maxlen + 255).
  { intros w ea sig w' H.
    eapply (grow_success_bounded db sf ea wo co maxlen false Hwf);
      try eassumption. reflexivity. }
  split; [exact Hb|].
  intros w ea result w' H. unfold FindXRefs in H.
  destruct (FindXRefs_loop db false sf fuel (xrefs_to db ea) 0
              (count_code_xrefs db (xrefs_to db ea) 0) wo co maxlen [] w)
    as [[found w1]|] eqn:E; [|discriminate].
  inversion H; subst; clear H.
  destruct (FindXRefs_loop_outcomes _ _ _ _ _ _ _ _ _ _ _ _ _ _ E)
    as (outs & _ & Hcalls & ->).
  rewrite Forall_forall. intros [origin sig] Hin. simpl.
  apply (Permutation_in _ (sort_by_size_perm _)) in Hin. simpl in Hin.
  apply successes_in in Hin.
  rewrite Forall_forall in Hcalls. specialize (Hcalls _ Hin).
  destruct Hcalls as (w1' & w2 & Hcall). simpl in Hcall.
  eapply Hb. exact Hcall.
Qed.

Lemma no_prompt_since_refl w : no_prompt_since w w.
Proof.
  split; [reflexivity|]. exists []. now rewrite app_nil_r.
Qed.

Lemma no_prompt_since_trans w1 w2 w3 :
  no_prompt_since w1 w2 -> no_prompt_since w2 w3 -> no_prompt_since w1 w3.
Proof.
  intros (Hp1 & a1 & Ho1 & Hf1) (Hp2 & a2 & Ho2 & Hf2).
  split; [congruence|]. exists (a1 ++ a2).
  rewrite Ho2, Ho1, <- app_assoc. split; [reflexivity|].
  now apply Forall_app.
Qed.

Lemma no_prompt_since_polled w : no_prompt_since w (polled w).
Proof.
  split; [reflexivity|]. exists []. simpl. now rewrite app_nil_r.
Qed.

Lemma no_prompt_since_emit w e :
  is_prompt e = false -> no_prompt_since w (emit w e).
Proof.
  intros H. split; [reflexivity|]. exists [e]. simpl.
  split; [reflexivity|]. now constructor.
Qed.

Lemma grow_body_no_prompt db IS_ARM sf ea wo co maxlen f st :
  match grow_body db IS_ARM sf ea wo co maxlen false f st with
  | Return _ w' => no_prompt_since (world st) w'
  | Continue st' => no_prompt_since (world st) (world st')
  | Hang => True
  end.
Proof.
  unfold grow_body, grow_rest, length_check.
  destruct (user_cancelled db (polls (world st)));
    [apply no_prompt_since_polled|].
  destruct (decode_insn db (currentAddress st)) as [len insn].
  destruct (len <=? 0).
  - destruct (signature st); [apply no_prompt_since_polled|].
    eapply no_prompt_since_trans; [apply no_prompt_since_polled|].
    eapply no_prompt_since_trans; now apply no_prompt_since_emit.
  - destruct (sigPartLength st >? maxlen); [apply no_prompt_since_polled|].
    destruct (IsSignatureUnique db sf _) as [[|]|];
      [apply no_prompt_since_polled| |exact I].
    match goal with |- context [if ?c then _ else _] => destruct c end;
      apply no_prompt_since_polled.
Qed.

Lemma run_loop_no_prompt db IS_ARM sf ea wo co maxlen f fuel :
  forall st r w',
    run_loop (grow_body db IS_ARM sf ea wo co maxlen false f) fuel st
      = Some (r, w') ->
    no_prompt_since (world st) w'.
Proof.
  induction fuel as [|fuel IH]; intros st r w' H; simpl in H;
    [discriminate|].
  pose proof (grow_body_no_prompt db IS_ARM sf ea wo co maxlen f st) as Hb.
  destruct (grow_body db IS_ARM sf ea wo co maxlen false f st)
    as [r0 w0|st1|]; try discriminate.
  - now inversion H; subst.
  - eapply no_prompt_since_trans; [exact Hb|]. eapply IH; exact H.
Qed.

Lemma GenerateUnique_no_prompt db IS_ARM sf fuel w ea wo co maxlen r w' :
  GenerateUniqueSignatureForEA db IS_ARM sf fuel w ea wo co maxlen false
    = Some (r, w') ->
  no_prompt_since w w'.
Proof.
  unfold GenerateUniqueSignatureForEA. intros H.
  destruct (ea =? BADADDR);
    [inversion H; apply no_prompt_since_refl|].
  destruct (negb (is_code db ea));
    [inversion H; apply no_prompt_since_refl|].
  apply run_loop_no_prompt in H. exact H.
Qed.

(** X12. The cross-reference ranker never asks the user anything: it
    calls the growing builder with prompting off, and between the start
    and the end of a ranking the count of prompts is unchanged and
    nothing written is a prompt, however long the signatures grow. *)
Theorem ranking_never_prompts db IS_ARM sf fuel w ea wo co given cap
    result w' :
  FindXRefs db IS_ARM sf fuel w ea wo co given cap = Some (result, w') ->
  no_prompt_since w w'.
Proof.
  unfold FindXRefs.
  generalize (count_code_xrefs db (xrefs_to db ea) 0) as total.
  generalize 0 at 1 as i. revert w given.
  induction (xrefs_to db ea) as [|from rest IH];
    intros w given i total H; simpl in H.
  - inversion H; subst. apply no_prompt_since_refl.
  - destruct (negb (is_code db from)).
    + eapply IH; exact H.
    + destruct (GenerateUniqueSignatureForEA db IS_ARM sf fuel
                  (emit w (wait_box_xref (wrap64 (i + 1)) total))
                  from wo co cap false) as [[r w2]|] eqn:E;
        [|discriminate].
      apply GenerateUnique_no_prompt in E.
      eapply no_prompt_since_trans;
        [apply (no_prompt_since_emit w (wait_box_xref (wrap64 (i + 1)) total));
         reflexivity|].
      eapply no_prompt_since_trans; [exact E|].
      destruct r as [signature|e]; eapply IH; exact H.
Qed.

(** ** Matching by derivatives, on the texts of signatures *)

Lemma regex_match_Never s : regex_match Never s = false.
Proof. induction s; simpl; auto. Qed.

Lemma longest_match_Never s : longest_match Never s = None.
Proof. induction s as [|c s IH]; simpl; [reflexivity|now rewrite IH]. Qed.

Lemma longest_match_Eps s : longest_match Eps s = Some O.
Proof. destruct s; simpl; [reflexivity|]. now rewrite longest_match_Never. Qed.

Lemma regex_match_Star_Sym p s :
  regex_match (Star (Sym p)) s = string_forall p s.
Proof.
  induction s as [|c s IH]; simpl; [reflexivity|].
  destruct (p c); simpl; [exact IH|apply regex_match_Never].
Qed.

Lemma regex_match_Plus_Sym p c s :
  regex_match (Plus (Sym p)) (String c s) = p c && string_forall p s.
Proof.
  simpl. destruct (p c); simpl;
    [apply regex_match_Star_Sym|apply regex_match_Never].
Qed.

Lemma string_forall_app p a b :
  string_forall p (a ++ b)%string = string_forall p a && string_forall p b.
Proof.
  induction a as [|c a IH]; simpl; [reflexivity|].
  now rewrite IH, andb_assoc.
Qed.

Lemma in_set_In set c : in_set set c = true -> In c (list_ascii_of_string set).
Proof.
  unfold in_set. intros H. apply existsb_exists in H.
  destruct H as (x & Hin & He). apply Ascii.eqb_eq in He. now subst.
Qed.

Ltac each_char H :=
  apply in_set_In in H; simpl in H;
  repeat (destruct H as [H|H]; [subst|]); [..|contradiction].

Lemma hex_digit_in n :
  0 <= n < 16 -> in_set "0123456789ABCDEF" (hex_digit n) = true.
Proof.
  intros H. unfold hex_digit.
  remember (Z.to_nat n) as k eqn:E.
  assert (Hk : (k < 16)%nat) by lia. clear E.
  do 16 (destruct k as [|k]; [reflexivity|]). lia.
Qed.

Lemma hex_byte_chars v :
  exists c1 c2,
    hex_byte v = String c1 (String c2 EmptyString) /\
    in_set "0123456789ABCDEF" c1 = true /\
    in_set "0123456789ABCDEF" c2 = true.
Proof.
  unfold hex_byte. eexists _, _. split; [reflexivity|].
  split; apply hex_digit_in.
  - assert (0 <= v mod 256 < 256) by (apply Z.mod_pos_bound; lia).
    split; [apply Z.div_pos; lia|apply Z.div_lt_upper_bound; lia].
  - apply Z.mod_pos_bound; lia.
Qed.

(** The step of a match over one cell. *)
Lemma regex_match_hex_cell c1 c2 rest :
  in_set "0123456789ABCDEF" c1 = true ->
  in_set "0123456789ABCDEF" c2 = true ->
  regex_match rx_ida (String c1 (String c2 (String " " rest)))
  = regex_match rx_ida_next rest /\
  regex_match rx_ida_next (String c1 (String c2 (String " " rest)))
  = regex_match rx_ida_next rest.
Proof.
  intros H1 H2. each_char H1; each_char H2; split; reflexivity.
Qed.

Lemma regex_match_wild_cell rest :
  regex_match rx_ida (String "?" (String " " rest))
  = regex_match rx_ida_next rest /\
  regex_match rx_ida_next (String "?" (String " " rest))
  = regex_match rx_ida_next rest.
Proof. split; reflexivity. Qed.

Lemma regex_match_cells sig :
  regex_match rx_ida_next (cells "?" sig) = true /\
  (sig <> [] -> regex_match rx_ida (cells "?" sig) = true).
Proof.
  induction sig as [|b sig (IH & _)]; [split; [reflexivity|congruence]|].
  cbn [cells]. destruct (isWildcard b).
  - cbn [String.append].
    destruct (regex_match_wild_cell (cells "?" sig)) as (E1 & E2).
    rewrite E1, E2. now split.
  - destruct (hex_byte_chars (value b)) as (c1 & c2 & -> & H1 & H2).
    cbn [String.append].
    destruct (regex_match_hex_cell c1 c2 (cells "?" sig) H1 H2) as (E1 & E2).
    rewrite E1, E2. now split.
Qed.

(** Replacing the double question marks, cell by cell. *)
Lemma replace_hex_cell c1 c2 rest :
  in_set "0123456789ABCDEF" c1 = true ->
  in_set "0123456789ABCDEF" c2 = true ->
  regex_replace rx_double_wildcard "? " O
    (String c1 (String c2 (String " " rest)))
  = String c1 (String c2 (String " "
      (regex_replace rx_double_wildcard "? " O rest))).
Proof.
  intros H1 H2. each_char H1; each_char H2;
    cbn [regex_replace longest_match deriv rx_double_wildcard chr nullable
         cat or Ascii.eqb Bool.eqb andb orb];
    rewrite !longest_match_Never; reflexivity.
Qed.

Lemma replace_single_cell rest :
  regex_replace rx_double_wildcard "? " O (String "?" (String " " rest))
  = String "?" (String " " (regex_replace rx_double_wildcard "? " O rest)).
Proof.
  cbn [regex_replace longest_match deriv rx_double_wildcard chr nullable
       cat or Ascii.eqb Bool.eqb andb orb].
  rewrite !longest_match_Never. reflexivity.
Qed.

Lemma replace_double_cell rest :
  regex_replace rx_double_wildcard "? " O
    (String "?" (String "?" (String " " rest)))
  = String "?" (String " " (regex_replace rx_double_wildcard "? " O rest)).
Proof.
  cbn [regex_replace longest_match deriv rx_double_wildcard chr nullable
       cat or Ascii.eqb Bool.eqb andb orb].
  rewrite longest_match_Eps. reflexivity.
Qed.

Lemma replace_cells wild sig :
  wild = "?" \/ wild = "??" ->
  regex_replace rx_double_wildcard "? " O (cells wild sig) = cells "?" sig.
Proof.
  intros Hw. induction sig as [|b sig IH]; [reflexivity|].
  cbn [cells]. destruct (isWildcard b).
  - destruct Hw as [->| ->]; cbn [String.append].
    + now rewrite replace_single_cell, IH.
    + now rewrite replace_double_cell, IH.
  - destruct (hex_byte_chars (value b)) as (c1 & c2 & -> & H1 & H2).
    cbn [String.append]. now rewrite (replace_hex_cell _ _ _ H1 H2), IH.
Qed.

(** Texts over the characters of a signature hold no mask and no
    braces. *)
Lemma no_string_mask s :
  string_forall (in_set "0123456789ABCDEF? ") s = true ->
  regex_search rx_string_mask s = None.
Proof.
  induction s as [|c s IH]; intros H; [reflexivity|].
  simpl in H. apply andb_prop in H. destruct H as [Hc Hs].
  cbn [regex_search]. rewrite (IH Hs).
  each_char Hc;
    cbn [longest_match deriv rx_string_mask chr Plus nullable cat or
         Ascii.eqb Bool.eqb andb orb];
    rewrite longest_match_Never; reflexivity.
Qed.

Lemma no_bitmask s :
  string_forall (in_set "0123456789ABCDEF? ") s = true ->
  regex_search rx_bitmask s = None.
Proof.
  induction s as [|c s IH]; intros H; [reflexivity|].
  simpl in H. apply andb_prop in H. destruct H as [Hc Hs].
  cbn [regex_search]. rewrite (IH Hs).
  assert (Hn : longest_match rx_bitmask (String c s) = None);
    [|now rewrite Hn].
  each_char Hc;
    cbn [longest_match deriv rx_bitmask chr Plus nullable cat or
         Ascii.eqb Bool.eqb andb orb];
    try (rewrite longest_match_Never; reflexivity).
  destruct s as [|d s]; [reflexivity|].
  simpl in Hs. apply andb_prop in Hs. destruct Hs as [Hd _].
  each_char Hd;
    cbn [longest_match deriv chr Plus nullable cat or
         Ascii.eqb Bool.eqb andb orb];
    rewrite longest_match_Never; reflexivity.
Qed.

Lemma no_braces s :
  string_forall (in_set "0123456789ABCDEF? ") s = true ->
  regex_replace rx_braces EmptyString O s = s.
Proof.
  induction s as [|c s IH]; intros H; [reflexivity|].
  simpl in H. apply andb_prop in H. destruct H as [Hc Hs].
  cbn [regex_replace].
  assert (Hn : longest_match rx_braces (String c s) = None).
  { each_char Hc;
      cbn [longest_match deriv rx_braces one_of Plus nullable cat or];
      simpl; rewrite longest_match_Never; reflexivity. }
  rewrite Hn. now rewrite (IH Hs).
Qed.

Lemma no_leading_space c s :
  in_set "0123456789ABCDEF?" c = true ->
  regex_replace_at_start rx_spaces EmptyString (String c s) = String c s.
Proof.
  intros Hc. unfold regex_replace_at_start.
  assert (Hn : longest_match rx_spaces (String c s) = None).
  { each_char Hc;
      cbn [longest_match deriv rx_spaces space Plus nullable cat or];
      simpl; rewrite longest_match_Never; reflexivity. }
  now rewrite Hn.
Qed.

(** Stripping the tail of question marks and spaces. *)
Lemma strip_tail a c tail :
  in_set "? " c = false ->
  string_forall (in_set "? ") tail = true ->
  regex_replace_at_end rx_tail EmptyString
    ((a ++ String c EmptyString) ++ tail)%string
  = (a ++ String c EmptyString)%string.
Proof.
  intros Hc Ht.
  change rx_tail with (Plus (Sym (in_set "? "))).
  induction a as [|e a IH]; cbn [String.append regex_replace_at_end].
  - rewrite regex_match_Plus_Sym, Hc. simpl. f_equal.
    destruct tail as [|d tail]; [reflexivity|].
    cbn [regex_replace_at_end]. rewrite regex_match_Plus_Sym.
    simpl in Ht. now rewrite Ht.
  - rewrite regex_match_Plus_Sym, !string_forall_app. simpl.
    rewrite Hc. simpl. rewrite andb_false_r, andb_false_r.
    f_equal. exact IH.
Qed.

(** The shape of the text of a signature. *)
Lemma string_app_assoc (a b c : string) :
  ((a ++ b) ++ c = a ++ (b ++ c))%string.
Proof. induction a as [|x a IH]; simpl; [reflexivity|now rewrite IH]. Qed.

Lemma string_app_nil (a : string) : (a ++ EmptyString)%string = a.
Proof. induction a as [|x a IH]; simpl; [reflexivity|now rewrite IH]. Qed.

Lemma token_text_cons wild b b' rest :
  token_text wild (b :: b' :: rest)
  = ((if isWildcard b then wild else hex_byte (value b))
     ++ String " " (token_text wild (b' :: rest)))%string.
Proof. reflexivity. Qed.

Lemma token_text_one wild b :
  token_text wild [b] = if isWildcard b then wild else hex_byte (value b).
Proof. reflexivity. Qed.

Lemma token_text_space wild sig :
  sig <> [] -> (token_text wild sig ++ String " " EmptyString)%string
               = cells wild sig.
Proof.
  induction sig as [|b sig IH]; [congruence|]. intros _.
  destruct sig as [|b' sig].
  - rewrite token_text_one. reflexivity.
  - rewrite token_text_cons, string_app_assoc. cbn [String.append cells].
    cbn [cells] in IH. rewrite IH by discriminate. reflexivity.
Qed.

Lemma token_chars wild b :
  wild = "?" \/ wild = "??" ->
  string_forall (in_set "0123456789ABCDEF? ")
    (if isWildcard b then wild else hex_byte (value b)) = true /\
  exists c rest,
    (if isWildcard b then wild else hex_byte (value b)) = String c rest /\
    in_set "0123456789ABCDEF?" c = true.
Proof.
  intros Hw. destruct (isWildcard b).
  - destruct Hw as [->| ->]; (split; [reflexivity|]);
      eexists _, _; (split; [reflexivity|reflexivity]).
  - destruct (hex_byte_chars (value b)) as (c1 & c2 & -> & H1 & H2).
    split.
    + each_char H1; each_char H2; reflexivity.
    + exists c1, (String c2 EmptyString). split; [reflexivity|].
      each_char H1; reflexivity.
Qed.

Lemma token_text_chars wild sig :
  wild = "?" \/ wild = "??" ->
  string_forall (in_set "0123456789ABCDEF? ") (token_text wild sig) = true.
Proof.
  intros Hw. induction sig as [|b sig IH]; [reflexivity|].
  destruct (token_chars wild b Hw) as (Hb & _).
  destruct sig as [|b' sig].
  - now rewrite token_text_one.
  - rewrite token_text_cons, string_forall_app, Hb. simpl. exact IH.
Qed.

Lemma token_text_head wild b sig :
  wild = "?" \/ wild = "??" ->
  exists c rest,
    token_text wild (b :: sig) = String c rest /\
    in_set "0123456789ABCDEF?" c = true.
Proof.
  intros Hw. destruct (token_chars wild b Hw) as (_ & c & r & E & Hc).
  destruct sig as [|b' sig].
  - rewrite token_text_one, E. now exists c, r.
  - rewrite token_text_cons, E. cbn [String.append].
    eexists _, _. split; [reflexivity|exact Hc].
Qed.

Lemma wildcard_tail_chars wild tail :
  wild = "?" \/ wild = "??" ->
  Forall (fun b => isWildcard b = true) tail ->
  string_forall (in_set "? ") (token_text wild tail) = true.
Proof.
  intros Hw. induction 1 as [|b tail Hb _ IH]; [reflexivity|].
  destruct tail as [|b' tail].
  - rewrite token_text_one, Hb. now destruct Hw as [->| ->].
  - rewrite token_text_cons, Hb, string_forall_app. simpl.
    rewrite IH. now destruct Hw as [->| ->].
Qed.

Lemma token_text_app_wildcards wild kept tail :
  wild = "?" \/ wild = "??" ->
  kept <> [] ->
  Forall (fun b => isWildcard b = true) tail ->
  exists X,
    token_text wild (kept ++ tail) = (token_text wild kept ++ X)%string /\
    string_forall (in_set "? ") X = true.
Proof.
  intros Hw Hk Ht. induction kept as [|b kept IH]; [congruence|].
  destruct kept as [|b' kept].
  - destruct tail as [|t tail].
    + exists EmptyString. now rewrite string_app_nil.
    + exists (String " " (token_text wild (t :: tail))). split.
      * reflexivity.
      * simpl. now apply wildcard_tail_chars.
  - destruct IH as (X & E & HX); [discriminate|].
    exists X. split; [|exact HX].
    change ((b :: b' :: kept) ++ tail) with (b :: b' :: (kept ++ tail)).
    rewrite !token_text_cons.
    change (b' :: kept ++ tail) with ((b' :: kept) ++ tail).
    rewrite E, string_app_assoc. reflexivity.
Qed.

Lemma token_text_last_literal wild front b :
  isWildcard b = false ->
  exists a c,
    token_text wild (front ++ [b]) = (a ++ String c EmptyString)%string /\
    in_set "? " c = false.
Proof.
  intros Hb. induction front as [|f front (a & c & E & Hc)].
  - simpl. rewrite token_text_one, Hb.
    destruct (hex_byte_chars (value b)) as (c1 & c2 & -> & _ & H2).
    exists (String c1 EmptyString), c2. split; [reflexivity|].
    each_char H2; reflexivity.
  - destruct (front ++ [b]) as [|x l] eqn:El.
    + destruct front; discriminate.
    + change ((f :: front) ++ [b]) with (f :: (front ++ [b])).
      rewrite El, token_text_cons, E.
      exists ((if isWildcard f then wild else hex_byte (value f))
              ++ String " " a)%string, c.
      split; [|exact Hc]. rewrite string_app_assoc. reflexivity.
Qed.

(** The conversion of a text of tokens: the trailing wildcards are
    stripped, the double question marks folded, one space added. *)
Lemma convert_token_text wild sig w :
  wild = "?" \/ wild = "??" ->
  TrimSignature sig <> [] ->
  convert_signature_string (token_text wild sig) w
  = ((token_text "?" (TrimSignature sig) ++ String " " EmptyString)%string, w).
Proof.
  intros Hw Hne.
  destruct (TrimSignature_prefix sig) as (tail & Hs & Htail).
  pose proof (TrimSignature_no_trailing_wildcard sig) as Hlast.
  remember (TrimSignature sig) as kept eqn:Ek. clear Ek.
  pose proof (token_text_chars wild sig Hw) as Hchars.
  unfold convert_signature_string, detect_mask.
  rewrite (no_string_mask _ Hchars), (no_bitmask _ Hchars).
  unfold convert_without_mask. rewrite (no_braces _ Hchars).
  destruct sig as [|b0 sig0]; [destruct kept; [congruence|discriminate]|].
  destruct (token_text_head wild b0 sig0 Hw) as (c0 & r0 & E0 & Hc0).
  rewrite E0, (no_leading_space _ _ Hc0), <- E0, Hs.
  destruct (token_text_app_wildcards wild kept tail Hw Hne Htail)
    as (X & EX & HX).
  rewrite EX.
  destruct (exists_last Hne) as (front & b & Ekept).
  assert (Hb : isWildcard b = false) by (apply (Hlast front); exact Ekept).
  destruct (token_text_last_literal wild front b Hb) as (a & c & Ea & Hc).
  rewrite Ekept, Ea, (strip_tail a c X Hc HX), <- Ea, <- Ekept.
  rewrite (token_text_space wild kept Hne), (replace_cells wild kept Hw).
  destruct (regex_match_cells kept) as (_ & Hm). rewrite (Hm Hne).
  now rewrite (token_text_space "?" kept Hne).
Qed.

(** ** Finding the bitmask *)

Lemma substring_whole (s : string) : substring 0 (String.length s) s = s.
Proof. induction s as [|c s IH]; simpl; [reflexivity|now rewrite IH]. Qed.

Lemma substring_prefix (a b : string) :
  substring 0 (String.length a) (a ++ b)%string = a.
Proof.
  induction a as [|c a IH]; simpl.
  - now destruct b.
  - now rewrite IH.
Qed.

Lemma bit_text_length bits :
  String.length (bit_text bits) = List.length bits.
Proof.
  unfold bit_text. induction bits as [|b bits IH]; simpl;
    [reflexivity|now rewrite IH].
Qed.

Lemma bitmask_digits bits rest :
  rest = EmptyString \/
  (exists c r, rest = String c r /\ in_set "0,1" c = false) ->
  longest_match (Star (one_of "0,1")) (bit_text bits ++ rest)%string
  = Some (List.length bits).
Proof.
  intros Hrest. induction bits as [|b bits IH].
  - simpl. destruct Hrest as [->|(c & r & -> & Hc)]; [reflexivity|].
    cbn [longest_match deriv one_of nullable].
    change (existsb (Ascii.eqb c) (list_ascii_of_string "0,1"))
      with (in_set "0,1" c).
    rewrite Hc. cbn [cat]. now rewrite longest_match_Never.
  - change (bit_text (b :: bits) ++ rest)%string
      with (String (if b then "1" else "0")%char (bit_text bits ++ rest)).
    cbn [longest_match].
    assert (E : deriv (if b then "1" else "0")%char (Star (one_of "0,1"))
                = Star (one_of "0,1")) by (destruct b; reflexivity).
    rewrite E, IH. reflexivity.
Qed.

Lemma bitmask_here bits rest :
  bits <> [] ->
  rest = EmptyString \/
  (exists c r, rest = String c r /\ in_set "0,1" c = false) ->
  longest_match rx_bitmask
    (String "0" (String "b" (bit_text bits ++ rest)))%string
  = Some (2 + List.length bits)%nat.
Proof.
  intros Hb Hrest. destruct bits as [|b bits]; [congruence|].
  change (bit_text (b :: bits) ++ rest)%string
    with (String (if b then "1" else "0")%char (bit_text bits ++ rest)).
  cbn [longest_match].
  assert (E : deriv (if b then "1" else "0")%char
                (deriv "b" (deriv "0" rx_bitmask))
              = Star (one_of "0,1")) by (destruct b; reflexivity).
  rewrite E, (bitmask_digits bits rest Hrest). reflexivity.
Qed.

Lemma bitmask_not_before c s :
  Ascii.eqb c "b" = false ->
  (s = EmptyString \/ exists d r, s = String d r /\ Ascii.eqb d "b" = false) ->
  longest_match rx_bitmask (String c s) = None.
Proof.
  intros Hc Hs. cbn [longest_match deriv rx_bitmask chr nullable andb].
  destruct (Ascii.eqb "0" c); cbn [cat].
  - destruct Hs as [->|(d & r & -> & Hd)]; [reflexivity|].
    cbn [longest_match deriv chr nullable andb Plus].
    rewrite Ascii.eqb_sym in Hd. rewrite Hd.
    cbn [cat]. now rewrite longest_match_Never.
  - now rewrite longest_match_Never.
Qed.

Lemma bitmask_search pre bits rest :
  string_forall (fun c => negb (Ascii.eqb c "b")) pre = true ->
  bits <> [] ->
  rest = EmptyString \/
  (exists c r, rest = String c r /\ in_set "0,1" c = false) ->
  regex_search rx_bitmask
    (pre ++ String "0" (String "b" (bit_text bits ++ rest)))%string
  = Some (String "0" (String "b" (bit_text bits))).
Proof.
  intros Hpre Hb Hrest. induction pre as [|c pre IH].
  - cbn [String.append regex_search].
    rewrite (bitmask_here bits rest Hb Hrest).
    change (2 + List.length bits)%nat with (S (S (List.length bits))).
    cbn [substring]. rewrite <- bit_text_length.
    now rewrite substring_prefix.
  - simpl in Hpre. apply andb_prop in Hpre. destruct Hpre as [Hc Hpre].
    apply negb_true_iff in Hc.
    cbn [String.append regex_search].
    rewrite bitmask_not_before; [now apply IH|exact Hc|].
    right. destruct pre as [|d pre].
    + eexists _, _. split; [reflexivity|reflexivity].
    + simpl in Hpre. apply andb_prop in Hpre. destruct Hpre as [Hd _].
      apply negb_true_iff in Hd.
      eexists _, _. split; [reflexivity|exact Hd].
Qed.

(** ** What a search does with a text *)

Lemma fold_emit_matches (l : list ea_t) (w : World) :
  fold_left (fun w ea => emit w (msg_match ea)) l w
  = {| polls := polls w; prompts := prompts w;
       output := output w ++ map msg_match l |}.
Proof.
  revert w. induction l as [|a l IH]; intros w; simpl.
  - rewrite app_nil_r. now destruct w.
  - rewrite IH. simpl. now rewrite <- app_assoc.
Qed.

(** X13. A text of byte tokens, two uppercase hex digits or a wildcard,
    separated by single spaces, is taken as a signature in IDA style
    whether its wildcards are written with one question mark or, as in
    x64Dbg style, with two: the trailing wildcards are dropped, double
    question marks become single ones, one space is added at the end,
    and that text is what is printed and searched for.  Every occurrence
    found is then reported once, in the order found, or the one line
    that the signature does not match. *)
Theorem search_token_text db fuel wild sig w :
  wild = "?" \/ wild = "??" ->
  TrimSignature sig <> [] ->
  let text :=
    (token_text "?" (TrimSignature sig) ++ String " " EmptyString)%string in
  convert_signature_string (token_text wild sig) w = (text, w) /\
  forall found,
    FindSignatureOccurences db fuel text = Some found ->
    SearchSignatureString db fuel (token_text wild sig) w
    = Some {| polls := polls w; prompts := prompts w;
              output := output w
                ++ msg_signature text
                   :: match found with
                      | [] => [msg_no_match]
                      | _ => map msg_match found
                      end |}.
Proof.
  intros Hw Hne text.
  pose proof (convert_token_text wild sig w Hw Hne) as Hc.
  split; [exact Hc|].
  intros found Hf. unfold SearchSignatureString. rewrite Hc.
  assert (Ht : exists c r, text = String c r).
  { subst text. destruct (token_text "?" (TrimSignature sig));
      eexists _, _; reflexivity. }
  destruct Ht as (c & r & Ht). fold text. rewrite Ht, <- Ht, Hf.
  destruct found as [|a found].
  - unfold emit. simpl. now rewrite <- app_assoc.
  - rewrite fold_emit_matches. unfold emit. simpl.
    now rewrite <- app_assoc.
Qed.

(** X14. When the text holds no string mask, the first [0b] literal
    gives the mask, read from its last digit to its first: the digit on
    the right stands for the first byte, a 1 for a literal and a 0 for a
    wildcard. *)
Theorem bitmask_reversed pre bits rest :
  let input :=
    (pre ++ String "0" (String "b" (bit_text bits ++ rest)))%string in
  regex_search rx_string_mask input = None ->
  string_forall (fun c => negb (Ascii.eqb c "b")) pre = true ->
  bits <> [] ->
  rest = EmptyString \/
  (exists c r, rest = String c r /\ in_set "0,1" c = false) ->
  detect_mask input = mask_text (rev bits).
Proof.
  intros input Hmask Hpre Hb Hrest. unfold detect_mask.
  rewrite Hmask. subst input.
  rewrite (bitmask_search pre bits rest Hpre Hb Hrest).
  unfold substr2. cbn [String.length Nat.sub substring].
  rewrite Nat.sub_0_r, substring_whole.
  unfold bit_text, mask_text.
  rewrite list_ascii_of_string_of_list_ascii, <- map_rev, map_map.
  f_equal. apply map_ext. intros b. now destruct b.
Qed.

Lemma bytes_with_mask_length tokens mask k :
  List.length (bytes_with_mask tokens mask k) = List.length tokens.
Proof.
  revert k. induction tokens as [|m tokens IH]; intros k; simpl;
    [reflexivity|now rewrite IH].
Qed.

Lemma bytes_with_mask_nth tokens mask : forall k i b,
  nth_error (bytes_with_mask tokens mask k) i = Some b ->
  exists m,
    nth_error tokens i = Some m /\
    value b = wrap8 (stoi16 (substr2 m)) /\
    isWildcard b = match String.get (k + i) mask with
                   | Some c => Ascii.eqb c "?"
                   | None => false
                   end.
Proof.
  induction tokens as [|m tokens IH]; intros k i b H.
  - destruct i; discriminate.
  - destruct i as [|i]; simpl in H.
    + inversion H; subst. exists m. simpl. rewrite Nat.add_0_r.
      now repeat split.
    + destruct (IH _ _ _ H) as (m' & Hm & Hv & Hw).
      exists m'. simpl. split; [exact Hm|]. split; [exact Hv|].
      rewrite Hw. now replace (S k + i)%nat with (k + S i)%nat by lia.
Qed.

(** X15. With a mask detected, the bytes written as [\xNN] are taken if
    there are exactly as many of them as the mask has characters, else
    the bytes written as [0xNN] if their number fits; the signature then
    has one entry for each mask character, a wildcard exactly where the
    mask has a question mark, with the value of the byte at that place.
    When neither number fits, the mask is named in an error and nothing
    is converted. *)
Theorem masked_conversion input w :
  let mask := detect_mask input in
  let escaped := regex_matches rx_escaped_bytes O input in
  let cbytes := regex_matches rx_c_bytes O input in
  mask <> EmptyString ->
  (forall tokens,
      (tokens = escaped \/
       (List.length escaped <> String.length mask /\ tokens = cbytes)) ->
      List.length tokens = String.length mask ->
      convert_signature_string input w
      = (BuildIDASignatureString (bytes_with_mask tokens mask O), w) /\
      List.length (bytes_with_mask tokens mask O) = String.length mask /\
      forall i b,
        nth_error (bytes_with_mask tokens mask O) i = Some b ->
        exists m,
          nth_error tokens i = Some m /\
          value b = wrap8 (stoi16 (substr2 m)) /\
          (isWildcard b = true <-> String.get i mask = Some "?"%char)) /\
  (List.length escaped <> String.length mask ->
   List.length cbytes <> String.length mask ->
   convert_signature_string input w
   = (EmptyString, emit w (msg_detected_mask mask))).
Proof.
  intros mask escaped cbytes Hmask.
  assert (Hconv : convert_signature_string input w
                  = convert_with_mask input mask w).
  { unfold convert_signature_string. fold mask.
    destruct mask; [congruence|reflexivity]. }
  assert (Hpos : (0 < String.length mask)%nat)
    by (destruct mask; [congruence|simpl; lia]).
  split.
  - intros tokens Htok Hlen. split; [|split].
    + rewrite Hconv. unfold convert_with_mask, GetRegexMatches.
      fold escaped cbytes.
      destruct Htok as [->|(Hne & ->)].
      * assert (Hf : match escaped with [] => false | _ => true end = true)
          by (destruct escaped; [simpl in Hlen; lia|reflexivity]).
        apply Nat.eqb_eq in Hlen. now rewrite Hf, Hlen.
      * assert (Hf : match cbytes with [] => false | _ => true end = true)
          by (destruct cbytes; [simpl in Hlen; lia|reflexivity]).
        apply Nat.eqb_neq in Hne. rewrite Hne, andb_false_r.
        apply Nat.eqb_eq in Hlen. now rewrite Hf, Hlen.
    + now rewrite bytes_with_mask_length.
    + intros i b Hb.
      destruct (bytes_with_mask_nth _ _ _ _ _ Hb) as (m & Hm & Hv & Hw).
      exists m. split; [exact Hm|]. split; [exact Hv|].
      simpl in Hw. rewrite Hw.
      destruct (String.get i mask) as [c|].
      * split.
        -- intros E. apply Ascii.eqb_eq in E. now subst.
        -- intros E. inversion E. reflexivity.
      * split; discriminate.
  - intros H1 H2. rewrite Hconv. unfold convert_with_mask, GetRegexMatches.
    fold escaped cbytes.
    apply Nat.eqb_neq in H1, H2. now rewrite H1, H2, !andb_false_r.
Qed.

(** ** Cancelling *)

Lemma grow_cancelled db IS_ARM sf ea wo co maxlen ask f st :
  user_cancelled db (polls (world st)) = true ->
  grow_body db IS_ARM sf ea wo co maxlen ask f st
  = Return (unexpected Aborted) (polled (world st)).
Proof. intros H. unfold grow_body. now rewrite H. Qed.

Lemma GenerateUnique_cancelled db IS_ARM sf fuel w ea wo co maxlen ask :
  (forall n, user_cancelled db n = true) ->
  is_code db ea = true ->
  GenerateUniqueSignatureForEA db IS_ARM sf (S fuel) w ea wo co maxlen ask
  = Some (if ea =? BADADDR
          then (unexpected InvalidAddress, w)
          else (unexpected Aborted, polled w)).
Proof.
  intros Hc Hcode. unfold GenerateUniqueSignatureForEA.
  destruct (ea =? BADADDR); [reflexivity|].
  rewrite Hcode. simpl. now rewrite grow_cancelled by apply Hc.
Qed.

Lemma FindXRefs_loop_cancelled db IS_ARM sf fuel wo co maxlen origins :
  (forall n, user_cancelled db n = true) ->
  forall k i total w,
    i = wrap64 (Z.of_nat k) ->
    exists w',
      FindXRefs_loop db IS_ARM sf (S fuel) origins i total wo co maxlen [] w
      = Some ([], w') /\
      output w' = output w ++ progress_boxes db origins k total /\
      polls w'
      = (polls w + List.length (filter (enters_loop db) origins))%nat /\
      prompts w' = prompts w.
Proof.
  intros Hc. induction origins as [|from rest IH]; intros k i total w Hi.
  - exists w. simpl. rewrite app_nil_r. repeat split. lia.
  - assert (Hnext : wrap64 (i + 1) = wrap64 (Z.of_nat (S k)))
      by (rewrite Hi, wrap64_succ; f_equal; lia).
    cbn [FindXRefs_loop]. rewrite progress_boxes_cons.
    unfold enters_loop at 1. cbn [filter].
    destruct (is_code db from) eqn:Hcode; cbn [negb andb].
    + rewrite (GenerateUnique_cancelled db IS_ARM sf fuel _ from wo co
                 maxlen false Hc Hcode).
      destruct (from =? BADADDR); cbn [negb].
      * destruct (IH (S k) _ total
                    (emit w (wait_box_xref (wrap64 (i + 1)) total)) Hnext)
          as (w' & E & Ho & Hp & Hq).
        exists w'. rewrite E, Ho, Hp, Hq. cbn [emit output polls prompts].
        rewrite Hi, wrap64_succ, <- app_assoc. repeat split.
      * destruct (IH (S k) _ total
                    (polled (emit w (wait_box_xref (wrap64 (i + 1)) total)))
                    Hnext)
          as (w' & E & Ho & Hp & Hq).
        exists w'. rewrite E, Ho, Hp, Hq.
        cbn [emit polled output polls prompts List.length].
        rewrite Hi, wrap64_succ, <- app_assoc.
        split; [reflexivity|]. split; [reflexivity|].
        split; [unfold enters_loop; simpl; lia|reflexivity].
    + destruct (IH (S k) _ total w Hnext) as (w' & E & Ho & Hp & Hq).
      exists w'. rewrite E, Ho, Hp, Hq. repeat split.
Qed.

(** X16. Once the user has cancelled, both builders fail with Aborted at
    their first poll, before anything is decoded or written.  The
    cross-reference ranker itself never looks at the cancel event: it
    still goes through every origin, shows the progress box of each code
    origin, calls the builder for it, which fails (with one poll, or on
    the address sentinel with none), and comes back with an empty
    ranking, having written nothing else and prompted nobody. *)
Theorem cancelled_run db IS_ARM sf fuel w ea wo co maxlen ask :
  (forall n, user_cancelled db n = true) ->
  (0 < fuel)%nat ->
  (ea <> BADADDR -> is_code db ea = true ->
   GenerateUniqueSignatureForEA db IS_ARM sf fuel w ea wo co maxlen ask
   = Some (unexpected Aborted, polled w)) /\
  (forall eaEnd,
      ea <> BADADDR -> eaEnd <> BADADDR -> is_code db ea = true ->
      GenerateSignatureForEARange db IS_ARM fuel w ea eaEnd wo
      = Some (unexpected Aborted, polled w)) /\
  (* every call the ranker makes fails *)
  (forall w1 from,
      is_code db from = true ->
      GenerateUniqueSignatureForEA db IS_ARM sf fuel w1 from wo co maxlen
        false
      = Some (if from =? BADADDR
              then (unexpected InvalidAddress, w1)
              else (unexpected Aborted, polled w1))) /\
  (* and it makes all of them *)
  (exists w',
      FindXRefs db IS_ARM sf fuel w ea wo co [] maxlen = Some ([], w') /\
      output w'
      = output w
        ++ progress_boxes db (xrefs_to db ea) 0
             (count_code_xrefs db (xrefs_to db ea) 0) /\
      polls w'
      = (polls w
         + List.length (filter (enters_loop db) (xrefs_to db ea)))%nat /\
      prompts w' = prompts w).
Proof.
  intros Hc Hfuel. destruct fuel as [|fuel]; [lia|].
  split; [|split; [|split]].
  - intros Hea Hcode.
    rewrite (GenerateUnique_cancelled db IS_ARM sf fuel w ea wo co maxlen
               ask Hc Hcode).
    apply Z.eqb_neq in Hea. now rewrite Hea.
  - intros eaEnd Hea Hend Hcode. unfold GenerateSignatureForEARange.
    apply Z.eqb_neq in Hea, Hend. rewrite Hea, Hend, Hcode. simpl.
    unfold range_body. simpl. now rewrite Hc.
  - intros w1 from Hcode. now apply GenerateUnique_cancelled.
  - unfold FindXRefs.
    destruct (FindXRefs_loop_cancelled db IS_ARM sf fuel wo co maxlen
                (xrefs_to db ea) Hc 0%nat 0
                (count_code_xrefs db (xrefs_to db ea) 0) w eq_refl)
      as (w' & E & Ho & Hp & Hq).
    exists w'. rewrite E. now repeat split.
Qed.

(** ** Staying inside the function *)

Lemma grow_body_continue_scope db IS_ARM sf ea wo maxlen ask f st st' :
  grow_body db IS_ARM sf ea wo false maxlen ask (Some f) st = Continue st' ->
  get_func db (currentAddress st') = Some f.
Proof.
  unfold grow_body, grow_rest. intros H.
  destruct (user_cancelled db (polls (world st))); [discriminate|].
  destruct (decode_insn db (currentAddress st)) as [len insn].
  destruct (len <=? 0); [destruct (signature st); discriminate|].
  destruct (length_check db ea maxlen ask (signature st) (sigPartLength st)
              (polled (world st))) as [[r w]|[spl w]]; [discriminate|].
  destruct (IsSignatureUnique db sf _) as [[|]|]; try discriminate.
  simpl in H.
  destruct (get_func db (wrap64 (currentAddress st + len))) as [g|] eqn:E;
    simpl in H; [|discriminate].
  destruct (g =? f) eqn:Eg; simpl in H; [|discriminate].
  inversion H; subst; simpl. rewrite E. f_equal. now apply Z.eqb_eq.
Qed.

(** X17. With [continueOutsideOfFunction] off and an anchor inside a
    function, every pass of the growing builder starts inside that
    function: each instruction that enters the signature begins in the
    function of the anchor. *)
Theorem passes_stay_in_function db IS_ARM sf ea wo maxlen ask f w n st :
  get_func db ea = Some f ->
  iterate (grow_body db IS_ARM sf ea wo false maxlen ask (get_func db ea))
    n (grow_init ea w) = Some st ->
  get_func db (currentAddress st) = Some f.
Proof.
  intros Hf. rewrite Hf.
  destruct n as [|n].
  - simpl. intros H; inversion H; subst. exact Hf.
  - replace (S n) with (n + 1)%nat by lia. intros H.
    apply iterate_split in H. destruct H as (stk & _ & H).
    simpl in H.
    destruct (grow_body db IS_ARM sf ea wo false maxlen ask (Some f) stk)
      as [|st1|] eqn:E; try discriminate.
    inversion H; subst. eapply grow_body_continue_scope; exact E.
Qed.

(** ** Printing the ranking *)

Lemma xref_lines_app a b : xref_lines (a ++ b) = xref_lines a ++ xref_lines b.
Proof. unfold xref_lines. apply flat_map_app. Qed.

Lemma print_top_lines FormatSignature sigType l : forall i w,
  xref_lines (output (print_top FormatSignature l i sigType w))
  = xref_lines (output w)
    ++ map (fun p => (fst p + 1, fst (snd p),
                      FormatSignature (snd (snd p)) sigType))%nat
           (combine (seq i (List.length l)) l).
Proof.
  induction l as [|[origin sig] l IH]; intros i w; simpl.
  - now rewrite app_nil_r.
  - rewrite IH. destruct (Nat.eqb i 0); simpl;
      rewrite !xref_lines_app; simpl; rewrite <- !app_assoc; reflexivity.
Qed.

Lemma firstn_min_length (A : Type) (l : list A) : forall n,
  firstn (Nat.min n (List.length l)) l = firstn n l.
Proof.
  induction l as [|a l IH]; intros [|n]; simpl; try reflexivity.
  now rewrite IH.
Qed.

(** X18. Of a ranking that is not empty, [PrintXRefSignaturesForEA]
    prints the first [topCount] entries, or all when there are fewer, in
    the order of the ranking, numbered from 1, each with its origin and
    its formatted signature; of an empty ranking it prints the one line
    that no xrefs were found, and copies nothing. *)
Theorem printed_ranking FormatSignature w ea l sigType topCount :
  (l <> [] ->
   xref_lines (output (PrintXRefSignaturesForEA FormatSignature w ea l
                         sigType topCount))
   = xref_lines (output w)
     ++ map (fun p => (fst p + 1, fst (snd p),
                       FormatSignature (snd (snd p)) sigType))%nat
            (combine (seq 0 (Nat.min topCount (List.length l)))
                     (firstn topCount l))) /\
  (l = [] ->
   output (PrintXRefSignaturesForEA FormatSignature w ea l sigType topCount)
   = output w ++ [msg_no_xrefs]).
Proof.
  split.
  - intros Hl. unfold PrintXRefSignaturesForEA.
    destruct l as [|p l]; [congruence|].
    remember (p :: l) as L eqn:HL. clear HL Hl.
    rewrite print_top_lines. cbn [output emit].
    rewrite xref_lines_app. cbn [xref_lines flat_map]. rewrite app_nil_r.
    rewrite firstn_min_length, length_firstn. reflexivity.
  - intros ->. reflexivity.
Qed.

(** ** The further statements at work on the small database *)

Lemma default_policy_witness :
  GetOperand false Demo.call_insn 0 0 = (true, 1, 4) /\
  (forall operandOffset operandLength,
      GetOperand false Demo.call_insn 0 0
        = (true, operandOffset, operandLength) ->
      operandOffset + operandLength = size Demo.call_insn) /\
  GetOperand false Demo.plain_insn 0 0 = (false, 0, 0).
Proof.
  split; [|split].
  - exact (proj1 (proj2 (default_policy Demo.call_insn 0 0))
             [] {| type := o_near; offb := 1 |} [] eq_refl
             (Forall_nil _) ltac:(discriminate) ltac:(discriminate)).
  - intros off len H.
    destruct (proj1 (default_policy Demo.call_insn 0 0) off len H)
      as (pre & op & post & Hl & _ & _ & H0 & _ & _ & Hsum).
    apply Hsum; [|simpl; lia].
    destruct pre as [|q pre]; simpl in Hl.
    + inversion Hl; subst op. simpl. lia.
    + inversion Hl as [[Hq Hrest]]. now destruct pre.
  - apply (proj2 (proj2 (default_policy Demo.plain_insn 0 0))). constructor.
Defined.

Lemma append_covers_instruction_witness :
  exists added,
    append_instruction Demo.db_never false [] 4096 Demo.call_insn 5 true
    = [] ++ added /\
    map value added = [232; 1; 2; 3; 4].
Proof.
  destruct (append_covers_instruction Demo.db_never [] 4096 Demo.call_insn
              5 true)
    as (added & first & rest & H1 & _ & H2 & _).
  - lia.
  - repeat split; try lia. repeat constructor; simpl; lia.
  - exists added. split; [exact H1|]. rewrite H2. reflexivity.
Defined.

Lemma arm_append_layout_witness :
  append_instruction Demo.db_never true [] 4096 Demo.arm4 4 true
  = [Demo.wild 232; Demo.wild 1; Demo.wild 2; Demo.lit 3].
Proof.
  rewrite (proj1 (arm_append_layout Demo.db_never [] 4096 Demo.arm4 4
                    [ {| type := o_reg; offb := 0 |} ]
                    {| type := o_imm; offb := 0 |} [] 3
                    eq_refl ltac:(repeat constructor) eq_refl
                    (or_introl (conj eq_refl eq_refl)))
             eq_refl).
  reflexivity.
Defined.

Lemma builder_failures_witness :
  GenerateUniqueSignatureForEA Demo.db_never false 8 8 Demo.w0 BADADDR
    true false 1000 true
  = Some (unexpected InvalidAddress, Demo.w0) /\
  GenerateUniqueSignatureForEA Demo.db_never false 8 8 Demo.w0 20480
    true false 1000 true
  = Some (unexpected NotCode, Demo.w0) /\
  get_func Demo.db_never 4096 <> None.
Proof.
  split; [|split].
  - apply (proj1 (proj2 (builder_failures Demo.db_never false 8 8 Demo.w0
                           BADADDR true false 1000 true)) eq_refl).
  - apply (proj1 (proj2 (proj2
             (builder_failures Demo.db_never false 8 8 Demo.w0 20480
                true false 1000 true)))).
    + intros H; vm_compute in H; discriminate H.
    + reflexivity.
  - destruct (proj1 (builder_failures Demo.db_never false 8 8 Demo.w0 4096
                       true false 1000 true)
                LeftFunctionScope (Demo.after_polls 3) eq_refl)
      as [(H & _)|[(H & _)|[H|[H|[H|[(H & _)|(_ & _ & H)]]]]]];
      try discriminate H.
    exact H.
Defined.

Lemma signature_only_grows_witness :
  exists added,
    Demo.sig3 = Demo.sig1 ++ added /\ (2 <= List.length added)%nat.
Proof.
  exact (proj1 (signature_only_grows Demo.db_never false 8 4096 true true
                  1000 true Demo.w0 1 2 Demo.st1 Demo.st3 eq_refl eq_refl)).
Defined.

Lemma decode_failed_only_at_start_witness :
  fst (decode_insn Demo.db_never 4112) <= 0 /\
  Demo.after_polls 1 = polled Demo.w0.
Proof.
  exact (proj1 (decode_failed_only_at_start Demo.db_never false 8 4112
                  true true 1000 true 8 Demo.w0)
           (Demo.after_polls 1) eq_refl).
Defined.

Lemma success_transcribes_anchor_witness :
  map value Demo.sig2 = image_values Demo.db_second 4096 6 /\
  exists rest, Demo.sig2 = Demo.lit 232 :: rest.
Proof.
  exact (success_transcribes_anchor Demo.db_second 8 4096 true false 1000
           true (demo_decoder_well_formed _ _ _) 8 Demo.w0 Demo.sig2
           (Demo.after_polls 2) eq_refl).
Defined.

Lemma success_within_cap_witness :
  Z.of_nat (List.length Demo.sig2) <= 250 + 255 /\
  Forall (fun p => Z.of_nat (List.length (snd p)) <= 250 + 255) Demo.ranked.
Proof.
  destruct (success_within_cap Demo.db_second 8 8 true true 250
              (demo_decoder_well_formed _ _ _) ltac:(lia) eq_refl)
    as (Hb & Hx).
  split.
  - exact (Hb Demo.w0 4096 Demo.sig2 (Demo.after_polls 2) eq_refl).
  - exact (Hx Demo.w0 12288 Demo.ranked Demo.after_ranking eq_refl).
Defined.

Lemma range_copies_bytes_witness :
  (map value [Demo.lit 232; Demo.lit 1; Demo.lit 2; Demo.lit 3; Demo.lit 4]
   = image_values Demo.db_never 4096 5 /\
   4101 - 4096 <= 5) /\
  (Z.of_nat (List.length (map Demo.lit [0; 0; 0; 0; 0])) = 20485 - 20480 /\
   Demo.w0 = Demo.w0).
Proof.
  split.
  - destruct (range_copies_bytes Demo.db_never false 8 Demo.w0 4096 4101
                [Demo.lit 232; Demo.lit 1; Demo.lit 2; Demo.lit 3; Demo.lit 4]
                (Demo.after_polls 1) ltac:(lia) eq_refl eq_refl)
      as (_ & H1 & H2 & _).
    split; [exact H1|exact H2].
  - exact (proj2 (proj2 (proj2
             (range_copies_bytes Demo.db_never false 8 Demo.w0 20480 20485
                (map Demo.lit [0; 0; 0; 0; 0]) Demo.w0
                ltac:(lia) eq_refl eq_refl))) eq_refl).
Defined.

Lemma range_transcribes_start_witness :
  map value [Demo.lit 232] = image_values Demo.db_never 4096 1.
Proof.
  exact (range_transcribes_start Demo.db_never 8 Demo.w0 4096 4101 true
           [Demo.lit 232] (Demo.after_polls 1)
           (demo_decoder_well_formed _ _ _) eq_refl).
Defined.

Lemma ranking_never_prompts_witness :
  no_prompt_since Demo.w0 Demo.after_ranking.
Proof.
  exact (ranking_never_prompts Demo.db_second false 8 8 Demo.w0 12288
           true true [] 250 Demo.ranked Demo.after_ranking eq_refl).
Defined.

Lemma search_token_text_witness :
  convert_signature_string "E8 ?? ?? ?? ?? 90 ??" Demo.w0
  = ("E8 ? ? ? ? 90 ", Demo.w0) /\
  SearchSignatureString Demo.db_second 8 "E8 ?? ?? ?? ?? 90 ??" Demo.w0
  = Some {| polls := 0; prompts := 0;
            output := [msg_signature "E8 ? ? ? ? 90 "; msg_no_match] |}.
Proof.
  destruct (search_token_text Demo.db_second 8 "??"
              (Demo.sig2 ++ [Demo.wild 0]) Demo.w0 (or_intror eq_refl)
              ltac:(intros H; vm_compute in H; discriminate H))
    as (Hc & Hs).
  split; [exact Hc|]. exact (Hs [] eq_refl).
Defined.

Lemma bitmask_reversed_witness :
  detect_mask "0x00, 0x11, 0x22, 0x33 0b1010" = "?x?x".
Proof.
  exact (bitmask_reversed "0x00, 0x11, 0x22, 0x33 "
           [true; false; true; false] EmptyString
           eq_refl eq_refl ltac:(discriminate) (or_introl eq_refl)).
Defined.

Lemma masked_conversion_witness :
  convert_signature_string "0x00, 0x11, 0x22, 0x33 0b1010" Demo.w0
  = ("? 11 ? 33", Demo.w0) /\
  convert_signature_string "\x00\x11 xxx" Demo.w0
  = (EmptyString, emit Demo.w0 (msg_detected_mask "xxx")).
Proof.
  split.
  - assert (Hmask : detect_mask "0x00, 0x11, 0x22, 0x33 0b1010"
                    <> EmptyString)
      by (intros H; vm_compute in H; discriminate H).
    destruct (masked_conversion "0x00, 0x11, 0x22, 0x33 0b1010" Demo.w0
                Hmask) as (Hacc & _).
    destruct (Hacc ["0x00"; "0x11"; "0x22"; "0x33"]) as (Hc & _).
    + right. split; [vm_compute; discriminate|vm_compute; reflexivity].
    + vm_compute; reflexivity.
    + rewrite Hc. vm_compute. reflexivity.
  - assert (Hmask : detect_mask "\x00\x11 xxx" <> EmptyString)
      by (intros H; vm_compute in H; discriminate H).
    destruct (masked_conversion "\x00\x11 xxx" Demo.w0 Hmask) as (_ & Hrej).
    rewrite Hrej.
    + vm_compute. reflexivity.
    + vm_compute; discriminate.
    + vm_compute; discriminate.
Defined.

Lemma cancelled_run_witness :
  GenerateUniqueSignatureForEA (always_cancelled Demo.db_second) false 8 8
    Demo.w0 4096 true false 1000 true
  = Some (unexpected Aborted, Demo.after_polls 1) /\
  exists w',
    FindXRefs (always_cancelled Demo.db_second) false 8 8 Demo.w0 12288
      true true [] 250 = Some ([], w') /\
    output w' = [wait_box_xref 1 4; wait_box_xref 3 4;
                 wait_box_xref 4 4; wait_box_xref 5 4] /\
    polls w' = 4%nat.
Proof.
  destruct (cancelled_run (always_cancelled Demo.db_second) false 8 8
              Demo.w0 4096 true false 1000 true (fun _ => eq_refl)
              ltac:(lia)) as (Hb & _ & _).
  split; [exact (Hb demo_anchor eq_refl)|].
  destruct (proj2 (proj2 (proj2
              (cancelled_run (always_cancelled Demo.db_second)
                 false 8 8 Demo.w0 12288 true true 250 true
                 (fun _ => eq_refl) ltac:(lia))))) as (w' & E & Ho & Hp & _).
  exists w'. split; [exact E|]. split; [exact Ho|exact Hp].
Defined.

Lemma passes_stay_in_function_witness :
  get_func Demo.db_third (currentAddress Demo.st2) = Some 1.
Proof.
  exact (passes_stay_in_function Demo.db_third false 8 4096 true 1000 true
           1 Demo.w0 2 Demo.st2 eq_refl eq_refl).
Defined.

Lemma printed_ranking_witness :
  xref_lines
    (output (PrintXRefSignaturesForEA Demo.render Demo.after_ranking 12288
               Demo.ranked IdaStyle 2))
  = [(1%nat, 4102, "C3"); (2%nat, 4101, "90 C3")].
Proof.
  rewrite (proj1 (printed_ranking Demo.render Demo.after_ranking 12288
                    Demo.ranked IdaStyle 2) ltac:(discriminate)).
  reflexivity.
Defined.
